(** * dryfinder: repeated-block detection and glob translation

    A shallow embedding of [src/main.cpp] and the properties of its
    duplicate finder ([build_maximal_block], [find_repeated_blocks], the
    ordering applied by [main] and [print_yaml]), of its glob engine
    ([to_regex_from_glob_suffix], [compile_pattern], [expand_globs]), of
    its line loader, of its report ([yaml_escape], [print_yaml]) and of
    the command line of [main].

    Conventions.
    - [std::string] is [string]; its [operator<] compares bytes as
      unsigned values, which is what [String.ltb] does.
    - [size_t] line numbers and offsets are [nat]: they index vectors
      that live in memory, so 64-bit wrap-around is out of reach; the
      one subtraction the code performs ([start - 1]) is guarded by a
      test against zero.
    - [std::vector] is [list]; [v[k]] is [nth k v d]. Every index the
      code reads is guarded by a bounds test in the source.
    - [std::unordered_map] is an association list with unique keys.
      Its iteration order is unspecified, so a traversal visits an
      arbitrary permutation of the entries.
    - A [fs::path] is carried as its generic string, the form under
      which the code compares, records, sorts and prints paths.  The
      conversion of a native string to that form belongs to the
      platform's library and is a parameter ([to_generic_string]).
    - The file system is a parameter: [probe] answers the status
      queries and the directory walks of [expand_globs], [fs] gives the
      bytes of a file or [None] when it cannot be opened.
    - An exception that nothing catches ends the run; functions that
      can raise one return an [option]. *)

From Equations Require Import Equations.
From Equations.Prop Require Import Logic.
From Stdlib Require Import List String Ascii Arith NArith Lia Bool.
From Stdlib Require Import Permutation Sorted.
From Stdlib Require Import Decimal DecimalString DecimalNat ZArith.
From Stdlib Require DecimalFacts.
Import ListNotations.

Local Open Scope string_scope.
Local Open Scope list_scope.

(** ** Utilities (main.cpp, lines 27-67) *)

Definition LF : ascii := Ascii.ascii_of_nat 10.
Definition CR : ascii := Ascii.ascii_of_nat 13.
Definition TAB : ascii := Ascii.ascii_of_nat 9.
Definition SPACE : ascii := Ascii.ascii_of_nat 32.

(** [strip_utf8_bom]: drops the three bytes EF BB BF when the string
    starts with them. *)
Definition strip_utf8_bom (s : string) : string :=
  match s with
  | String a (String b (String c rest)) =>
      if (Ascii.eqb a (Ascii.ascii_of_nat 239)
          && Ascii.eqb b (Ascii.ascii_of_nat 187)
          && Ascii.eqb c (Ascii.ascii_of_nat 191))%bool
      then rest else s
  | _ => s
  end.

(** [rstrip_cr]: removes one trailing carriage return. *)
Fixpoint rstrip_cr (s : string) : string :=
  match s with
  | EmptyString => EmptyString
  | String c EmptyString => if Ascii.eqb c CR then EmptyString else s
  | String c s' => String c (rstrip_cr s')
  end.

(** [strip_indent]: skips leading spaces and tabs. *)
Fixpoint strip_indent (s : string) : string :=
  match s with
  | EmptyString => EmptyString
  | String c s' =>
      if (Ascii.eqb c SPACE || Ascii.eqb c TAB)%bool then strip_indent s' else s
  end.

(** ** Glob engine (main.cpp, lines 124-158 and 205-228) *)

Definition STAR : ascii := "*"%char.
Definition QUESTION : ascii := "?"%char.
Definition SLASH : ascii := "/"%char.
Definition DOT : ascii := "."%char.
Definition CARET : ascii := "^"%char.
Definition DOLLAR : ascii := "$"%char.
Definition LBRACKET : ascii := "["%char.
Definition RBRACKET : ascii := "]"%char.
Definition BACKSLASH : ascii := Ascii.ascii_of_nat 92.

(** The characters the [switch] escapes with a backslash. *)
Definition is_escaped (c : ascii) : bool :=
  existsb (Ascii.eqb c)
    [ DOT; "+"%char; "("%char; ")"%char; CARET; DOLLAR; "|"%char;
      "{"%char; "}"%char; LBRACKET; RBRACKET; BACKSLASH ].

(** The suffix after the stars at its head: where the inner [while]
    leaves [j]. *)
Fixpoint skip_stars (s : string) : string :=
  match s with
  | String c r => if Ascii.eqb c STAR then skip_stars r else s
  | EmptyString => EmptyString
  end.

(** The number of stars at the head of the suffix. *)
Fixpoint count_stars (s : string) : nat :=
  match s with
  | String c r => if Ascii.eqb c STAR then S (count_stars r) else 0
  | EmptyString => 0
  end.

(** The [for] loop of [to_regex_from_glob_suffix], from index [i] on:
    [s] is the part of the suffix that is left. *)
Equations? glob_body (s : string) : string by wf (String.length s) lt :=
  glob_body EmptyString := EmptyString;
  glob_body (String c r) :=
    if Ascii.eqb c STAR then
      String.append
        (if Nat.leb 2 (S (count_stars r)) then ".*" else "[^/]*")
        (glob_body (skip_stars r))
    else if Ascii.eqb c QUESTION then
      String.append "[^/]" (glob_body r)
    else if is_escaped c then
      String BACKSLASH (String c (glob_body r))
    else
      String c (glob_body r).
Proof.
  all: simpl; try lia.
  assert (String.length (skip_stars r) <= String.length r); [|lia].
  clear. induction r as [|c r IH]; simpl; [lia|].
  destruct (Ascii.eqb c STAR); simpl; lia.
Qed.

Definition to_regex_from_glob_suffix (suffix : string) : string :=
  String.append "^" (String.append (glob_body suffix) "$").

(** *** The regular expressions the translation emits

    [std::regex] is the C++ standard library's; what follows is its
    ECMAScript grammar and matching restricted to the constructs
    [to_regex_from_glob_suffix] writes: the assertions [^] and [$], the
    atoms [.], [[^/]], an escaped character and a plain character, and
    the quantifier [*].  As ECMAScript defines it, [.] matches any
    character except a line terminator, and a negated class matches
    every character outside the class, line terminators included. *)

Inductive ratom : Type :=
| AnyChar              (* .     *)
| NotSlash             (* [^/]  *)
| Lit (c : ascii).     (* c, \c *)

Inductive ritem : Type :=
| AtBegin              (* ^  *)
| AtEnd                (* $  *)
| One (a : ratom)      (* a  *)
| Many (a : ratom).    (* a* *)

Definition atom_matches (a : ratom) (c : ascii) : bool :=
  match a with
  | AnyChar => negb (Ascii.eqb c LF || Ascii.eqb c CR)
  | NotSlash => negb (Ascii.eqb c SLASH)
  | Lit x => Ascii.eqb c x
  end.

Definition flush (pending : option ratom) : list ritem :=
  match pending with
  | Some a => [One a]
  | None => []
  end.

(** Syntax characters that stand for something else when unescaped and
    that this fragment does not cover. *)
Definition is_other_syntax (c : ascii) : bool :=
  existsb (Ascii.eqb c)
    [ "+"%char; QUESTION; "("%char; ")"%char; "|"%char;
      "{"%char; "}"%char; RBRACKET ].

(** Reads the pattern left to right; [pending] is the atom just read,
    which a following [*] would quantify.  [None] is a pattern outside
    the fragment. *)
Fixpoint parse_items (pending : option ratom) (s : string)
  : option (list ritem) :=
  match s with
  | EmptyString => Some (flush pending)
  | String c r =>
      if Ascii.eqb c STAR then
        match pending with
        | Some a => option_map (cons (Many a)) (parse_items None r)
        | None => None
        end
      else if Ascii.eqb c CARET then
        option_map (fun l => flush pending ++ AtBegin :: l)
                   (parse_items None r)
      else if Ascii.eqb c DOLLAR then
        option_map (fun l => flush pending ++ AtEnd :: l)
                   (parse_items None r)
      else if Ascii.eqb c DOT then
        option_map (List.app (flush pending)) (parse_items (Some AnyChar) r)
      else if Ascii.eqb c BACKSLASH then
        match r with
        | String x r' =>
            option_map (List.app (flush pending)) (parse_items (Some (Lit x)) r')
        | EmptyString => None
        end
      else if Ascii.eqb c LBRACKET then
        match r with
        | String c1 (String c2 (String c3 r')) =>
            if (Ascii.eqb c1 CARET && Ascii.eqb c2 SLASH
                && Ascii.eqb c3 RBRACKET)%bool
            then option_map (List.app (flush pending))
                            (parse_items (Some NotSlash) r')
            else None
        | _ => None
        end
      else if is_other_syntax c then None
      else option_map (List.app (flush pending)) (parse_items (Some (Lit c)) r)
  end.

(** Backtracking match of the items against the whole of [s];
    [at_start] says that no character has been consumed yet. *)
Fixpoint matches (items : list ritem) (at_start : bool) (s : string)
  : bool :=
  match items with
  | [] => match s with EmptyString => true | _ => false end
  | AtBegin :: rest => at_start && matches rest at_start s
  | AtEnd :: rest =>
      match s with
      | EmptyString => matches rest at_start s
      | _ => false
      end
  | One a :: rest =>
      match s with
      | String c s' => atom_matches a c && matches rest false s'
      | EmptyString => false
      end
  | Many a :: rest =>
      (fix many (at_start : bool) (s : string) : bool :=
         matches rest at_start s
         || match s with
            | String c s' => atom_matches a c && many false s'
            | EmptyString => false
            end) at_start s
  end.

(** [std::regex_match]: the pattern must match the entire string. *)
Definition regex_match (s : string) (re : string) : bool :=
  match parse_items None re with
  | Some items => matches items true s
  | None => false
  end.

(** The test [expand_globs] applies to a path relative to the base. *)
Definition glob_matches (suffix rel : string) : bool :=
  regex_match rel (to_regex_from_glob_suffix suffix).

(** ** Data model (main.cpp, lines 237-251 and 294-297) *)

Record FileData := mkFileData {
  fd_path : string;
  fd_lines : list string
}.

Record Hit := mkHit {
  h_path : string;
  start_line : nat;
  end_line : nat
}.

Record DuplicateBlock := mkBlock {
  b_lines : list string;
  b_hits : list Hit
}.

Record Occurrence := mkOcc {
  file_index : nat;
  start : nat
}.

(** ** Line loading (main.cpp, lines 253-271) *)

(** The sequence of strings that repeated [std::getline] calls extract
    from a stream holding [s]: the text is cut at every line feed, and a
    final line feed does not open another line. *)
Fixpoint getlines (s : string) : list string :=
  match s with
  | EmptyString => []
  | String c s' =>
      if Ascii.eqb c LF then EmptyString :: getlines s'
      else match getlines s' with
           | [] => [String c EmptyString]
           | l :: ls => String c l :: ls
           end
  end.

(** A file that cannot be opened is [None] and yields no lines. *)
Definition read_lines_normalized (content : option string) : list string :=
  match content with
  | None => []
  | Some raw =>
      match map rstrip_cr (getlines raw) with
      | [] => []
      | first :: others => strip_utf8_bom first :: others
      end
  end.

(** ** Joining lines (main.cpp, lines 273-292) *)

(** Lines [i] to [j - 1], with a line feed between two of them. *)
Definition join_lines (v : list string) (i j : nat) : string :=
  String.concat (String LF EmptyString)
    (map (fun k => nth k v EmptyString) (seq i (j - i))).

Definition norm_line (ignore_indent : bool) (s : string) : string :=
  if ignore_indent then strip_indent s else s.

(** The same with every line stripped of its indentation when
    [ignore_indent] is set. *)
Definition join_lines_norm (v : list string) (i j : nat) (ignore_indent : bool)
  : string :=
  String.concat (String LF EmptyString)
    (map (fun k => norm_line ignore_indent (nth k v EmptyString))
         (seq i (j - i))).

(** ** Maximal extension of a seed group (main.cpp, lines 299-362) *)

(** Values that stand where an index would fall outside its vector;
    the bounds tests of the source keep the reads inside. *)
Definition no_file : FileData := mkFileData EmptyString [].
Definition no_occ : Occurrence := mkOcc 0 0.

Definition file_at (files : list FileData) (idx : nat) : FileData :=
  nth idx files no_file.

Definition line_at (files : list FileData) (idx k : nat) : string :=
  nth k (fd_lines (file_at files idx)) EmptyString.

(** The lambda [equal_line]. *)
Definition equal_line (ignore_indent : bool) (a b : string) : bool :=
  if negb ignore_indent then String.eqb a b
  else String.eqb (strip_indent a) (strip_indent b).

(** [oc.start -= 1]. *)
Definition dec_start (oc : Occurrence) : Occurrence :=
  mkOcc (file_index oc) (start oc - 1).

(** One test of the backward loop: no occurrence sits at the start of
    its file, and every occurrence after the first has the same previous
    line as the first.  The source reads [occs[0]] unconditionally; its
    only caller passes groups of two or more, and on the empty vector
    the test is [false] here. *)
Definition can_extend_backward (files : list FileData) (ignore_indent : bool)
    (occs : list Occurrence) : bool :=
  match occs with
  | [] => false
  | o0 :: rest =>
      forallb (fun oc => negb (Nat.eqb (start oc) 0)) occs
      && (let ref := line_at files (file_index o0) (start o0 - 1) in
          forallb (fun oc =>
                     equal_line ignore_indent
                       (line_at files (file_index oc) (start oc - 1)) ref)
                  rest)
  end.

(** The backward loop: while the test passes, every start moves up one
    line.  It recurses on the first occurrence's start offset, which each
    pass lowers. *)
Equations? extend_backward (files : list FileData) (ignore_indent : bool)
    (occs : list Occurrence) : list Occurrence
    by wf (start (hd no_occ occs)) lt :=
  extend_backward files ignore_indent occs
    with inspect (can_extend_backward files ignore_indent occs) => {
    | exist _ true _ =>
        extend_backward files ignore_indent (map dec_start occs);
    | exist _ false _ => occs }.
Proof.
  destruct occs as [|o0 rest]; [discriminate|].
  cbn in e. apply andb_prop in e as [e _]. apply andb_prop in e as [e _].
  apply negb_true_iff, Nat.eqb_neq in e. cbn. lia.
Qed.

(** One test of the forward loop at the current [length]. *)
Definition can_extend_forward (files : list FileData) (ignore_indent : bool)
    (occs : list Occurrence) (length : nat) : bool :=
  match occs with
  | [] => false
  | o0 :: rest =>
      let next_idx0 := start o0 + length in
      let f0 := file_at files (file_index o0) in
      if Nat.leb (List.length (fd_lines f0)) next_idx0 then false
      else
        let ref := nth next_idx0 (fd_lines f0) EmptyString in
        forallb (fun oc =>
                   let next_idx := start oc + length in
                   let fi := file_at files (file_index oc) in
                   negb (Nat.leb (List.length (fd_lines fi)) next_idx
                         || negb (equal_line ignore_indent
                                    (nth next_idx (fd_lines fi) EmptyString)
                                    ref)))
                rest
  end.

(** The forward loop: while the test passes, [length] grows by one.  It
    recurses on the number of lines left in the first occurrence's file
    below [start + length]. *)
Equations? extend_forward (files : list FileData) (ignore_indent : bool)
    (occs : list Occurrence) (length : nat) : nat
    by wf (List.length (fd_lines (file_at files (file_index (hd no_occ occs))))
           - (start (hd no_occ occs) + length)) lt :=
  extend_forward files ignore_indent occs length
    with inspect (can_extend_forward files ignore_indent occs length) => {
    | exist _ true _ => extend_forward files ignore_indent occs (length + 1);
    | exist _ false _ => length }.
Proof.
  destruct occs as [|o0 rest]; [discriminate|].
  cbn in e. cbn.
  destruct (Nat.leb_spec
              (List.length (fd_lines (file_at files (file_index o0))))
              (start o0 + length)); [discriminate|lia].
Qed.

(** [std::vector(v.begin() + i, v.begin() + j)]. *)
Definition slice (v : list string) (i j : nat) : list string :=
  firstn (j - i) (skipn i v).

(** The hit of an occurrence: its path and its 1-based inclusive
    range. *)
Definition hit_of (files : list FileData) (length : nat) (oc : Occurrence)
  : Hit :=
  mkHit (fd_path (file_at files (file_index oc)))
        (start oc + 1) (start oc + length).

Definition build_maximal_block (files : list FileData)
    (occs_in : list Occurrence) (seed_len : nat) (ignore_indent : bool)
  : DuplicateBlock :=
  let occs := extend_backward files ignore_indent occs_in in
  let length := extend_forward files ignore_indent occs seed_len in
  let o0 := hd no_occ occs in
  mkBlock
    (slice (fd_lines (file_at files (file_index o0)))
           (start o0) (start o0 + length))
    (map (hit_of files length) occs).

(** ** Seed index and aggregation (main.cpp, lines 364-438) *)

(** [m[k]] followed by an in-place change of the mapped value: the entry
    is created from the default [d] when the key is absent. *)
Fixpoint umap_update {V : Type} (k : string) (d : V) (f : V -> V)
    (m : list (string * V)) : list (string * V) :=
  match m with
  | [] => [(k, f d)]
  | (k', v) :: m' =>
      if String.eqb k k' then (k', f v) :: m'
      else (k', v) :: umap_update k d f m'
  end.

Fixpoint umap_find {V : Type} (k : string) (m : list (string * V))
  : option V :=
  match m with
  | [] => None
  | (k', v) :: m' => if String.eqb k k' then Some v else umap_find k m'
  end.

Definition load_files (fs : string -> option string)
    (files_paths : list string) : list FileData :=
  map (fun p => mkFileData p (read_lines_normalized (fs p))) files_paths.

(** The windows in the order the two nested loops visit them. *)
Definition file_windows (min_lines : nat) (ignore_indent : bool)
    (idx : nat) (f : FileData) : list (string * Occurrence) :=
  if Nat.ltb (List.length (fd_lines f)) min_lines then []
  else map (fun i => (join_lines_norm (fd_lines f) i (i + min_lines)
                        ignore_indent,
                      mkOcc idx i))
           (seq 0 (List.length (fd_lines f) + 1 - min_lines)).

Definition seed_windows (files : list FileData) (min_lines : nat)
    (ignore_indent : bool) : list (string * Occurrence) :=
  flat_map (fun idx => file_windows min_lines ignore_indent idx
                         (file_at files idx))
           (seq 0 (List.length files)).

Definition push_window (seeds : list (string * list Occurrence))
    (w : string * Occurrence) : list (string * list Occurrence) :=
  umap_update (fst w) [] (fun v => v ++ [snd w]) seeds.

Definition build_seeds (files : list FileData) (min_lines : nat)
    (ignore_indent : bool) : list (string * list Occurrence) :=
  fold_left push_window (seed_windows files min_lines ignore_indent) [].

Record Agg := mkAgg {
  agg_lines : list string;
  agg_hit_keys : list string;
  agg_hits : list Hit
}.

Definition empty_agg : Agg := mkAgg [] [] [].

(** [operator<<] on a [size_t]: decimal digits. *)
Definition dec (n : nat) : string :=
  NilEmpty.string_of_uint (Nat.to_uint n).

Definition hit_key (h : Hit) : string :=
  String.append (h_path h)
    (String LF (String.append (dec (start_line h))
                  (String LF (dec (end_line h))))).

Definition add_hit (agg : Agg) (h : Hit) : Agg :=
  let k := hit_key h in
  if existsb (String.eqb k) (agg_hit_keys agg) then agg
  else mkAgg (agg_lines agg) (k :: agg_hit_keys agg) (agg_hits agg ++ [h]).

Definition merge_block (block : DuplicateBlock) (agg : Agg) : Agg :=
  let agg1 :=
    match agg_lines agg with
    | [] => mkAgg (b_lines block) (agg_hit_keys agg) (agg_hits agg)
    | _ :: _ => agg
    end in
  fold_left add_hit (b_hits block) agg1.

(** The body of the loop over [seeds]. *)
Definition process_group (files : list FileData) (min_lines : nat)
    (ignore_indent : bool) (by_content : list (string * Agg))
    (entry : string * list Occurrence) : list (string * Agg) :=
  let occs := snd entry in
  if Nat.ltb (List.length occs) 2 then by_content
  else
    let block := build_maximal_block files occs min_lines ignore_indent in
    let content_key :=
      join_lines_norm (b_lines block) 0 (List.length (b_lines block))
        ignore_indent in
    umap_update content_key empty_agg (merge_block block) by_content.

(** The body of the loop over [by_content]. *)
Definition collect_block (entry : string * Agg) : list DuplicateBlock :=
  if Nat.leb 2 (List.length (agg_hits (snd entry)))
  then [mkBlock (agg_lines (snd entry)) (agg_hits (snd entry))]
  else [].

(** The map [by_content] when the loop over [seeds] meets its entries
    in the sequence [order1]. *)
Definition by_content_of (files : list FileData) (min_lines : nat)
    (ignore_indent : bool) (order1 : list (string * list Occurrence))
  : list (string * Agg) :=
  fold_left (process_group files min_lines ignore_indent) order1 [].

(** [find_repeated_blocks] after the files are loaded.  [order1] and
    [order2] are the sequences in which the two range-for loops meet the
    entries of [seeds] and of [by_content]. *)
Inductive find_repeated_blocks_loaded (files : list FileData)
    (min_lines : nat) (ignore_indent : bool)
  : list DuplicateBlock -> Prop :=
| frb_intro (order1 : list (string * list Occurrence))
            (order2 : list (string * Agg)) :
    Permutation (build_seeds files min_lines ignore_indent) order1 ->
    Permutation (by_content_of files min_lines ignore_indent order1) order2 ->
    find_repeated_blocks_loaded files min_lines ignore_indent
      (flat_map collect_block order2).

Definition find_repeated_blocks (fs : string -> option string)
    (files_paths : list string) (min_lines : nat) (ignore_indent : bool)
    (out : list DuplicateBlock) : Prop :=
  find_repeated_blocks_loaded (load_files fs files_paths) min_lines
    ignore_indent out.

(** One admissible run: both maps are traversed in insertion order. *)
Definition find_repeated_blocks_fn (files : list FileData) (min_lines : nat)
    (ignore_indent : bool) : list DuplicateBlock :=
  flat_map collect_block
    (by_content_of files min_lines ignore_indent
       (build_seeds files min_lines ignore_indent)).

(** ** Ordering (main.cpp, lines 545-552 and 458-464) *)

(** [operator<] on [std::vector<std::string>]. *)
Fixpoint lines_lt (a b : list string) : bool :=
  match a, b with
  | _, [] => false
  | [], _ :: _ => true
  | x :: a', y :: b' =>
      if String.ltb x y then true
      else if String.ltb y x then false
      else lines_lt a' b'
  end.

(** The comparator [main] hands to [std::sort]. *)
Definition block_before (a b : DuplicateBlock) : bool :=
  if negb (Nat.eqb (List.length (b_lines a)) (List.length (b_lines b)))
  then Nat.ltb (List.length (b_lines b)) (List.length (b_lines a))
  else if negb (Nat.eqb (List.length (b_hits a)) (List.length (b_hits b)))
  then Nat.ltb (List.length (b_hits b)) (List.length (b_hits a))
  else
    match b_lines a, b_lines b with
    | a0 :: _, b0 :: _ =>
        if negb (String.eqb a0 b0) then String.ltb a0 b0
        else lines_lt (b_lines a) (b_lines b)
    | _, _ => lines_lt (b_lines a) (b_lines b)
    end.

(** The comparator [print_yaml] hands to [std::sort]. *)
Definition hit_before (a b : Hit) : bool :=
  if negb (String.eqb (h_path a) (h_path b))
  then String.ltb (h_path a) (h_path b)
  else if negb (Nat.eqb (start_line a) (start_line b))
  then Nat.ltb (start_line a) (start_line b)
  else Nat.ltb (end_line a) (end_line b).

(** What [std::sort] guarantees of its result: a rearrangement of the
    input in which no later element compares before an earlier one. *)
Definition std_sorted {A : Type} (before : A -> A -> bool)
    (l l' : list A) : Prop :=
  Permutation l l' /\ StronglySorted (fun x y => before y x = false) l'.

Fixpoint insert_by {A : Type} (before : A -> A -> bool) (x : A)
    (l : list A) : list A :=
  match l with
  | [] => [x]
  | y :: l' => if before y x then y :: insert_by before x l' else x :: l
  end.

(** A sorting function that meets [std_sorted]. *)
Definition sort_by {A : Type} (before : A -> A -> bool) (l : list A)
  : list A :=
  fold_right (insert_by before) [] l.

(** A block as [print_yaml] writes it: its hits are sorted first. *)
Definition emitted (b b' : DuplicateBlock) : Prop :=
  b_lines b' = b_lines b /\ std_sorted hit_before (b_hits b) (b_hits b').

(** The pipeline from the loaded files to the sequence of blocks that
    is written out. *)
Definition detect_duplicates (files : list FileData) (min_lines : nat)
    (ignore_indent : bool) (out : list DuplicateBlock) : Prop :=
  exists blocks sorted,
    find_repeated_blocks_loaded files min_lines ignore_indent blocks
    /\ std_sorted block_before blocks sorted
    /\ Forall2 emitted sorted out.

Definition emit_block (b : DuplicateBlock) : DuplicateBlock :=
  mkBlock (b_lines b) (sort_by hit_before (b_hits b)).

Definition detect_duplicates_fn (files : list FileData) (min_lines : nat)
    (ignore_indent : bool) : list DuplicateBlock :=
  map emit_block
    (sort_by block_before
       (find_repeated_blocks_fn files min_lines ignore_indent)).

(** ** Notions used to state the properties *)

(** The number of line feeds in a string. *)
Fixpoint count_lf (s : string) : nat :=
  match s with
  | EmptyString => 0
  | String c s' => (if Ascii.eqb c LF then 1 else 0) + count_lf s'
  end.

(** A line as [std::getline] delivers it holds no line feed. *)
Definition no_lf (s : string) : Prop := count_lf s = 0.

(** Every line of every file is free of line feeds, as the loader
    leaves them. *)
Definition lines_wf (files : list FileData) : Prop :=
  Forall (fun f => Forall no_lf (fd_lines f)) files.

(** The separator of the joined keys. *)
Definition NL : string := String LF EmptyString.

(** The key set of an aggregate mirrors its hit list, which is free of
    repetitions. *)
Definition good_agg (agg : Agg) : Prop :=
  NoDup (agg_hits agg)
  /\ forall k, In k (agg_hit_keys agg)
               <-> exists h, In h (agg_hits agg) /\ hit_key h = k.

(** The first step of [merge_block]: an aggregate without lines takes
    the block's. *)
Definition first_lines (block : DuplicateBlock) (agg : Agg) : Agg :=
  match agg_lines agg with
  | [] => mkAgg (b_lines block) (agg_hit_keys agg) (agg_hits agg)
  | _ :: _ => agg
  end.

(** The key under which [process_group] files a block. *)
Definition content_key (ignore_indent : bool) (block : DuplicateBlock)
  : string :=
  join_lines_norm (b_lines block) 0 (List.length (b_lines block))
    ignore_indent.

(** The block [process_group] builds from an entry of [seeds]. *)
Definition group_block (files : list FileData) (min_lines : nat)
    (ignore_indent : bool) (entry : string * list Occurrence)
  : DuplicateBlock :=
  build_maximal_block files (snd entry) min_lines ignore_indent.

(** An occurrence after [b] passes of the backward loop. *)
Definition shift_back (b : nat) (oc : Occurrence) : Occurrence :=
  mkOcc (file_index oc) (start oc - b).

(** The number of lines of the occurrence's file. *)
Definition size_at (files : list FileData) (oc : Occurrence) : nat :=
  List.length (fd_lines (file_at files (file_index oc))).

(** The line of [oc]'s file at absolute index [k], as the comparison sees
    it. *)
Definition nline (files : list FileData) (ign : bool) (oc : Occurrence)
    (k : nat) : string :=
  norm_line ign (line_at files (file_index oc) k).

(** The backward test, as a statement about the lines. *)
Definition back_ok (files : list FileData) (ign : bool) (o0 : Occurrence)
    (occs : list Occurrence) : Prop :=
  forall oc, In oc occs ->
    start oc <> 0
    /\ nline files ign oc (start oc - 1) = nline files ign o0 (start o0 - 1).

(** The forward test at length [len], as a statement about the
    lines. *)
Definition fwd_ok (files : list FileData) (ign : bool) (o0 : Occurrence)
    (occs : list Occurrence) (len : nat) : Prop :=
  forall oc, In oc occs ->
    start oc + len < size_at files oc
    /\ nline files ign oc (start oc + len) = nline files ign o0 (start o0 + len).

(** [extension files ign seed_len o0 occs b n]: on the group [occs] with
    first member [o0] the backward loop takes [b] steps and the forward
    loop stops at length [n]. *)
Record extension (files : list FileData) (ign : bool) (seed_len : nat)
    (o0 : Occurrence) (occs : list Occurrence) (b n : nat) : Prop := {
  ext_back : forall j, j < b ->
      back_ok files ign (shift_back j o0) (map (shift_back j) occs);
  ext_back_stop :
      ~ back_ok files ign (shift_back b o0) (map (shift_back b) occs);
  ext_seed : seed_len <= n;
  ext_fwd : forall j, seed_len <= j < n ->
      fwd_ok files ign (shift_back b o0) (map (shift_back b) occs) j;
  ext_fwd_stop :
      ~ fwd_ok files ign (shift_back b o0) (map (shift_back b) occs) n
}.

(** Two occurrences carry the same lines, as the comparison sees them,
    over [len] lines from their starts. *)
Definition agrees (files : list FileData) (ign : bool) (o0 oc : Occurrence)
    (len : nat) : Prop :=
  forall j, j < len ->
    nline files ign oc (start oc + j) = nline files ign o0 (start o0 + j).

(** A window of [len] lines fits in the file of the occurrence. *)
Definition fits (files : list FileData) (len : nat) (oc : Occurrence) : Prop :=
  file_index oc < List.length files /\ start oc + len <= size_at files oc.

Definition seed_key (files : list FileData) (min_lines : nat) (ign : bool)
    (oc : Occurrence) : string :=
  join_lines_norm (fd_lines (file_at files (file_index oc)))
    (start oc) (start oc + min_lines) ign.

(** The occurrences filed under the key [K], in the order of the scan. *)
Definition bucket (K : string) (ws : list (string * Occurrence))
  : list Occurrence :=
  map snd (filter (fun w => String.eqb K (fst w)) ws).

(** The scan order: by file index, then by start offset. *)
Definition occ_lt (a b : Occurrence) : Prop :=
  file_index a < file_index b
  \/ (file_index a = file_index b /\ start a < start b).

Definition window_norm (files : list FileData) (ign : bool) (oc : Occurrence)
    (len : nat) : list string :=
  map (nline files ign oc) (seq (start oc) len).

(** What is known of the block of one seed group. *)
Record group_facts (files : list FileData) (min_lines : nat)
    (ign : bool) (K : string) (occs : list Occurrence)
    (o0 : Occurrence) (b n : nat) : Prop := {
  gf_head : hd_error occs = Some o0;
  gf_block :
    group_block files min_lines ign (K, occs)
    = mkBlock
        (slice (fd_lines (file_at files (file_index o0)))
               (start o0 - b) (start o0 - b + n))
        (map (hit_of files n) (map (shift_back b) occs));
  gf_ext : extension files ign min_lines o0 occs b n;
  gf_fit : forall oc, In oc occs -> fits files min_lines oc;
  gf_seed : forall oc, In oc occs -> agrees files ign o0 oc min_lines
}.

(** The aggregate stored under a key, once any group has reached it. *)
Definition canonical_entry (files : list FileData) (min_lines : nat)
    (ign : bool) (order : list (string * list Occurrence))
    (K : string) (agg : Agg) : Prop :=
  exists entry,
    In entry order /\ 2 <= List.length (snd entry)
    /\ K = content_key ign (group_block files min_lines ign entry)
    /\ agg = merge_block (group_block files min_lines ign entry) empty_agg.

(** The comparator of [main], spelled out: more lines first, then more
    hits, then the smaller line sequence. *)
Definition block_precedes (a b : DuplicateBlock) : Prop :=
  List.length (b_lines b) < List.length (b_lines a)
  \/ (List.length (b_lines a) = List.length (b_lines b)
      /\ (List.length (b_hits b) < List.length (b_hits a)
          \/ (List.length (b_hits a) = List.length (b_hits b)
              /\ lines_lt (b_lines a) (b_lines b) = true))).

(** The block of a seed group, without any assumption on the lines. *)
Record group_shape (files : list FileData) (min_lines : nat)
    (ign : bool) (K : string) (occs : list Occurrence)
    (o0 : Occurrence) (b n : nat) : Prop := {
  gs_head : hd_error occs = Some o0;
  gs_block :
    group_block files min_lines ign (K, occs)
    = mkBlock
        (slice (fd_lines (file_at files (file_index o0)))
               (start o0 - b) (start o0 - b + n))
        (map (hit_of files n) (map (shift_back b) occs));
  gs_ext : extension files ign min_lines o0 occs b n;
  gs_fit : forall oc, In oc occs -> fits files min_lines oc
}.

Definition contributes (files : list FileData) (min_lines : nat)
    (ign : bool) (order : list (string * list Occurrence))
    (K : string) (entry : string * list Occurrence) : Prop :=
  In entry order /\ 2 <= List.length (snd entry)
  /\ content_key ign (group_block files min_lines ign entry) = K.

(** An aggregate keeps the lines of one contributing group, holds all
    hits of that group, and holds only hits of contributing groups. *)
Definition recorded (files : list FileData) (min_lines : nat)
    (ign : bool) (order : list (string * list Occurrence))
    (K : string) (agg : Agg) : Prop :=
  good_agg agg
  /\ (exists entry,
        contributes files min_lines ign order K entry
        /\ agg_lines agg = b_lines (group_block files min_lines ign entry)
        /\ incl (b_hits (group_block files min_lines ign entry))
                (agg_hits agg))
  /\ (forall h, In h (agg_hits agg) ->
        exists entry,
          contributes files min_lines ign order K entry
          /\ In h (b_hits (group_block files min_lines ign entry))).

(** The two files of the first scenario. *)
Definition scenario_A : list FileData :=
  [ mkFileData "file1" ["A"; "B"; "C"; "D"; "E"];
    mkFileData "file2" ["B"; "C"; "D"; "E"; "F"] ].

(** The files of the third scenario: the third lines differ in leading
    blanks only. *)
Definition scenario_C : list FileData :=
  [ mkFileData "file1" ["a"; "b"; "  x"; "c"];
    mkFileData "file2" ["a"; "b"; "x"; "c"] ].

(** Lexicographic order on line sequences, the lines compared as byte
    strings. *)
Inductive lex_le : list string -> list string -> Prop :=
| lex_le_nil l : lex_le [] l
| lex_le_lt x y l1 l2 : String.ltb x y = true -> lex_le (x :: l1) (y :: l2)
| lex_le_eq x l1 l2 : lex_le l1 l2 -> lex_le (x :: l1) (x :: l2).

(** The content tie-break: the first lines decide when they differ,
    otherwise the full sequences do. *)
Definition content_order (a b : list string) : Prop :=
  match a, b with
  | a0 :: _, b0 :: _ =>
      String.ltb a0 b0 = true \/ (a0 = b0 /\ lex_le a b)
  | _, _ => lex_le a b
  end.

(** Line count descending, then hit count descending, then content
    ascending. *)
Definition block_order (a b : DuplicateBlock) : Prop :=
  List.length (b_lines b) < List.length (b_lines a)
  \/ (List.length (b_lines a) = List.length (b_lines b)
      /\ (List.length (b_hits b) < List.length (b_hits a)
          \/ (List.length (b_hits a) = List.length (b_hits b)
              /\ content_order (b_lines a) (b_lines b)))).

(** Path ascending, then start line, then end line. *)
Definition hit_order (a b : Hit) : Prop :=
  String.ltb (h_path a) (h_path b) = true
  \/ (h_path a = h_path b
      /\ (start_line a < start_line b
          \/ (start_line a = start_line b /\ end_line a <= end_line b))).

(** A file set with a three-line and a two-line repeated region. *)
Definition scenario_sorted : list FileData :=
  [ mkFileData "a.txt" ["p"; "q"; "r"; "-"; "y"; "z"];
    mkFileData "b.txt" ["p"; "q"; "r"; "+"; "y"; "z"; "*"; "k"; "l"];
    mkFileData "c.txt" ["k"; "l"] ].

(** The loaded file a hit's path names. *)
Definition file_of (files : list FileData) (p : string) : option FileData :=
  find (fun f => String.eqb (fd_path f) p) files.

(** The line just before a hit's range, if the range does not start the
    file: 1-based line [start_line - 1]. *)
Definition line_before (files : list FileData) (h : Hit) : option string :=
  match file_of files (h_path h) with
  | None => None
  | Some f =>
      if Nat.leb 2 (start_line h)
      then nth_error (fd_lines f) (start_line h - 2)
      else None
  end.

(** The line just after a hit's range, if the range does not end the
    file: 1-based line [end_line + 1]. *)
Definition line_after (files : list FileData) (h : Hit) : option string :=
  match file_of files (h_path h) with
  | None => None
  | Some f => nth_error (fd_lines f) (end_line h)
  end.

(** All hits have a neighbouring line, and these lines are all equal
    under the comparison in force: the block could grow by that line. *)
Definition extends_with (neighbour : Hit -> option string) (ign : bool)
    (hits : list Hit) : Prop :=
  exists r, forall h, In h hits ->
    exists l, neighbour h = Some l /\ equal_line ign l r = true.

Definition neighbour_equals (neighbour : Hit -> option string) (ign : bool)
    (l : string) (h : Hit) : bool :=
  match neighbour h with
  | Some l' => equal_line ign l' l
  | None => false
  end.

Definition paths_sorted (files : list FileData) : Prop :=
  StronglySorted (fun f g => String.ltb (fd_path f) (fd_path g) = true) files.

(** Two files whose only windows of three lines differ in the last
    line. *)
Definition scenario_B : list FileData :=
  [ mkFileData "file1" ["A"; "B"; "C"];
    mkFileData "file2" ["A"; "B"; "D"] ].

(** A file name made of [a], a line feed and [b]. *)
Definition name_with_line_feed : string :=
  String "a" (String LF (String "b" EmptyString)).

(** The units of a glob suffix: a single star, a run of two or more
    stars, a question mark, any other character. *)
Inductive gtok : Type :=
| TStar
| TStarStar
| TQuestion
| TLit (c : ascii).

Equations? glob_tokens (s : string) : list gtok by wf (String.length s) lt :=
  glob_tokens EmptyString := [];
  glob_tokens (String c r) :=
    if Ascii.eqb c STAR then
      (if Nat.leb 2 (S (count_stars r)) then TStarStar else TStar)
      :: glob_tokens (skip_stars r)
    else if Ascii.eqb c QUESTION then TQuestion :: glob_tokens r
    else TLit c :: glob_tokens r.
Proof.
  all: simpl; try lia.
  assert (String.length (skip_stars r) <= String.length r); [|lia].
  clear. induction r as [|c r IH]; simpl; [lia|].
  destruct (Ascii.eqb c STAR); simpl; lia.
Qed.

(** [glob_accepts wide toks s]: the whole of [s] matches the units
    [toks], where a single star stands for a run of characters other
    than the separator, a question mark for one such character, a run of
    stars for a run of characters that [wide] admits, and any other
    character for itself. *)
Inductive glob_accepts (wide : ascii -> bool) : list gtok -> string -> Prop :=
| ga_nil : glob_accepts wide [] EmptyString
| ga_lit c toks s :
    glob_accepts wide toks s ->
    glob_accepts wide (TLit c :: toks) (String c s)
| ga_question c toks s :
    c <> SLASH -> glob_accepts wide toks s ->
    glob_accepts wide (TQuestion :: toks) (String c s)
| ga_star_end toks s :
    glob_accepts wide toks s -> glob_accepts wide (TStar :: toks) s
| ga_star_more c toks s :
    c <> SLASH -> glob_accepts wide (TStar :: toks) s ->
    glob_accepts wide (TStar :: toks) (String c s)
| ga_wide_end toks s :
    glob_accepts wide toks s -> glob_accepts wide (TStarStar :: toks) s
| ga_wide_more c toks s :
    wide c = true -> glob_accepts wide (TStarStar :: toks) s ->
    glob_accepts wide (TStarStar :: toks) (String c s).

(** As the specification words it: a run of stars matches any run of
    characters. *)
Definition any_char (c : ascii) : bool := true.

(** As the emitted [.] has it: any character but a line terminator. *)
Definition dot_char (c : ascii) : bool :=
  negb (Ascii.eqb c LF || Ascii.eqb c CR).

Definition emit (t : gtok) : string :=
  match t with
  | TStar => "[^/]*"
  | TStarStar => ".*"
  | TQuestion => "[^/]"
  | TLit c =>
      if is_escaped c then String BACKSLASH (String c EmptyString)
      else String c EmptyString
  end.

Fixpoint emit_all (toks : list gtok) : string :=
  match toks with
  | [] => EmptyString
  | t :: rest => String.append (emit t) (emit_all rest)
  end.

Definition item_of (t : gtok) : ritem :=
  match t with
  | TStar => Many NotSlash
  | TStarStar => Many AnyChar
  | TQuestion => One NotSlash
  | TLit c => One (Lit c)
  end.

(** A literal unit is never one of the two glob characters. *)
Definition plain_lit (t : gtok) : Prop :=
  match t with
  | TLit c => Ascii.eqb c STAR = false /\ Ascii.eqb c QUESTION = false
  | _ => True
  end.

(** No character of the path is a line feed or a carriage return. *)
Definition no_line_terminator (s : string) : Prop :=
  forall c, In c (list_ascii_of_string s) -> c <> LF /\ c <> CR.

(** A file system with two files that end their lines differently. *)
Definition two_files (p : string) : option string :=
  if String.eqb p "a.txt"
  then Some (String.append "x"
               (String LF (String.append "y" (String LF EmptyString))))
  else if String.eqb p "b.txt"
  then Some (String.append "x"
               (String CR (String LF (String.append "y"
                  (String CR (String LF "z"))))))
  else None.

(** ** Further utilities (main.cpp, lines 33-46 and 69-93) *)

(** [has_glob_chars]. *)
Fixpoint has_glob_chars (s : string) : bool :=
  match s with
  | EmptyString => false
  | String c r =>
      if (Ascii.eqb c STAR || Ascii.eqb c QUESTION)%bool then true
      else has_glob_chars r
  end.

(** The first loop of [lstrip_dots_slashes]: while the string starts
    with a dot and a slash, these two characters are erased. *)
Fixpoint lstrip_dot_slash (s : string) : string :=
  match s with
  | String c1 (String c2 r) =>
      if (Ascii.eqb c1 DOT && Ascii.eqb c2 SLASH)%bool
      then lstrip_dot_slash r else s
  | _ => s
  end.

(** Its second loop: while the string starts with a slash, the slash is
    erased. *)
Fixpoint lstrip_slashes (s : string) : string :=
  match s with
  | String c r => if Ascii.eqb c SLASH then lstrip_slashes r else s
  | EmptyString => EmptyString
  end.

Definition lstrip_dots_slashes (s : string) : string :=
  lstrip_slashes (lstrip_dot_slash s).

(** [s.rfind(t, 0) == 0]: the string [s] starts with [t]. *)
Fixpoint starts_with (t s : string) : bool :=
  match t, s with
  | EmptyString, _ => true
  | String a t', String b s' => Ascii.eqb a b && starts_with t' s'
  | String _ _, EmptyString => false
  end.

Definition DQUOTE : ascii := Ascii.ascii_of_nat 34.

(** One digit of the conversion [%02X]. *)
Definition hex_upper (n : nat) : ascii :=
  nth n (list_ascii_of_string "0123456789ABCDEF") "0"%char.

(** The [switch] of [yaml_escape]: what one character contributes. *)
Definition yaml_escape_char (c : ascii) : string :=
  if Ascii.eqb c BACKSLASH then String BACKSLASH (String BACKSLASH EmptyString)
  else if Ascii.eqb c DQUOTE then String BACKSLASH (String DQUOTE EmptyString)
  else if Ascii.eqb c LF then String BACKSLASH "n"
  else if Ascii.eqb c TAB then String BACKSLASH "t"
  else if Nat.ltb (nat_of_ascii c) 32 then
    String BACKSLASH
      (String "x"
         (String (hex_upper (nat_of_ascii c / 16))
            (String (hex_upper (nat_of_ascii c mod 16)) EmptyString)))
  else String c EmptyString.

Fixpoint yaml_escape_body (s : string) : string :=
  match s with
  | EmptyString => EmptyString
  | String c r => String.append (yaml_escape_char c) (yaml_escape_body r)
  end.

(** [yaml_escape]: the escaped characters between two double quotes. *)
Definition yaml_escape (s : string) : string :=
  String DQUOTE (String.append (yaml_escape_body s) (String DQUOTE EmptyString)).

(** ** Base directory and suffix of a pattern (main.cpp, lines 101-191) *)

(** [s.find_first_of("*?")], which is also the first loop of
    [compute_base_dir]: the index of the first glob character. *)
Fixpoint find_first_glob (s : string) : option nat :=
  match s with
  | EmptyString => None
  | String c r =>
      if (Ascii.eqb c STAR || Ascii.eqb c QUESTION)%bool then Some 0
      else option_map S (find_first_glob r)
  end.

(** [s.rfind(c, pos)]: the last index not above [pos] that holds [c]. *)
Fixpoint rfind (c : ascii) (s : string) (pos : nat) : option nat :=
  match s with
  | EmptyString => None
  | String x r =>
      match pos with
      | 0 => if Ascii.eqb x c then Some 0 else None
      | S pos' =>
          match rfind c r pos' with
          | Some j => Some (S j)
          | None => if Ascii.eqb x c then Some 0 else None
          end
      end
  end.

(** [s.substr(pos)], for [pos] within the string. *)
Definition substr_from (s : string) (pos : nat) : string :=
  substring pos (String.length s - pos) s.

(** [compute_base_dir]; the path it returns is modelled by the string it
    is built from. *)
Definition compute_base_dir (generic_pattern : string) : string :=
  let prefix :=
    match find_first_glob generic_pattern with
    | Some first =>
        match rfind SLASH generic_pattern first with
        | Some slash => substring 0 slash generic_pattern
        | None => "."
        end
    | None => generic_pattern
    end in
  if String.eqb prefix EmptyString then "." else prefix.

(** The suffix [compile_pattern] derives from the stripped pattern [p]
    and the stripped base.  When [p] is empty, [p.size() - 1] wraps
    around to [npos]; [rfind] finds nothing in an empty string at either
    position. *)
Definition pattern_suffix (p base_generic : string) : string :=
  let suffix :=
    if negb (String.eqb base_generic EmptyString) then
      if starts_with (String.append base_generic "/") p then
        substr_from p (String.length base_generic + 1)
      else if String.eqb p base_generic then EmptyString
      else
        let pos := find_first_glob p in
        let slash :=
          rfind SLASH p
            (match pos with
             | None => String.length p - 1
             | Some i => i
             end) in
        match slash with
        | Some sl =>
            if Nat.ltb (sl + 1) (String.length p)
            then substr_from p (sl + 1) else p
        | None => p
        end
    else p in
  if String.eqb suffix EmptyString then "**" else suffix.

(** [compile_pattern]: the base directory and the regular expression of
    the suffix.  [to_generic_string] stands for the conversion of a
    native path string to its generic form, which the standard library
    of the platform defines. *)
Definition compile_pattern (to_generic_string : string -> string)
    (pattern_raw : string) : string * string :=
  let p := lstrip_dots_slashes (to_generic_string pattern_raw) in
  let base := compute_base_dir p in
  let base_generic := lstrip_dots_slashes (to_generic_string base) in
  (base, to_regex_from_glob_suffix (pattern_suffix p base_generic)).

(** ** Expansion of the patterns (main.cpp, lines 193-233) *)

(** What the file system answers about a base path.  A directory lists
    the entries that [recursive_directory_iterator] yields, in the order
    in which it yields them.  [Unreadable] is a base for which a status
    query or the walk throws, as the walk of a base that exists and is
    neither a regular file nor a directory does. *)
Record dir_entry := mkEntry {
  e_regular : bool;      (* it->is_regular_file() *)
  e_rel : string;        (* to_generic_string(relPath) *)
  e_path : string        (* to_generic_string(it->path()) *)
}.

Inductive fs_status :=
| NotFound
| RegularFile
| Directory (entries : list dir_entry)
| Unreadable.

(** The character [c] occurs in [s]. *)
Definition has_char (c : ascii) (s : string) : bool :=
  existsb (Ascii.eqb c) (list_ascii_of_string s).

(** [path::filename]: what follows the last slash. *)
Fixpoint path_filename (s : string) : string :=
  match s with
  | EmptyString => EmptyString
  | String c r =>
      if Ascii.eqb c SLASH then path_filename r
      else if has_char SLASH r then path_filename r
      else s
  end.

(** [if (seen.insert(g).second) results.push_back(...)].  A path is
    carried as its generic string: [seen] records it under that string,
    [main] sorts by it and the hits name it. *)
Definition add_result (g : string) (st : list string * list string)
  : list string * list string :=
  if existsb (String.eqb g) (snd st) then st
  else (fst st ++ [g], g :: snd st).

(** The body of the loop over the directory entries. *)
Definition visit_entry (re : string) (st : list string * list string)
    (e : dir_entry) : list string * list string :=
  if negb (e_regular e) then st
  else if regex_match (e_rel e) re then add_result (e_path e) st
  else st.

(** The loop over the patterns; the state is [results] and [seen].
    [None] is a run that an exception of the iterator ends. *)
Fixpoint expand_loop (to_generic_string : string -> string)
    (probe : string -> fs_status) (patterns : list string)
    (st : list string * list string)
  : option (list string * list string) :=
  match patterns with
  | [] => Some st
  | pat :: rest =>
      let cp := compile_pattern to_generic_string pat in
      let base := if String.eqb (fst cp) EmptyString then "." else fst cp in
      match probe base with
      | NotFound => expand_loop to_generic_string probe rest st
      | RegularFile =>
          let rel := to_generic_string (path_filename base) in
          expand_loop to_generic_string probe rest
            (if regex_match rel (snd cp)
             then add_result (to_generic_string base) st
             else st)
      | Directory entries =>
          expand_loop to_generic_string probe rest
            (fold_left (visit_entry (snd cp)) entries st)
      | Unreadable => None
      end
  end.

Definition expand_globs (to_generic_string : string -> string)
    (probe : string -> fs_status) (patterns : list string)
  : option (list string) :=
  option_map fst (expand_loop to_generic_string probe patterns ([], [])).

(** The files a pattern selects. *)
Definition selects (to_generic_string : string -> string)
    (probe : string -> fs_status) (pat g : string) : Prop :=
  let cp := compile_pattern to_generic_string pat in
  let base := if String.eqb (fst cp) EmptyString then "." else fst cp in
  match probe base with
  | RegularFile =>
      regex_match (to_generic_string (path_filename base)) (snd cp) = true
      /\ g = to_generic_string base
  | Directory entries =>
      exists e, In e entries /\ e_regular e = true
                /\ regex_match (e_rel e) (snd cp) = true /\ e_path e = g
  | _ => False
  end.

(** ** YAML emission (main.cpp, lines 442-475) *)

Definition bytes_of_lines (lines : list string) : nat :=
  match lines with
  | [] => 0
  | _ :: _ => fold_left (fun n s => n + (String.length s + 1)) lines 0
  end.

(** What [print_yaml] writes for one hit. *)
Definition print_hit (h : Hit) : string :=
  String.append "      - file: "
    (String.append (yaml_escape (h_path h))
       (String.append NL
          (String.append "        start_line: "
             (String.append (dec (start_line h))
                (String.append NL
                   (String.append "        end_line: "
                      (String.append (dec (end_line h)) NL))))))).

(** What it writes for one line of the content. *)
Definition print_line (line : string) : string :=
  String.append "      " (String.append line NL).

(** What it writes for one block.  The comparator on hits is a strict
    total order, so [std::sort] has one possible result, which
    [sort_by] computes. *)
Definition print_block (b : DuplicateBlock) : string :=
  String.append "  - lines: "
    (String.append (dec (List.length (b_lines b)))
       (String.append NL
          (String.append "    bytes: "
             (String.append (dec (bytes_of_lines (b_lines b)))
                (String.append NL
                   (String.append "    occurrences: "
                      (String.append (dec (List.length (b_hits b)))
                         (String.append NL
                            (String.append "    hits:"
                               (String.append NL
                                  (String.append
                                     (String.concat EmptyString
                                        (map print_hit
                                           (sort_by hit_before (b_hits b))))
                                     (String.append "    content: |"
                                        (String.append NL
                                           (String.concat EmptyString
                                              (map print_line (b_lines b)))
    ))))))))))))).

Definition print_yaml (blocks : list DuplicateBlock) : string :=
  String.append "blocks:"
    (String.append NL (String.concat EmptyString (map print_block blocks))).

(** ** The command line and the whole run (main.cpp, lines 487-557) *)

(** [isspace] in the C locale. *)
Definition is_space (c : ascii) : bool :=
  existsb (Ascii.eqb c)
    [ SPACE; TAB; LF; Ascii.ascii_of_nat 11; Ascii.ascii_of_nat 12; CR ].

Fixpoint skip_spaces (s : string) : string :=
  match s with
  | String c r => if is_space c then skip_spaces r else s
  | EmptyString => EmptyString
  end.

Definition digit_value (c : ascii) : option N :=
  let n := N_of_ascii c in
  if (N.leb 48 n && N.leb n 57)%bool then Some (n - 48)%N else None.

(** The value of the decimal digits at the head of [s], continuing from
    [acc]. *)
Fixpoint read_digits (s : string) (acc : N) : N :=
  match s with
  | String c r =>
      match digit_value c with
      | Some d => read_digits r (10 * acc + d)%N
      | None => acc
      end
  | EmptyString => acc
  end.

(** [LONG_MAX] where [long] has 64 bits. *)
Definition LONG_MAX : N := 9223372036854775807%N.

(** [std::stol] in base ten, as [strtol] reads: blanks, an optional
    sign, digits; what follows the digits is ignored.  [None] is an
    exception: [invalid_argument] when there is no digit,
    [out_of_range] when the value does not fit a [long]. *)
Definition stol (s : string) : option Z :=
  let s1 := skip_spaces s in
  let signed :=
    match s1 with
    | String c r =>
        if Ascii.eqb c "-" then (true, r)
        else if Ascii.eqb c "+" then (false, r)
        else (false, s1)
    | EmptyString => (false, s1)
    end in
  match snd signed with
  | EmptyString => None
  | String c _ =>
      match digit_value c with
      | None => None
      | Some _ =>
          let v := read_digits (snd signed) 0 in
          if fst signed
          then if N.leb v (LONG_MAX + 1) then Some (- Z.of_N v)%Z else None
          else if N.leb v LONG_MAX then Some (Z.of_N v) else None
      end
  end.

(** How the argument loop of [main] ends. *)
Inductive parsed : Type :=
| ArgsUsage            (* the usage text, exit status 2 *)
| ArgsMissingValue     (* --min-lines requires a value, exit status 2 *)
| ArgsInvalidValue     (* Invalid --min-lines value, exit status 2 *)
| Args (min_lines : nat) (ignore_indent debug : bool)
       (patterns : list string).

(** The loop over [argv[1]] ... [argv[argc - 1]] and the test after
    it. *)
Fixpoint parse_args (args : list string) (min_lines : nat)
    (ignore_indent debug : bool) (patterns : list string) : parsed :=
  match args with
  | [] =>
      if (Nat.eqb min_lines 0
          || match patterns with [] => true | _ :: _ => false end)%bool
      then ArgsUsage
      else Args min_lines ignore_indent debug patterns
  | arg :: rest =>
      if String.eqb arg "--min-lines" then
        match rest with
        | [] => ArgsMissingValue
        | value :: rest' =>
            match stol value with
            | None => ArgsInvalidValue
            | Some v =>
                if Z.ltb v 1 then ArgsInvalidValue
                else parse_args rest' (Z.to_nat v) ignore_indent debug
                       patterns
            end
        end
      else if String.eqb arg "--debug" then
        parse_args rest min_lines ignore_indent true patterns
      else if String.eqb arg "--ignore-indentation" then
        parse_args rest min_lines true debug patterns
      else
        parse_args rest min_lines ignore_indent debug (patterns ++ [arg])
  end.

(** [args] is [argv] without the program name, so [argc] is its length
    plus one. *)
Definition main_args (args : list string) : parsed :=
  if Nat.ltb (List.length args + 1) 3 then ArgsUsage
  else parse_args args 0 false false [].

(** The comparator [main] sorts the files with. *)
Definition path_before (a b : string) : bool := String.ltb a b.

(** How a run ends. *)
Inductive run_result : Type :=
| ExitUsage
| ExitMissingValue
| ExitInvalidValue
| Terminated                 (* an exception leaves [main] *)
| Printed (out : string).    (* standard output, exit status 0 *)

(** [main]: [fs] gives the bytes of the file at a path, if it can be
    opened. *)
Definition main (to_generic_string : string -> string)
    (probe : string -> fs_status) (fs : string -> option string)
    (args : list string) (r : run_result) : Prop :=
  match main_args args with
  | ArgsUsage => r = ExitUsage
  | ArgsMissingValue => r = ExitMissingValue
  | ArgsInvalidValue => r = ExitInvalidValue
  | Args min_lines ignore_indent _ patterns =>
      match expand_globs to_generic_string probe patterns with
      | None => r = Terminated
      | Some results =>
          exists files blocks sorted,
            std_sorted path_before results files
            /\ find_repeated_blocks fs files min_lines ignore_indent blocks
            /\ std_sorted block_before blocks sorted
            /\ r = Printed (print_yaml sorted)
      end
  end.

(** ** Notions used to state the further properties *)

(** [k] copies of [u] in a row. *)
Fixpoint repeat_string (u : string) (k : nat) : string :=
  match k with
  | 0 => EmptyString
  | S k' => String.append u (repeat_string u k')
  end.

(** The value of an upper-case hexadecimal digit. *)
Definition hex_value (c : ascii) : option nat :=
  let n := nat_of_ascii c in
  if (Nat.leb 48 n && Nat.leb n 57)%bool then Some (n - 48)
  else if (Nat.leb 65 n && Nat.leb n 70)%bool then Some (n - 55)
  else None.

(** Reads one character back from the head of an escaped body: the
    character and what follows its escape sequence.  A bare double quote
    is the end of the scalar and reads as nothing. *)
Definition read_escaped (s : string) : option (ascii * string) :=
  match s with
  | EmptyString => None
  | String c r =>
      if Ascii.eqb c BACKSLASH then
        match r with
        | EmptyString => None
        | String e r' =>
            if Ascii.eqb e BACKSLASH then Some (BACKSLASH, r')
            else if Ascii.eqb e DQUOTE then Some (DQUOTE, r')
            else if Ascii.eqb e "n" then Some (LF, r')
            else if Ascii.eqb e "t" then Some (TAB, r')
            else if Ascii.eqb e "x" then
              match r' with
              | String h (String l r'') =>
                  match hex_value h, hex_value l with
                  | Some a, Some b => Some (ascii_of_nat (16 * a + b), r'')
                  | _, _ => None
                  end
              | _ => None
              end
            else None
        end
      else if Ascii.eqb c DQUOTE then None
      else Some (c, r)
  end.

(** No character of the string is a control character. *)
Definition no_control (s : string) : bool :=
  forallb (fun c => Nat.leb 32 (nat_of_ascii c)) (list_ascii_of_string s).

(** [seen] and [results] hold the same strings, each once. *)
Definition expand_inv (st : list string * list string) : Prop :=
  NoDup (fst st) /\ forall g, In g (snd st) <-> In g (fst st).

(** Two answers of the file system that differ at most in the order in
    which a directory lists its entries. *)
Definition same_listing (a b : fs_status) : Prop :=
  match a, b with
  | NotFound, NotFound => True
  | RegularFile, RegularFile => True
  | Directory e1, Directory e2 => Permutation e1 e2
  | Unreadable, Unreadable => True
  | _, _ => False
  end.

(** The base [expand_globs] looks up for a pattern. *)
Definition pattern_base (to_generic_string : string -> string)
    (pat : string) : string :=
  let cp := compile_pattern to_generic_string pat in
  if String.eqb (fst cp) EmptyString then "." else fst cp.

(** One admissible run of [main]: the hash maps are traversed in
    insertion order and the sorts are insertion sorts. *)
Definition main_fn (to_generic_string : string -> string)
    (probe : string -> fs_status) (fs : string -> option string)
    (args : list string) : run_result :=
  match main_args args with
  | ArgsUsage => ExitUsage
  | ArgsMissingValue => ExitMissingValue
  | ArgsInvalidValue => ExitInvalidValue
  | Args min_lines ignore_indent _ patterns =>
      match expand_globs to_generic_string probe patterns with
      | None => Terminated
      | Some results =>
          Printed
            (print_yaml
               (sort_by block_before
                  (find_repeated_blocks_fn
                     (load_files fs (sort_by path_before results))
                     min_lines ignore_indent)))
      end
  end.

(** A file system for the examples: the directory [src] holds two
    files with a common region and a subdirectory with a third file. *)
Definition example_probe (base : string) : fs_status :=
  if String.eqb base "src" then
    Directory
      [ mkEntry true "b.c" "src/b.c";
        mkEntry false "sub" "src/sub";
        mkEntry true "sub/c.h" "src/sub/c.h";
        mkEntry true "a.c" "src/a.c" ]
  else if String.eqb base "src/a.c" then RegularFile
  else NotFound.

Definition example_fs (p : string) : option string :=
  if String.eqb p "src/a.c"
  then Some (String.append "x"
               (String LF (String.append "y"
                  (String LF (String.append "z" (String LF EmptyString))))))
  else if String.eqb p "src/b.c"
  then Some (String.append "w"
               (String CR (String LF (String.append "x"
                  (String CR (String LF (String.append "y"
                     (String CR (String LF "q")))))))))
  else None.

(** The hit [h] lies in the file of the occurrence [oc] and its range
    holds the [len] lines that start at [oc]. *)
Definition covers (files : list FileData) (len : nat) (h : Hit)
    (oc : Occurrence) : Prop :=
  h_path h = fd_path (file_at files (file_index oc))
  /\ start_line h <= start oc + 1
  /\ start oc + len <= end_line h.

(** The text with a carriage return put before every line feed. *)
Fixpoint to_crlf (s : string) : string :=
  match s with
  | EmptyString => EmptyString
  | String c r =>
      if Ascii.eqb c LF then String CR (String LF (to_crlf r))
      else String c (to_crlf r)
  end.

(** The three bytes of the UTF-8 byte order mark. *)
Definition UTF8_BOM : string :=
  String (Ascii.ascii_of_nat 239)
    (String (Ascii.ascii_of_nat 187)
       (String (Ascii.ascii_of_nat 191) EmptyString)).

(** The number of occurrences of [c] in [s]. *)
Fixpoint count_char (c : ascii) (s : string) : nat :=
  match s with
  | EmptyString => 0
  | String x r => (if Ascii.eqb x c then 1 else 0) + count_char c r
  end.

(** The number of separators among the units of a suffix. *)
Fixpoint token_slashes (toks : list gtok) : nat :=
  match toks with
  | [] => 0
  | TLit c :: rest => (if Ascii.eqb c SLASH then 1 else 0) + token_slashes rest
  | _ :: rest => token_slashes rest
  end.

(** The suffix holds two stars in a row. *)
Fixpoint has_double_star (s : string) : bool :=
  match s with
  | String a r =>
      match r with
      | String b _ =>
          (Ascii.eqb a STAR && Ascii.eqb b STAR) || has_double_star r
      | EmptyString => false
      end
  | EmptyString => false
  end.

(** A line of text and what follows it. *)
Definition text_line (l rest : string) : string :=
  String.append l (String LF rest).

(** The string does not start with a decimal digit. *)
Definition no_digit_ahead (s : string) : Prop :=
  match s with
  | EmptyString => True
  | String c _ => digit_value c = None
  end.

(** A file with the indentation removed from every line. *)
Definition strip_file (f : FileData) : FileData :=
  mkFileData (fd_path f) (map strip_indent (fd_lines f)).

(** A block with the indentation removed from every line of its
    content. *)
Definition strip_block (b : DuplicateBlock) : DuplicateBlock :=
  mkBlock (map strip_indent (b_lines b)) (b_hits b).

Definition strip_agg (a : Agg) : Agg :=
  mkAgg (map strip_indent (agg_lines a)) (agg_hit_keys a) (agg_hits a).

Definition strip_entry (e : string * Agg) : string * Agg :=
  (fst e, strip_agg (snd e)).

(** A directory that holds one regular file, [file1].  The walk of [.]
    yields the file as [./file1], at the relative path [file1]; the
    pattern [file1] names it directly. *)
Definition one_file_probe (base : string) : fs_status :=
  if String.eqb base "." then Directory [mkEntry true "file1" "./file1"]
  else if String.eqb base "file1" then RegularFile
  else NotFound.

(** The five lines of that file, which both spellings of its path
    open. *)
Definition one_file_fs (p : string) : option string :=
  if (String.eqb p "./file1" || String.eqb p "file1")%bool
  then Some (String.append "A" (String LF (String.append "B" (String LF
               (String.append "C" (String LF (String.append "D" (String LF
                  (String.append "E" (String LF EmptyString))))))))))
  else None.

(** * Properties *)

(** ** Strings and line feeds *)

Lemma count_lf_append a b :
  count_lf (String.append a b) = count_lf a + count_lf b.
Proof.
  induction a as [|c a IH]; simpl; [reflexivity|]. rewrite IH. lia.
Qed.

Lemma no_lf_cons c s : no_lf (String c s) -> c <> LF /\ no_lf s.
Proof.
  unfold no_lf. simpl. destruct (Ascii.eqb_spec c LF); [discriminate|].
  intros H. split; [assumption|exact H].
Qed.

Lemma split_at_lf a b x y :
  no_lf a -> no_lf b ->
  String.append a (String LF x) = String.append b (String LF y) ->
  a = b /\ x = y.
Proof.
  revert b. induction a as [|c a IH]; intros [|d b] Ha Hb H; simpl in H.
  - inversion H. split; reflexivity.
  - inversion H; subst d. apply no_lf_cons in Hb as [Hb _]. congruence.
  - inversion H; subst c. apply no_lf_cons in Ha as [Ha _]. congruence.
  - inversion H; subst d. apply no_lf_cons in Ha as [_ Ha].
    apply no_lf_cons in Hb as [_ Hb].
    destruct (IH b Ha Hb H2) as [-> ->]. split; reflexivity.
Qed.

Lemma concat_cons2 x y l :
  String.concat NL (x :: y :: l)
  = String.append x (String LF (String.concat NL (y :: l))).
Proof. reflexivity. Qed.

Lemma count_lf_concat l :
  Forall no_lf l -> count_lf (String.concat NL l) = List.length l - 1.
Proof.
  induction l as [|x l IH]; intros H; [reflexivity|].
  inversion H as [|? ? Hx Hl]; subst.
  destruct l as [|y l]; [simpl; exact Hx|].
  rewrite concat_cons2, count_lf_append. cbn [count_lf].
  rewrite (IH Hl), Hx. rewrite Ascii.eqb_refl. simpl. lia.
Qed.

(** Joining is injective on non-empty sequences of lines. *)
Lemma concat_nl_inj l1 l2 :
  Forall no_lf l1 -> Forall no_lf l2 -> l1 <> [] -> l2 <> [] ->
  String.concat NL l1 = String.concat NL l2 -> l1 = l2.
Proof.
  revert l2. induction l1 as [|x l1 IH]; intros l2 H1 H2 N1 N2 E;
    [congruence|].
  destruct l2 as [|y l2]; [congruence|].
  assert (L : List.length (x :: l1) - 1 = List.length (y :: l2) - 1).
  { rewrite <- !count_lf_concat by assumption. now rewrite E. }
  inversion H1 as [|? ? Hx Hl1]; inversion H2 as [|? ? Hy Hl2]; subst.
  destruct l1 as [|x' l1], l2 as [|y' l2]; simpl in L; try lia.
  - simpl in E. now subst.
  - rewrite !concat_cons2 in E.
    destruct (split_at_lf _ _ _ _ Hx Hy E) as [-> E'].
    f_equal. apply IH; try assumption; discriminate.
Qed.

Lemma strip_indent_no_lf s : no_lf s -> no_lf (strip_indent s).
Proof.
  induction s as [|c s IH]; intros H; [exact H|]. simpl.
  destruct (Ascii.eqb c SPACE || Ascii.eqb c TAB)%bool; [|exact H].
  apply IH. now apply no_lf_cons in H.
Qed.

Lemma norm_line_no_lf ign s : no_lf s -> no_lf (norm_line ign s).
Proof. destruct ign; [apply strip_indent_no_lf|trivial]. Qed.

Lemma rstrip_cr_no_lf s : no_lf s -> no_lf (rstrip_cr s).
Proof.
  induction s as [|c s IH]; intros H; [exact H|].
  destruct (no_lf_cons _ _ H) as [Hc Hs]. simpl.
  destruct s as [|d s].
  - destruct (Ascii.eqb c CR); [reflexivity|exact H].
  - unfold no_lf in *. cbn [count_lf] in *.
    destruct (Ascii.eqb_spec c LF); [contradiction|]. simpl.
    apply IH. exact Hs.
Qed.

Lemma strip_utf8_bom_no_lf s : no_lf s -> no_lf (strip_utf8_bom s).
Proof.
  intros H. unfold strip_utf8_bom.
  destruct s as [|a [|b [|c s]]]; try exact H.
  destruct (_ && _ && _)%bool; [|exact H].
  now apply no_lf_cons in H as [_ H]; apply no_lf_cons in H as [_ H];
    apply no_lf_cons in H as [_ H].
Qed.

Lemma getlines_no_lf s : Forall no_lf (getlines s).
Proof.
  induction s as [|c s IH]; simpl; [constructor|].
  destruct (Ascii.eqb_spec c LF).
  - constructor; [reflexivity|exact IH].
  - destruct (getlines s) as [|l ls].
    + constructor; [|constructor]. unfold no_lf. simpl.
      destruct (Ascii.eqb_spec c LF); [contradiction|reflexivity].
    + inversion IH; subst. constructor; [|assumption].
      unfold no_lf in *. simpl.
      destruct (Ascii.eqb_spec c LF); [contradiction|assumption].
Qed.

(** Every file the loader produces is well formed. *)
Lemma read_lines_normalized_no_lf content :
  Forall no_lf (read_lines_normalized content).
Proof.
  destruct content as [raw|]; [|constructor]. unfold read_lines_normalized.
  assert (H : Forall no_lf (map rstrip_cr (getlines raw))).
  { apply Forall_map. eapply Forall_impl; [|apply getlines_no_lf].
    intros a. apply rstrip_cr_no_lf. }
  destruct (map rstrip_cr (getlines raw)); [constructor|].
  inversion H; subst. constructor; [|assumption].
  now apply strip_utf8_bom_no_lf.
Qed.

Lemma load_files_wf fs files_paths : lines_wf (load_files fs files_paths).
Proof.
  unfold lines_wf, load_files. apply Forall_map, Forall_forall.
  intros p _. apply read_lines_normalized_no_lf.
Qed.

(** ** Hit keys *)

Lemma string_of_uint_no_lf d : no_lf (NilEmpty.string_of_uint d).
Proof. induction d; simpl; try reflexivity; exact IHd. Qed.

Lemma dec_no_lf n : no_lf (dec n).
Proof. apply string_of_uint_no_lf. Qed.

Lemma dec_inj n m : dec n = dec m -> n = m.
Proof.
  unfold dec. intros H. apply Unsigned.to_uint_inj.
  pose proof (NilEmpty.usu (Nat.to_uint n)) as Hn.
  pose proof (NilEmpty.usu (Nat.to_uint m)) as Hm.
  rewrite H in Hn. congruence.
Qed.

Lemma hit_key_tail_inj p1 p2 s1 s2 e1 e2 :
  no_lf s1 -> no_lf s2 -> no_lf e1 -> no_lf e2 ->
  String.append p1 (String LF (String.append s1 (String LF e1)))
  = String.append p2 (String LF (String.append s2 (String LF e2))) ->
  p1 = p2 /\ s1 = s2 /\ e1 = e2.
Proof.
  intros Hs1 Hs2 He1 He2.
  revert p2. induction p1 as [|c p1 IH]; intros [|d p2] H; simpl in H.
  - inversion H as [H']. destruct (split_at_lf _ _ _ _ Hs1 Hs2 H') as [-> ->].
    repeat split.
  - inversion H as [[Hd H']]. apply (f_equal count_lf) in H'.
    rewrite !count_lf_append in H'. cbn [count_lf] in H'.
    rewrite !count_lf_append in H'. cbn [count_lf] in H'.
    rewrite Ascii.eqb_refl in H'. unfold no_lf in *. lia.
  - inversion H as [[Hd H']]. apply (f_equal count_lf) in H'.
    rewrite !count_lf_append in H'. cbn [count_lf] in H'.
    rewrite !count_lf_append in H'. cbn [count_lf] in H'.
    rewrite Ascii.eqb_refl in H'. unfold no_lf in *. lia.
  - inversion H as [[Hd H']]. destruct (IH p2 H') as (-> & -> & ->).
    repeat split.
Qed.

Lemma hit_key_inj h1 h2 : hit_key h1 = hit_key h2 -> h1 = h2.
Proof.
  destruct h1 as [p1 s1 e1], h2 as [p2 s2 e2]. unfold hit_key. simpl.
  intros H. apply hit_key_tail_inj in H; try apply dec_no_lf.
  destruct H as (-> & Hs & He).
  apply dec_inj in Hs. apply dec_inj in He. now subst.
Qed.

(** ** The association-list model of [std::unordered_map] *)

Section UMap.
Context {V : Type}.
Implicit Types (m : list (string * V)) (k : string).

Lemma umap_update_In k d f m K v :
  In (K, v) (umap_update k d f m) ->
  In (K, v) m
  \/ (K = k /\ ((umap_find k m = None /\ v = f d)
                \/ exists v0, In (k, v0) m /\ v = f v0)).
Proof.
  induction m as [|[k' v'] m IH]; simpl.
  - intros [H|[]]. inversion H; subst. right. split; [reflexivity|].
    left. split; reflexivity.
  - destruct (String.eqb_spec k k') as [->|Hne]; simpl.
    + intros [H|H].
      * inversion H; subst. right. split; [reflexivity|]. right.
        exists v'. split; [left; reflexivity|reflexivity].
      * left. right. exact H.
    + intros [H|H]; [left; left; exact H|].
      destruct (IH H) as [H'|(-> & [[Hf ->]|(v0 & Hin & ->)])].
      * left. right. exact H'.
      * right. split; [reflexivity|]. left. split; [exact Hf|reflexivity].
      * right. split; [reflexivity|]. right. exists v0.
        split; [right; exact Hin|reflexivity].
Qed.

Lemma umap_update_keys k d f m :
  map fst (umap_update k d f m)
  = if existsb (String.eqb k) (map fst m) then map fst m
    else map fst m ++ [k].
Proof.
  induction m as [|[k' v'] m IH]; simpl; [reflexivity|].
  destruct (String.eqb_spec k k') as [->|Hne]; simpl; [reflexivity|].
  rewrite IH. destruct (existsb (String.eqb k) (map fst m)); reflexivity.
Qed.

Lemma existsb_eqb_In k (l : list string) :
  existsb (String.eqb k) l = true <-> In k l.
Proof.
  rewrite existsb_exists. split.
  - intros (x & Hin & Hx). apply String.eqb_eq in Hx. now subst.
  - intros H. exists k. split; [exact H|apply String.eqb_refl].
Qed.

Lemma umap_update_NoDup k d f m :
  NoDup (map fst m) -> NoDup (map fst (umap_update k d f m)).
Proof.
  intros H. rewrite umap_update_keys.
  destruct (existsb (String.eqb k) (map fst m)) eqn:E; [exact H|].
  apply NoDup_app; [exact H|repeat constructor; intros []|].
  intros x Hx [<-|[]].
  apply existsb_eqb_In in Hx. congruence.
Qed.

Lemma umap_find_Some k m v :
  umap_find k m = Some v -> In (k, v) m.
Proof.
  induction m as [|[k' v'] m IH]; simpl; [discriminate|].
  destruct (String.eqb_spec k k') as [->|Hne].
  - intros H. inversion H; subst. left. reflexivity.
  - intros H. right. apply IH, H.
Qed.

Lemma umap_find_In k m v :
  NoDup (map fst m) -> In (k, v) m -> umap_find k m = Some v.
Proof.
  induction m as [|[k' v'] m IH]; simpl; [intros _ []|].
  intros Hnd [H|H].
  - inversion H; subst. now rewrite String.eqb_refl.
  - inversion Hnd as [|? ? Hni Hnd']; subst.
    destruct (String.eqb_spec k k') as [->|Hne]; [|now apply IH].
    exfalso. apply Hni. change k' with (fst (k', v)). now apply in_map.
Qed.

Lemma umap_find_None k m :
  umap_find k m = None <-> ~ In k (map fst m).
Proof.
  induction m as [|[k' v'] m IH]; simpl; [tauto|].
  destruct (String.eqb_spec k k') as [->|Hne].
  - split; [discriminate|]. intros H. exfalso. apply H. now left.
  - rewrite IH. split; [intros H [E|E]; [congruence|tauto]|tauto].
Qed.

Lemma umap_find_update k d f m k' :
  umap_find k' (umap_update k d f m)
  = if String.eqb k' k
    then Some (f (match umap_find k m with Some v => v | None => d end))
    else umap_find k' m.
Proof.
  induction m as [|[k0 v0] m IH]; simpl.
  - destruct (String.eqb k' k); reflexivity.
  - destruct (String.eqb_spec k k0) as [->|Hne]; simpl.
    + destruct (String.eqb_spec k' k0); reflexivity.
    + rewrite IH. destruct (String.eqb_spec k' k0) as [->|Hne'].
      * destruct (String.eqb_spec k0 k); [congruence|reflexivity].
      * reflexivity.
Qed.
End UMap.

(** ** Merging hits into an aggregate *)

Lemma good_empty_agg : good_agg empty_agg.
Proof.
  split; [constructor|]. intros k. simpl. split; [intros []|].
  intros (h & [] & _).
Qed.

Lemma add_hit_lines agg h : agg_lines (add_hit agg h) = agg_lines agg.
Proof.
  unfold add_hit. destruct (existsb _ _); reflexivity.
Qed.

Lemma add_hit_In agg h x :
  good_agg agg ->
  In x (agg_hits (add_hit agg h)) <-> In x (agg_hits agg) \/ x = h.
Proof.
  intros [_ Hk]. unfold add_hit.
  destruct (existsb _ _) eqn:E; simpl.
  - apply existsb_eqb_In, Hk in E. destruct E as (h' & Hin & Hkey).
    apply hit_key_inj in Hkey. subst h'.
    split; [tauto|]. intros [H| ->]; assumption.
  - rewrite in_app_iff. simpl. split; [intros [H|[H|[]]]|intros [H|H]];
      auto.
Qed.

Lemma add_hit_good agg h : good_agg agg -> good_agg (add_hit agg h).
Proof.
  intros G. pose proof G as [Hnd Hk]. unfold add_hit.
  destruct (existsb _ _) eqn:E; [exact G|]. split; simpl.
  - apply NoDup_app; [exact Hnd|repeat constructor; intros []|].
    intros x Hx [<-|[]].
    assert (In (hit_key h) (agg_hit_keys agg)) as Hin
        by (apply Hk; eauto).
    apply existsb_eqb_In in Hin. congruence.
  - intros k. split.
    + intros [<-|Hin].
      * exists h. split; [apply in_app_iff; right; left|]; reflexivity.
      * apply Hk in Hin as (h' & Hin & Hkey). exists h'.
        split; [apply in_app_iff; left|]; assumption.
    + intros (h' & Hin & Hkey). apply in_app_iff in Hin as [Hin|[<-|[]]].
      * right. apply Hk. eauto.
      * left. exact Hkey.
Qed.

Lemma add_hit_known agg h :
  good_agg agg -> In h (agg_hits agg) -> add_hit agg h = agg.
Proof.
  intros [_ Hk] Hin. unfold add_hit.
  assert (In (hit_key h) (agg_hit_keys agg)) as H by (apply Hk; eauto).
  apply existsb_eqb_In in H. now rewrite H.
Qed.

Lemma fold_add_hit_lines hs agg :
  agg_lines (fold_left add_hit hs agg) = agg_lines agg.
Proof.
  revert agg. induction hs as [|h hs IH]; intros agg; [reflexivity|].
  simpl. now rewrite IH, add_hit_lines.
Qed.

Lemma fold_add_hit_good hs agg :
  good_agg agg -> good_agg (fold_left add_hit hs agg).
Proof.
  revert agg. induction hs as [|h hs IH]; intros agg G; [exact G|].
  simpl. apply IH, add_hit_good, G.
Qed.

Lemma fold_add_hit_In hs agg x :
  good_agg agg ->
  In x (agg_hits (fold_left add_hit hs agg))
  <-> In x (agg_hits agg) \/ In x hs.
Proof.
  revert agg. induction hs as [|h hs IH]; intros agg G; simpl; [tauto|].
  rewrite IH by (apply add_hit_good, G). rewrite add_hit_In by exact G.
  intuition congruence.
Qed.

Lemma fold_add_hit_known hs agg :
  good_agg agg -> incl hs (agg_hits agg) -> fold_left add_hit hs agg = agg.
Proof.
  intros G. induction hs as [|h hs IH]; intros Hi; [reflexivity|].
  simpl. rewrite add_hit_known; [apply IH|exact G|].
  - intros x Hx. apply Hi. now right.
  - apply Hi. now left.
Qed.

Lemma first_lines_good block agg : good_agg agg -> good_agg (first_lines block agg).
Proof. unfold first_lines. destruct (agg_lines agg); trivial. Qed.

Lemma first_lines_hits block agg :
  agg_hits (first_lines block agg) = agg_hits agg.
Proof. unfold first_lines. destruct (agg_lines agg); reflexivity. Qed.

Lemma merge_block_eq block agg :
  merge_block block agg
  = fold_left add_hit (b_hits block) (first_lines block agg).
Proof. reflexivity. Qed.

Lemma merge_block_good block agg :
  good_agg agg -> good_agg (merge_block block agg).
Proof.
  intros G. rewrite merge_block_eq. now apply fold_add_hit_good, first_lines_good.
Qed.

Lemma merge_block_In block agg x :
  good_agg agg ->
  In x (agg_hits (merge_block block agg))
  <-> In x (agg_hits agg) \/ In x (b_hits block).
Proof.
  intros G. rewrite merge_block_eq, fold_add_hit_In
    by now apply first_lines_good.
  now rewrite first_lines_hits.
Qed.

Lemma merge_block_lines block agg :
  agg_lines (merge_block block agg)
  = match agg_lines agg with [] => b_lines block | _ :: _ => agg_lines agg end.
Proof.
  rewrite merge_block_eq, fold_add_hit_lines. unfold first_lines.
  destruct (agg_lines agg) eqn:E; [reflexivity|exact E].
Qed.

(** Merging the same block a second time changes nothing. *)
Lemma merge_block_again block :
  b_lines block <> [] ->
  merge_block block (merge_block block empty_agg)
  = merge_block block empty_agg.
Proof.
  intros Hne. pose proof (merge_block_good block _ good_empty_agg) as G.
  rewrite (merge_block_eq block (merge_block _ _)).
  assert (first_lines block (merge_block block empty_agg)
          = merge_block block empty_agg) as ->.
  { unfold first_lines. rewrite merge_block_lines. simpl.
    destruct (b_lines block); [congruence|reflexivity]. }
  apply fold_add_hit_known; [exact G|].
  intros x Hx. apply merge_block_In; [apply good_empty_agg|now right].
Qed.

(** ** Invariants of [by_content] *)

Section ByContent.
Variables (files : list FileData) (min_lines : nat) (ignore_indent : bool).
Variable P : string -> Agg -> Prop.
Variable order : list (string * list Occurrence).

Hypothesis step :
  forall entry agg0,
    In entry order -> 2 <= List.length (snd entry) ->
    let block := group_block files min_lines ignore_indent entry in
    agg0 = empty_agg \/ P (content_key ignore_indent block) agg0 ->
    P (content_key ignore_indent block) (merge_block block agg0).

Lemma by_content_invariant K agg :
  In (K, agg) (by_content_of files min_lines ignore_indent order) ->
  P K agg.
Proof.
  unfold by_content_of.
  assert (Hgen : forall l m,
             incl l order ->
             (forall K agg, In (K, agg) m -> P K agg) ->
             forall K agg,
               In (K, agg)
                  (fold_left (process_group files min_lines ignore_indent)
                     l m) ->
               P K agg).
  { induction l as [|e l IH]; intros m Hl Hm K' agg' Hin; simpl in Hin.
    - now apply Hm.
    - eapply IH; [| |exact Hin].
      + intros x Hx. apply Hl. now right.
      + intros K1 a1. unfold process_group.
        destruct (Nat.ltb_spec (List.length (snd e)) 2) as [Hlt|Hge];
          [apply Hm|].
        intros Hu. apply umap_update_In in Hu.
        destruct Hu as [Hu|(-> & [[_ ->]|(v0 & Hv0 & ->)])].
        * now apply Hm.
        * apply (step e empty_agg); [apply Hl; now left|exact Hge|].
          now left.
        * apply (step e v0); [apply Hl; now left|exact Hge|].
          right. now apply Hm. }
  apply Hgen; [apply incl_refl|intros ? ? []].
Qed.
End ByContent.

(** ** The two extension loops *)

Lemma extend_backward_step files ign occs :
  extend_backward files ign occs
  = if can_extend_backward files ign occs
    then extend_backward files ign (map dec_start occs)
    else occs.
Proof.
  funelim (extend_backward files ign occs).
  - now rewrite e.
  - now rewrite e.
Qed.

Lemma extend_forward_step files ign occs len :
  extend_forward files ign occs len
  = if can_extend_forward files ign occs len
    then extend_forward files ign occs (len + 1)
    else len.
Proof.
  funelim (extend_forward files ign occs len).
  - now rewrite e.
  - now rewrite e.
Qed.

Lemma shift_back_0 occs : map (shift_back 0) occs = occs.
Proof.
  induction occs as [|[i s] occs IH]; simpl; [reflexivity|].
  rewrite IH. unfold shift_back. simpl. now rewrite Nat.sub_0_r.
Qed.

Lemma shift_back_dec b occs :
  map (shift_back b) (map dec_start occs) = map (shift_back (S b)) occs.
Proof.
  rewrite map_map. apply map_ext. intros [i s].
  unfold dec_start, shift_back. simpl. f_equal. lia.
Qed.

(** The backward loop stops after some number [b] of steps: every step
    before it passed the test, and the test fails on the result. *)
Lemma extend_backward_spec files ign occs :
  exists b,
    extend_backward files ign occs = map (shift_back b) occs
    /\ (forall j, j < b ->
          can_extend_backward files ign (map (shift_back j) occs) = true)
    /\ can_extend_backward files ign (map (shift_back b) occs) = false.
Proof.
  remember (start (hd no_occ occs)) as n eqn:Hn.
  revert occs Hn. induction n as [n IH] using lt_wf_ind. intros occs Hn.
  rewrite extend_backward_step.
  destruct (can_extend_backward files ign occs) eqn:E.
  - assert (Hlt : start (hd no_occ (map dec_start occs)) < n).
    { subst n. destruct occs as [|o0 rest]; [discriminate|].
      cbn in E. apply andb_prop in E as [E _]. apply andb_prop in E as [E _].
      apply negb_true_iff, Nat.eqb_neq in E. cbn. lia. }
    destruct (IH _ Hlt (map dec_start occs) eq_refl) as (b & Hb & Hj & Hs).
    rewrite shift_back_dec in Hb, Hs.
    exists (S b). split; [exact Hb|]. split; [|exact Hs].
    intros [|j] Hlj.
    + now rewrite shift_back_0.
    + rewrite <- shift_back_dec. apply Hj. lia.
  - exists 0. rewrite shift_back_0. split; [reflexivity|].
    split; [intros j Hj; lia|exact E].
Qed.

(** The forward loop returns the first length, from [len] on, at which
    its test fails. *)
Lemma extend_forward_spec files ign occs len :
  let n := extend_forward files ign occs len in
  len <= n
  /\ (forall j, len <= j < n -> can_extend_forward files ign occs j = true)
  /\ can_extend_forward files ign occs n = false.
Proof.
  remember (List.length (fd_lines (file_at files (file_index (hd no_occ occs))))
            - (start (hd no_occ occs) + len)) as k eqn:Hk.
  revert len Hk. induction k as [k IH] using lt_wf_ind. intros len Hk.
  rewrite extend_forward_step.
  destruct (can_extend_forward files ign occs len) eqn:E.
  - assert (Hlt : List.length
                    (fd_lines (file_at files (file_index (hd no_occ occs))))
                  - (start (hd no_occ occs) + (len + 1)) < k).
    { subst k. destruct occs as [|o0 rest]; [discriminate|].
      cbn in E. cbn.
      destruct (Nat.leb_spec
                  (List.length (fd_lines (file_at files (file_index o0))))
                  (start o0 + len)); [discriminate|lia]. }
    destruct (IH _ Hlt (len + 1) eq_refl) as (Hle & Hj & Hs).
    cbv zeta. split; [lia|]. split; [|exact Hs].
    intros j Hjr. destruct (Nat.eq_dec j len) as [->|Hne]; [exact E|].
    apply Hj. lia.
  - cbv zeta. split; [lia|]. split; [intros j Hj; lia|exact E].
Qed.

(** ** What the loop tests say about the lines *)

Lemma equal_line_iff ign a b :
  equal_line ign a b = true <-> norm_line ign a = norm_line ign b.
Proof.
  unfold equal_line, norm_line. destruct ign; simpl; apply String.eqb_eq.
Qed.

Lemma equal_line_refl ign a : equal_line ign a a = true.
Proof. now apply equal_line_iff. Qed.

Lemma can_extend_backward_iff files ign o0 rest :
  can_extend_backward files ign (o0 :: rest) = true
  <-> back_ok files ign o0 (o0 :: rest).
Proof.
  unfold can_extend_backward, back_ok.
  rewrite andb_true_iff, !forallb_forall. split.
  - intros [H1 H2] oc Hin. split.
    + apply H1 in Hin. now apply negb_true_iff, Nat.eqb_neq in Hin.
    + destruct Hin as [<-|Hin]; [reflexivity|].
      apply H2 in Hin. now apply equal_line_iff in Hin.
  - intros H. split; intros oc Hin.
    + apply negb_true_iff, Nat.eqb_neq. apply H, Hin.
    + apply equal_line_iff. apply H. now right.
Qed.

Lemma can_extend_forward_iff files ign o0 rest len :
  can_extend_forward files ign (o0 :: rest) len = true
  <-> fwd_ok files ign o0 (o0 :: rest) len.
Proof.
  unfold can_extend_forward, fwd_ok, size_at, nline, line_at. cbv zeta.
  destruct (Nat.leb_spec
              (List.length (fd_lines (file_at files (file_index o0))))
              (start o0 + len)) as [Hle|Hlt].
  - split; [discriminate|]. intros H.
    destruct (H o0 (or_introl eq_refl)) as [H0 _]. lia.
  - rewrite forallb_forall. split.
    + intros H oc [<-|Hin]; [split; [exact Hlt|reflexivity]|].
      apply H in Hin. apply negb_true_iff, orb_false_iff in Hin as [H1 H2].
      apply Nat.leb_gt in H1. apply negb_false_iff, equal_line_iff in H2.
      split; assumption.
    + intros H oc Hin. destruct (H oc (or_intror Hin)) as [H1 H2].
      apply negb_true_iff, orb_false_iff. split.
      * now apply Nat.leb_gt.
      * now apply negb_false_iff, equal_line_iff.
Qed.

(** ** The block built from a seed group *)

Lemma build_maximal_block_shape files o0 rest seed_len ign :
  exists b n,
    build_maximal_block files (o0 :: rest) seed_len ign
    = mkBlock
        (slice (fd_lines (file_at files (file_index o0)))
               (start o0 - b) (start o0 - b + n))
        (map (hit_of files n) (map (shift_back b) (o0 :: rest)))
    /\ extension files ign seed_len o0 (o0 :: rest) b n.
Proof.
  unfold build_maximal_block.
  destruct (extend_backward_spec files ign (o0 :: rest)) as (b & Hb & Hj & Hs).
  rewrite Hb.
  pose proof (extend_forward_spec files ign
                (map (shift_back b) (o0 :: rest)) seed_len) as Hf.
  cbv zeta in Hf. destruct Hf as (Hle & Hfj & Hfs).
  exists b, (extend_forward files ign (map (shift_back b) (o0 :: rest)) seed_len).
  split; [reflexivity|]. constructor.
  - intros j Hlt. apply (can_extend_backward_iff files ign (shift_back j o0)
                           (map (shift_back j) rest)), (Hj j Hlt).
  - intros H. apply (can_extend_backward_iff files ign (shift_back b o0)
                       (map (shift_back b) rest)) in H.
    exact (eq_true_false_abs _ H Hs).
  - exact Hle.
  - intros j Hr. apply (can_extend_forward_iff files ign (shift_back b o0)
                          (map (shift_back b) rest)), (Hfj j Hr).
  - intros H. apply (can_extend_forward_iff files ign (shift_back b o0)
                       (map (shift_back b) rest)) in H.
    exact (eq_true_false_abs _ H Hfs).
Qed.

Section ExtensionFacts.
Variables (files : list FileData) (ign : bool) (seed_len : nat).
Variables (o0 : Occurrence) (occs : list Occurrence) (b n : nat).
Hypothesis Hext : extension files ign seed_len o0 occs b n.
Hypothesis Hfit : forall oc, In oc occs -> fits files seed_len oc.
Hypothesis Hseed : forall oc, In oc occs -> agrees files ign o0 oc seed_len.
Hypothesis Hhead : In o0 occs.

Lemma ext_start_ge oc : In oc occs -> b <= start oc.
Proof.
  intros Hin. destruct b as [|b']; [lia|].
  destruct (ext_back _ _ _ _ _ _ _ Hext b' (Nat.lt_succ_diag_r b')
              (shift_back b' oc)) as [Hne _].
  { now apply in_map. }
  simpl in Hne. lia.
Qed.

Lemma ext_agrees_back oc t :
  In oc occs -> t < b ->
  nline files ign oc (start oc - b + t) = nline files ign o0 (start o0 - b + t).
Proof.
  intros Hin Ht.
  assert (Hj : b - t - 1 < b) by lia.
  destruct (ext_back _ _ _ _ _ _ _ Hext _ Hj (shift_back (b - t - 1) oc))
    as [_ He].
  { now apply in_map. }
  pose proof (ext_start_ge oc Hin). pose proof (ext_start_ge o0 Hhead).
  unfold nline in *. simpl in He.
  replace (start oc - b + t) with (start oc - (b - t - 1) - 1) by lia.
  replace (start o0 - b + t) with (start o0 - (b - t - 1) - 1) by lia.
  exact He.
Qed.

Lemma ext_agrees_seed oc t :
  In oc occs -> b <= t < b + seed_len ->
  nline files ign oc (start oc - b + t) = nline files ign o0 (start o0 - b + t).
Proof.
  intros Hin Ht.
  pose proof (ext_start_ge oc Hin). pose proof (ext_start_ge o0 Hhead).
  replace (start oc - b + t) with (start oc + (t - b)) by lia.
  replace (start o0 - b + t) with (start o0 + (t - b)) by lia.
  apply Hseed; [exact Hin|lia].
Qed.

Lemma ext_len_ge : b + seed_len <= n.
Proof.
  destruct (Nat.le_gt_cases (b + seed_len) n) as [H|H]; [exact H|].
  exfalso. apply (ext_fwd_stop _ _ _ _ _ _ _ Hext).
  pose proof (ext_seed _ _ _ _ _ _ _ Hext) as Hs.
  intros oc' Hin'. apply in_map_iff in Hin' as (oc & <- & Hin).
  pose proof (ext_start_ge oc Hin). destruct (Hfit oc Hin) as [_ Hsz].
  simpl. split.
  - unfold size_at in *. simpl. lia.
  - change (nline files ign (shift_back b oc) (start oc - b + n))
      with (nline files ign oc (start oc - b + n)).
    change (nline files ign (shift_back b o0) (start o0 - b + n))
      with (nline files ign o0 (start o0 - b + n)).
    destruct (Nat.lt_ge_cases n b).
    + now apply ext_agrees_back.
    + apply ext_agrees_seed; [exact Hin|lia].
Qed.

Lemma ext_fits oc :
  In oc occs -> fits files n (shift_back b oc).
Proof.
  intros Hin. destruct (Hfit oc Hin) as [Hidx Hsz].
  pose proof (ext_seed _ _ _ _ _ _ _ Hext) as Hn.
  split; [exact Hidx|]. unfold size_at in *. simpl.
  destruct (Nat.eq_dec n seed_len) as [->|Hne]; [lia|].
  assert (Hr : seed_len <= n - 1 < n) by lia.
  destruct (ext_fwd _ _ _ _ _ _ _ Hext _ Hr (shift_back b oc)) as [Hlt _].
  { now apply in_map. }
  unfold size_at in Hlt. simpl in Hlt. lia.
Qed.

Lemma ext_agrees oc :
  In oc occs -> agrees files ign (shift_back b o0) (shift_back b oc) n.
Proof.
  intros Hin t Ht. simpl.
  change (nline files ign (shift_back b oc) (start oc - b + t))
    with (nline files ign oc (start oc - b + t)).
  change (nline files ign (shift_back b o0) (start o0 - b + t))
    with (nline files ign o0 (start o0 - b + t)).
  destruct (Nat.lt_ge_cases t b); [now apply ext_agrees_back|].
  destruct (Nat.lt_ge_cases t (b + seed_len));
    [apply ext_agrees_seed; [exact Hin|lia]|].
  assert (Hr : seed_len <= t < n) by lia.
  destruct (ext_fwd _ _ _ _ _ _ _ Hext _ Hr (shift_back b oc)) as [_ He].
  { now apply in_map. }
  exact He.
Qed.
End ExtensionFacts.

(** ** The seed index *)

Lemma umap_find_push ws : forall m K,
  umap_find K (fold_left push_window ws m)
  = match umap_find K m with
    | Some v => Some (v ++ bucket K ws)
    | None => match bucket K ws with [] => None | l => Some l end
    end.
Proof.
  induction ws as [|[k o] ws IH]; intros m K; simpl.
  - unfold bucket. simpl. destruct (umap_find K m); [|reflexivity].
    now rewrite app_nil_r.
  - rewrite IH. unfold push_window. rewrite umap_find_update. simpl.
    unfold bucket. simpl.
    destruct (String.eqb_spec K k) as [->|Hne]; simpl.
    + destruct (umap_find k m); simpl; [|reflexivity].
      now rewrite <- app_assoc.
    + reflexivity.
Qed.

Lemma fold_push_NoDup ws : forall m,
  NoDup (map fst m) -> NoDup (map fst (fold_left push_window ws m)).
Proof.
  induction ws as [|w ws IH]; intros m H; simpl; [exact H|].
  apply IH. unfold push_window. now apply umap_update_NoDup.
Qed.

Lemma build_seeds_NoDup files min_lines ign :
  NoDup (map fst (build_seeds files min_lines ign)).
Proof. apply fold_push_NoDup. constructor. Qed.

Lemma build_seeds_bucket files min_lines ign K occs :
  In (K, occs) (build_seeds files min_lines ign)
  <-> occs = bucket K (seed_windows files min_lines ign) /\ occs <> [].
Proof.
  unfold build_seeds. split.
  - intros H. apply umap_find_In in H; [|apply build_seeds_NoDup].
    unfold build_seeds in H. rewrite umap_find_push in H. simpl in H.
    destruct (bucket K _) eqn:E; [discriminate|].
    inversion H; subst. split; [reflexivity|discriminate].
  - intros [-> Hne]. apply umap_find_Some. rewrite umap_find_push. simpl.
    destruct (bucket K _); [congruence|reflexivity].
Qed.

Lemma in_bucket K ws oc : In oc (bucket K ws) <-> In (K, oc) ws.
Proof.
  unfold bucket. rewrite in_map_iff. split.
  - intros ([k o] & Ho & Hin). apply filter_In in Hin as [Hin Hk].
    simpl in *. apply String.eqb_eq in Hk. now subst.
  - intros H. exists (K, oc). split; [reflexivity|].
    apply filter_In. split; [exact H|apply String.eqb_refl].
Qed.

Lemma in_file_windows min_lines ign idx f w :
  In w (file_windows min_lines ign idx f)
  <-> exists i, i + min_lines <= List.length (fd_lines f)
                /\ w = (join_lines_norm (fd_lines f) i (i + min_lines) ign,
                        mkOcc idx i).
Proof.
  unfold file_windows.
  destruct (Nat.ltb_spec (List.length (fd_lines f)) min_lines) as [Hlt|Hge].
  - split; [intros []|]. intros (i & Hi & _). lia.
  - rewrite in_map_iff. split.
    + intros (i & <- & Hin). apply in_seq in Hin. exists i.
      split; [lia|reflexivity].
    + intros (i & Hi & ->). exists i. split; [reflexivity|].
      apply in_seq. lia.
Qed.

Lemma in_seed_windows files min_lines ign K oc :
  In (K, oc) (seed_windows files min_lines ign)
  <-> fits files min_lines oc /\ K = seed_key files min_lines ign oc.
Proof.
  unfold seed_windows, fits, size_at, seed_key. rewrite in_flat_map. split.
  - intros (idx & Hidx & Hin). apply in_seq in Hidx.
    apply in_file_windows in Hin as (i & Hi & E). inversion E; subst.
    simpl. repeat split; try lia.
  - intros [[Hidx Hsz] ->]. exists (file_index oc). split; [apply in_seq; lia|].
    apply in_file_windows. exists (start oc). split; [exact Hsz|].
    destruct oc; reflexivity.
Qed.

(** A bucket holds exactly the windows whose key it is filed under. *)
Lemma in_seed_bucket files min_lines ign K occs oc :
  In (K, occs) (build_seeds files min_lines ign) ->
  (In oc occs
   <-> fits files min_lines oc /\ seed_key files min_lines ign oc = K).
Proof.
  intros H. apply build_seeds_bucket in H as [-> _].
  rewrite in_bucket, in_seed_windows. intuition congruence.
Qed.

Lemma seed_bucket_nonempty files min_lines ign K occs :
  In (K, occs) (build_seeds files min_lines ign) -> occs <> [].
Proof. intros H. now apply build_seeds_bucket in H. Qed.

Lemma StronglySorted_app {A} (R : A -> A -> Prop) l1 l2 :
  StronglySorted R l1 -> StronglySorted R l2 ->
  (forall x y, In x l1 -> In y l2 -> R x y) ->
  StronglySorted R (l1 ++ l2).
Proof.
  induction l1 as [|a l1 IH]; intros H1 H2 H; simpl; [exact H2|].
  inversion H1 as [|? ? Hs Hf]; subst. constructor.
  - apply IH; [exact Hs|exact H2|]. intros x y Hx Hy. apply H; [now right|exact Hy].
  - apply Forall_app. split; [exact Hf|].
    apply Forall_forall. intros y Hy. apply H; [now left|exact Hy].
Qed.

Lemma StronglySorted_map_seq {A} (R : A -> A -> Prop) (f : nat -> A) s n :
  (forall i j, i < j -> R (f i) (f j)) ->
  StronglySorted R (map f (seq s n)).
Proof.
  intros H. revert s. induction n as [|n IH]; intros s; simpl; constructor.
  - apply IH.
  - apply Forall_forall. intros y Hy. apply in_map_iff in Hy as (j & <- & Hj).
    apply in_seq in Hj. apply H. lia.
Qed.

Lemma StronglySorted_flat_map_seq {A} (R : A -> A -> Prop)
    (f : nat -> list A) s n :
  (forall i, StronglySorted R (f i)) ->
  (forall i j x y, i < j -> In x (f i) -> In y (f j) -> R x y) ->
  StronglySorted R (flat_map f (seq s n)).
Proof.
  intros Hs H. revert s. induction n as [|n IH]; intros s; simpl;
    [constructor|].
  apply StronglySorted_app; [apply Hs|apply IH|].
  intros x y Hx Hy. apply in_flat_map in Hy as (j & Hj & Hy).
  apply in_seq in Hj. apply (H s j); [lia|exact Hx|exact Hy].
Qed.

Lemma StronglySorted_filter {A} (R : A -> A -> Prop) (p : A -> bool) l :
  StronglySorted R l -> StronglySorted R (filter p l).
Proof.
  induction 1 as [|a l Hs IH Hf]; simpl; [constructor|].
  destruct (p a); [|exact IH]. constructor; [exact IH|].
  apply Forall_forall. intros y Hy. apply filter_In in Hy as [Hy _].
  rewrite Forall_forall in Hf. now apply Hf.
Qed.

Lemma seed_windows_sorted files min_lines ign :
  StronglySorted (fun a b => occ_lt (snd a) (snd b))
    (seed_windows files min_lines ign).
Proof.
  unfold seed_windows. apply StronglySorted_flat_map_seq.
  - intros idx. unfold file_windows.
    destruct (Nat.ltb _ _); [constructor|].
    apply StronglySorted_map_seq. intros i j Hij. right. simpl.
    split; [reflexivity|exact Hij].
  - intros i j x y Hij Hx Hy.
    apply in_file_windows in Hx as (a & _ & ->).
    apply in_file_windows in Hy as (c & _ & ->). left. exact Hij.
Qed.

Lemma StronglySorted_map_snd {A B} (R : B -> B -> Prop) (l : list (A * B)) :
  StronglySorted (fun a b => R (snd a) (snd b)) l ->
  StronglySorted R (map snd l).
Proof.
  induction 1 as [|a l Hs IH Hf]; simpl; constructor; [exact IH|].
  apply Forall_map. exact Hf.
Qed.

Lemma seed_bucket_sorted files min_lines ign K occs :
  In (K, occs) (build_seeds files min_lines ign) ->
  StronglySorted occ_lt occs.
Proof.
  intros H. apply build_seeds_bucket in H as [-> _]. unfold bucket.
  apply StronglySorted_map_snd, StronglySorted_filter, seed_windows_sorted.
Qed.

(** ** Keys and windows *)

Lemma map_seq_eq_iff {A} (f g : nat -> A) n : forall s1 s2,
  map f (seq s1 n) = map g (seq s2 n)
  <-> forall j, j < n -> f (s1 + j) = g (s2 + j).
Proof.
  induction n as [|n IH]; intros s1 s2; simpl.
  - split; [intros _ j Hj; lia|reflexivity].
  - split.
    + intros H. inversion H as [[H0 Ht]].
      pose proof (proj1 (IH _ _) Ht) as Ht'. clear Ht. rename Ht' into Ht.
      intros [|j] Hj.
      * now rewrite !Nat.add_0_r.
      * rewrite <- !Nat.add_succ_comm. apply Ht. lia.
    + intros H. f_equal.
      * specialize (H 0 ltac:(lia)). now rewrite !Nat.add_0_r in H.
      * apply IH. intros j Hj. rewrite !Nat.add_succ_comm. apply H. lia.
Qed.

Lemma window_norm_eq_iff files ign o1 o2 len :
  window_norm files ign o1 len = window_norm files ign o2 len
  <-> agrees files ign o2 o1 len.
Proof. unfold window_norm, agrees. apply map_seq_eq_iff. Qed.

Lemma window_norm_length files ign oc len :
  List.length (window_norm files ign oc len) = len.
Proof. unfold window_norm. now rewrite length_map, length_seq. Qed.

Lemma seed_key_window files min_lines ign oc :
  seed_key files min_lines ign oc
  = String.concat NL (window_norm files ign oc min_lines).
Proof.
  unfold seed_key, join_lines_norm, window_norm.
  now rewrite Nat.add_comm, Nat.add_sub.
Qed.

Lemma line_at_no_lf files idx k :
  lines_wf files -> no_lf (line_at files idx k).
Proof.
  intros Hwf. unfold line_at, file_at.
  destruct (nth_in_or_default idx files no_file) as [Hin| ->].
  - destruct (nth_in_or_default k (fd_lines (nth idx files no_file))
                EmptyString) as [Hk| ->]; [|reflexivity].
    unfold lines_wf in Hwf. rewrite Forall_forall in Hwf.
    specialize (Hwf _ Hin). rewrite Forall_forall in Hwf. now apply Hwf.
  - simpl. destruct k; reflexivity.
Qed.

Lemma window_norm_no_lf files ign oc len :
  lines_wf files -> Forall no_lf (window_norm files ign oc len).
Proof.
  intros Hwf. unfold window_norm. apply Forall_map, Forall_forall.
  intros k _. apply norm_line_no_lf, line_at_no_lf, Hwf.
Qed.

(** Under well-formed lines, a key determines its window. *)
Lemma concat_window_inj files ign o1 o2 len1 len2 :
  lines_wf files -> 1 <= len1 -> 1 <= len2 ->
  String.concat NL (window_norm files ign o1 len1)
  = String.concat NL (window_norm files ign o2 len2) ->
  len1 = len2 /\ agrees files ign o2 o1 len1.
Proof.
  intros Hwf H1 H2 E.
  apply concat_nl_inj in E; try now apply window_norm_no_lf.
  - pose proof (f_equal (@List.length _) E) as L.
    rewrite !window_norm_length in L. subst len2.
    split; [reflexivity|now apply window_norm_eq_iff].
  - intros H. apply (f_equal (@List.length _)) in H.
    rewrite window_norm_length in H. simpl in H. lia.
  - intros H. apply (f_equal (@List.length _)) in H.
    rewrite window_norm_length in H. simpl in H. lia.
Qed.

Lemma map_nth_seq {A B} (f : A -> B) (d : A) (v : list A) :
  map (fun k => f (nth k v d)) (seq 0 (List.length v)) = map f v.
Proof.
  induction v as [|x v IH]; [reflexivity|].
  cbn [List.length seq map nth]. f_equal.
  rewrite <- seq_shift, map_map. exact IH.
Qed.

Lemma join_lines_norm_all v ign :
  join_lines_norm v 0 (List.length v) ign
  = String.concat NL (map (norm_line ign) v).
Proof.
  unfold join_lines_norm. rewrite Nat.sub_0_r. now rewrite map_nth_seq.
Qed.

Lemma slice_nth v s n :
  s + n <= List.length v ->
  slice v s (s + n) = map (fun k => nth k v EmptyString) (seq s n).
Proof.
  unfold slice. rewrite Nat.add_comm, Nat.add_sub.
  revert s n. induction v as [|x v IH]; intros s n H; simpl in H.
  - assert (s = 0) as -> by lia. assert (n = 0) as -> by lia. reflexivity.
  - destruct s as [|s].
    + destruct n as [|n]; [reflexivity|]. simpl. f_equal.
      specialize (IH 0 n ltac:(lia)). simpl in IH. rewrite IH.
      rewrite <- seq_shift, map_map. reflexivity.
    + simpl skipn. rewrite IH by lia.
      rewrite <- (seq_shift n s), map_map. reflexivity.
Qed.

Lemma slice_length v s n :
  s + n <= List.length v -> List.length (slice v s (s + n)) = n.
Proof.
  intros H. rewrite slice_nth by exact H. now rewrite length_map, length_seq.
Qed.

Lemma content_key_slice files ign oc n hits :
  start oc + n <= size_at files oc ->
  content_key ign
    (mkBlock (slice (fd_lines (file_at files (file_index oc)))
                (start oc) (start oc + n)) hits)
  = String.concat NL (window_norm files ign oc n).
Proof.
  intros H. unfold content_key. simpl. rewrite join_lines_norm_all.
  rewrite slice_nth by exact H. rewrite map_map. reflexivity.
Qed.

(** ** Seed groups of the same region build the same block *)

Lemma occ_lt_irrefl a : ~ occ_lt a a.
Proof. unfold occ_lt. lia. Qed.

Lemma occ_lt_trans a b c : occ_lt a b -> occ_lt b c -> occ_lt a c.
Proof. unfold occ_lt. lia. Qed.

Lemma sorted_same_members {A} (R : A -> A -> Prop) :
  (forall a, ~ R a a) -> (forall a b c, R a b -> R b c -> R a c) ->
  forall l1 l2,
    StronglySorted R l1 -> StronglySorted R l2 ->
    (forall x, In x l1 <-> In x l2) -> l1 = l2.
Proof.
  intros Hirr Htr. induction l1 as [|x l1 IH]; intros l2 H1 H2 Hm.
  - destruct l2 as [|y l2]; [reflexivity|].
    exfalso. apply (Hm y). now left.
  - destruct l2 as [|y l2]; [exfalso; apply (Hm x); now left|].
    inversion H1 as [|? ? Hs1 Hf1]; inversion H2 as [|? ? Hs2 Hf2]; subst.
    rewrite Forall_forall in Hf1, Hf2.
    assert (x = y) as <-.
    { destruct (proj1 (Hm x) (or_introl eq_refl)) as [E|Hx]; [now symmetry|].
      destruct (proj2 (Hm y) (or_introl eq_refl)) as [E|Hy]; [exact E|].
      exfalso. apply (Hirr x). eapply Htr; [apply Hf1, Hy|apply Hf2, Hx]. }
    f_equal. apply IH; [exact Hs1|exact Hs2|].
    intros z. split; intros Hz.
    + destruct (proj1 (Hm z) (or_intror Hz)) as [<-|H]; [|exact H].
      exfalso. apply (Hirr x). now apply Hf1.
    + destruct (proj2 (Hm z) (or_intror Hz)) as [<-|H]; [|exact H].
      exfalso. apply (Hirr x). now apply Hf2.
Qed.

Lemma shift_back_sorted b occs :
  (forall oc, In oc occs -> b <= start oc) ->
  StronglySorted occ_lt occs ->
  StronglySorted occ_lt (map (shift_back b) occs).
Proof.
  intros Hb Hs. induction Hs as [|a l Hs IH Hf]; simpl; constructor.
  - apply IH. intros oc Hin. apply Hb. now right.
  - apply Forall_map. rewrite Forall_forall in *. intros oc Hin.
    pose proof (Hb a (or_introl eq_refl)). pose proof (Hb oc (or_intror Hin)).
    specialize (Hf oc Hin). unfold occ_lt in *. simpl. lia.
Qed.

Section Groups.
Variables (files : list FileData) (min_lines : nat) (ign : bool).
Hypothesis Hwf : lines_wf files.
Hypothesis Hmin : 1 <= min_lines.

Local Abbreviation seeds := (build_seeds files min_lines ign).

Lemma group_facts_exist K occs :
  In (K, occs) seeds -> exists o0 b n, group_facts files min_lines ign K occs o0 b n.
Proof.
  intros Hin. pose proof (seed_bucket_nonempty _ _ _ _ _ Hin) as Hne.
  destruct occs as [|o0 rest]; [congruence|].
  destruct (build_maximal_block_shape files o0 rest min_lines ign)
    as (b & n & Hb & Hext).
  exists o0, b, n. constructor.
  - reflexivity.
  - exact Hb.
  - exact Hext.
  - intros oc Hoc. now apply (in_seed_bucket _ _ _ _ _ oc Hin).
  - intros oc Hoc.
    destruct (proj1 (in_seed_bucket _ _ _ _ _ oc Hin) Hoc) as [_ Hk].
    destruct (proj1 (in_seed_bucket _ _ _ _ _ o0 Hin) (or_introl eq_refl))
      as [_ Hk0].
    rewrite <- Hk0, !seed_key_window in Hk.
    now apply concat_window_inj in Hk.
Qed.

Lemma gf_head_in K occs o0 b n :
  group_facts files min_lines ign K occs o0 b n -> In o0 occs.
Proof.
  intros G. pose proof (gf_head _ _ _ _ _ _ _ _ G) as H.
  destruct occs; inversion H. now left.
Qed.

Section OneGroup.
Variables (K : string) (occs : list Occurrence) (o0 : Occurrence).
Variables (b n : nat).
Hypothesis G : group_facts files min_lines ign K occs o0 b n.

Lemma gf_start_ge oc : In oc occs -> b <= start oc.
Proof.
  intros H. eapply ext_start_ge; [apply (gf_ext _ _ _ _ _ _ _ _ G)|exact H].
Qed.

Lemma gf_len_ge : b + min_lines <= n.
Proof.
  eapply ext_len_ge;
    [apply (gf_ext _ _ _ _ _ _ _ _ G)|apply (gf_fit _ _ _ _ _ _ _ _ G)
    |apply (gf_seed _ _ _ _ _ _ _ _ G)|apply (gf_head_in _ _ _ _ _ G)].
Qed.

Lemma gf_fits oc : In oc occs -> fits files n (shift_back b oc).
Proof.
  intros H. eapply ext_fits;
    [apply (gf_ext _ _ _ _ _ _ _ _ G)|apply (gf_fit _ _ _ _ _ _ _ _ G)|exact H].
Qed.

Lemma gf_agrees oc :
  In oc occs -> agrees files ign (shift_back b o0) (shift_back b oc) n.
Proof.
  intros H. eapply ext_agrees;
    [apply (gf_ext _ _ _ _ _ _ _ _ G)|apply (gf_seed _ _ _ _ _ _ _ _ G)
    |apply (gf_head_in _ _ _ _ _ G)|exact H].
Qed.

(** The key of the block is the join of its first occurrence's
    lines. *)
Lemma group_content_key :
  content_key ign (group_block files min_lines ign (K, occs))
  = String.concat NL (window_norm files ign (shift_back b o0) n).
Proof.
  rewrite (gf_block _ _ _ _ _ _ _ _ G).
  destruct (gf_fits o0 (gf_head_in _ _ _ _ _ G)) as [_ Hsz].
  apply (content_key_slice files ign (shift_back b o0) n). exact Hsz.
Qed.
End OneGroup.

Lemma transfer KA occsA oA bA KB occsB oB bB n oc :
  In (KA, occsA) seeds ->
  group_facts files min_lines ign KA occsA oA bA n ->
  group_facts files min_lines ign KB occsB oB bB n ->
  agrees files ign (shift_back bA oA) (shift_back bB oB) n ->
  In oc occsB ->
  In (shift_back bB oc) (map (shift_back bA) occsA).
Proof.
  intros HinA GA GB Hab Hoc.
  pose proof (gf_head_in _ _ _ _ _ GA) as HA0.
  pose proof (gf_len_ge _ _ _ _ _ GA) as HnA.
  pose proof (gf_start_ge _ _ _ _ _ GA oA HA0) as HsA.
  pose proof (gf_start_ge _ _ _ _ _ GB oc Hoc) as HsB.
  destruct (gf_fits _ _ _ _ _ GB oc Hoc) as [Hidx Hsz].
  pose proof (gf_agrees _ _ _ _ _ GB oc Hoc) as Hag.
  set (c := mkOcc (file_index oc) (start oc - bB + bA)).
  assert (Hc : In c occsA).
  { apply (in_seed_bucket _ _ _ _ _ c HinA). split.
    - split; [exact Hidx|]. unfold size_at in *. simpl in *. lia.
    - destruct (proj1 (in_seed_bucket _ _ _ _ _ oA HinA) HA0) as [_ <-].
      rewrite !seed_key_window. f_equal. apply window_norm_eq_iff.
      intros j Hj. simpl.
      assert (Ht : bA + j < n) by lia.
      specialize (Hag _ Ht). specialize (Hab _ Ht). simpl in Hag, Hab.
      unfold nline in *. simpl in *.
      replace (start oc - bB + bA + j) with (start oc - bB + (bA + j))
        by lia.
      rewrite Hag, Hab. f_equal. f_equal. lia. }
  apply in_map_iff. exists c. split; [|exact Hc].
  unfold shift_back, c. simpl. f_equal. lia.
Qed.

Lemma agrees_sym o1 o2 len :
  agrees files ign o1 o2 len -> agrees files ign o2 o1 len.
Proof. intros H j Hj. symmetry. now apply H. Qed.

Theorem group_block_coherent K1 occs1 K2 occs2 :
  In (K1, occs1) seeds -> In (K2, occs2) seeds ->
  content_key ign (group_block files min_lines ign (K1, occs1))
  = content_key ign (group_block files min_lines ign (K2, occs2)) ->
  group_block files min_lines ign (K1, occs1)
  = group_block files min_lines ign (K2, occs2).
Proof.
  intros Hin1 Hin2 E.
  destruct (group_facts_exist _ _ Hin1) as (o1 & b1 & n1 & G1).
  destruct (group_facts_exist _ _ Hin2) as (o2 & b2 & n2 & G2).
  pose proof (gf_len_ge _ _ _ _ _ G1) as Hn1.
  pose proof (gf_len_ge _ _ _ _ _ G2) as Hn2.
  rewrite (group_content_key _ _ _ _ _ G1),
          (group_content_key _ _ _ _ _ G2) in E.
  apply concat_window_inj in E as [<- Hag]; [|exact Hwf|lia|lia].
  assert (Hl : map (shift_back b1) occs1 = map (shift_back b2) occs2).
  { apply (sorted_same_members occ_lt occ_lt_irrefl occ_lt_trans).
    - apply shift_back_sorted; [apply (gf_start_ge _ _ _ _ _ G1)|].
      now apply (seed_bucket_sorted files min_lines ign K1).
    - apply shift_back_sorted; [apply (gf_start_ge _ _ _ _ _ G2)|].
      now apply (seed_bucket_sorted files min_lines ign K2).
    - intros x. split; intros Hx; apply in_map_iff in Hx as (oc & <- & Hoc).
      + apply (transfer K2 occs2 o2 b2 K1 occs1 o1 b1 n1); assumption.
      + apply (transfer K1 occs1 o1 b1 K2 occs2 o2 b2 n1); try assumption.
        now apply agrees_sym. }
  rewrite (gf_block _ _ _ _ _ _ _ _ G1), (gf_block _ _ _ _ _ _ _ _ G2), Hl.
  assert (Hh : shift_back b1 o1 = shift_back b2 o2).
  { pose proof (gf_head _ _ _ _ _ _ _ _ G1) as Hd1.
    pose proof (gf_head _ _ _ _ _ _ _ _ G2) as Hd2.
    destruct occs1 as [|a1 r1]; [discriminate|].
    destruct occs2 as [|a2 r2]; [discriminate|].
    simpl in Hd1, Hd2. inversion Hd1; inversion Hd2; subst.
    change (hd no_occ (map (shift_back b1) (o1 :: r1))
            = hd no_occ (map (shift_back b2) (o2 :: r2))).
    now rewrite Hl. }
  inversion Hh as [[Hf Hs]]. rewrite Hf, Hs. reflexivity.
Qed.
End Groups.

(** ** [by_content] does not depend on the traversal order *)

Section Canonical.
Variables (files : list FileData) (min_lines : nat) (ign : bool).
Hypothesis Hwf : lines_wf files.
Hypothesis Hmin : 1 <= min_lines.

Local Abbreviation seeds := (build_seeds files min_lines ign).

Lemma group_block_lines_length K occs :
  In (K, occs) seeds ->
  min_lines <= List.length (b_lines (group_block files min_lines ign (K, occs))).
Proof.
  intros Hin.
  destruct (group_facts_exist files min_lines ign Hwf Hmin _ _ Hin)
    as (o0 & b & n & G).
  rewrite (gf_block _ _ _ _ _ _ _ _ G). simpl.
  destruct (gf_fits _ _ _ _ _ _ _ _ G o0 (gf_head_in _ _ _ _ _ _ _ _ G))
    as [_ Hsz].
  pose proof (gf_len_ge _ _ _ _ _ _ _ _ G).
  rewrite (slice_length _ (start o0 - b) n); [lia|exact Hsz].
Qed.

Lemma by_content_canonical order K agg :
  incl order seeds ->
  In (K, agg) (by_content_of files min_lines ign order) ->
  canonical_entry files min_lines ign order K agg.
Proof.
  intros Hincl.
  apply (by_content_invariant files min_lines ign (canonical_entry files min_lines ign order)
           order).
  clear K agg.
  intros entry agg0 Hin Hlen block H. unfold canonical_entry in H.
  destruct H as [H|(e0 & Hin0 & Hlen0 & HK & H)]; subst agg0.
  - exists entry. repeat split; assumption.
  - exists entry. repeat split; try assumption.
    destruct entry as [K occs], e0 as [K0 occs0].
    assert (E : group_block files min_lines ign (K0, occs0) = block).
    { apply group_block_coherent; try assumption.
      - apply Hincl, Hin0.
      - apply Hincl, Hin.
      - now symmetry. }
    rewrite E. apply merge_block_again.
    pose proof (group_block_lines_length K occs (Hincl _ Hin)) as Hl.
    intros Hnil. unfold block in Hnil. rewrite Hnil in Hl. simpl in Hl. lia.
Qed.

Lemma fold_process_keys l : forall m K,
  In K (map fst m) ->
  In K (map fst (fold_left (process_group files min_lines ign) l m)).
Proof.
  induction l as [|e l IH]; intros m K H; simpl; [exact H|].
  apply IH. unfold process_group.
  destruct (Nat.ltb _ _); [exact H|].
  rewrite umap_update_keys. destruct (existsb _ _); [exact H|].
  apply in_app_iff. now left.
Qed.

Lemma fold_process_reached l : forall m entry,
  In entry l -> 2 <= List.length (snd entry) ->
  In (content_key ign (group_block files min_lines ign entry))
     (map fst (fold_left (process_group files min_lines ign) l m)).
Proof.
  induction l as [|e l IH]; intros m entry Hin Hlen; [destruct Hin|].
  destruct Hin as [<-|Hin]; simpl.
  - apply fold_process_keys. unfold process_group.
    destruct (Nat.ltb_spec (List.length (snd e)) 2) as [Hlt|_]; [lia|].
    rewrite umap_update_keys.
    destruct (existsb _ _) eqn:E.
    + now apply existsb_eqb_In in E.
    + apply in_app_iff. right. now left.
  - now apply IH.
Qed.

Lemma fold_process_NoDup l : forall m,
  NoDup (map fst m) ->
  NoDup (map fst (fold_left (process_group files min_lines ign) l m)).
Proof.
  induction l as [|e l IH]; intros m H; simpl; [exact H|].
  apply IH. unfold process_group. destruct (Nat.ltb _ _); [exact H|].
  now apply umap_update_NoDup.
Qed.

Lemma by_content_NoDup order :
  NoDup (map fst (by_content_of files min_lines ign order)).
Proof. apply fold_process_NoDup. constructor. Qed.

Lemma by_content_same order1 order2 K agg :
  Permutation seeds order1 -> Permutation seeds order2 ->
  In (K, agg) (by_content_of files min_lines ign order1) ->
  In (K, agg) (by_content_of files min_lines ign order2).
Proof.
  intros P1 P2 Hin.
  assert (I1 : incl order1 seeds).
  { intros x Hx. eapply Permutation_in; [symmetry; exact P1|exact Hx]. }
  assert (I2 : incl order2 seeds).
  { intros x Hx. eapply Permutation_in; [symmetry; exact P2|exact Hx]. }
  destruct (by_content_canonical _ _ _ I1 Hin) as (e & He & Hlen & -> & ->).
  assert (He2 : In e order2).
  { eapply Permutation_in; [exact P2|]. apply I1, He. }
  pose proof (fold_process_reached order2 [] e He2 Hlen) as Hk.
  apply in_map_iff in Hk as ([K' agg'] & HK' & Hin').
  simpl in HK'. subst K'.
  destruct (by_content_canonical _ _ _ I2 Hin') as (e' & He' & _ & HK & ->).
  destruct e as [K occs], e' as [K' occs'].
  pose proof (group_block_coherent files min_lines ign Hwf Hmin
                K occs K' occs' (I1 _ He) (I2 _ He') HK) as E.
  rewrite E in Hin' |- *. exact Hin'.
Qed.

Lemma by_content_perm order1 order2 :
  Permutation seeds order1 -> Permutation seeds order2 ->
  Permutation (by_content_of files min_lines ign order1)
              (by_content_of files min_lines ign order2).
Proof.
  intros P1 P2. apply NoDup_Permutation.
  - eapply NoDup_map_inv, by_content_NoDup.
  - eapply NoDup_map_inv, by_content_NoDup.
  - intros [K agg]. split; now apply by_content_same.
Qed.

(** Every run returns the blocks of the insertion-order run, in some
    order. *)
Theorem find_repeated_blocks_perm out :
  find_repeated_blocks_loaded files min_lines ign out ->
  Permutation out (find_repeated_blocks_fn files min_lines ign).
Proof.
  intros [order1 order2 P1 P2]. unfold find_repeated_blocks_fn.
  apply Permutation_flat_map. etransitivity; [symmetry; exact P2|].
  apply by_content_perm; [exact P1|apply Permutation_refl].
Qed.
End Canonical.

(** ** Sorting *)

Section Sorting.
Context {A : Type} (before : A -> A -> bool).
Hypothesis before_asym :
  forall x y, before x y = true -> before y x = false.
Hypothesis before_negtrans :
  forall x y z, before x y = false -> before y z = false ->
                before x z = false.

Local Abbreviation R := (fun x y : A => before y x = false).

Lemma insert_by_perm x l : Permutation (x :: l) (insert_by before x l).
Proof.
  induction l as [|y l IH]; simpl; [apply Permutation_refl|].
  destruct (before y x); [|apply Permutation_refl].
  etransitivity; [apply perm_swap|]. now apply perm_skip.
Qed.

Lemma insert_by_sorted x l :
  StronglySorted R l -> StronglySorted R (insert_by before x l).
Proof.
  induction 1 as [|y l Hs IH Hf]; simpl.
  - repeat constructor.
  - destruct (before y x) eqn:E.
    + constructor; [exact IH|].
      eapply Permutation_Forall; [apply insert_by_perm|].
      constructor; [|exact Hf]. now apply before_asym.
    + constructor; [now constructor|].
      constructor; [exact E|].
      rewrite Forall_forall in *. intros z Hz. cbv beta in *.
      eapply before_negtrans; [apply Hf, Hz|exact E].
Qed.

Lemma sort_by_std_sorted l : std_sorted before l (sort_by before l).
Proof.
  unfold std_sorted, sort_by. induction l as [|x l [IHp IHs]]; simpl.
  - split; constructor.
  - split.
    + etransitivity; [apply perm_skip, IHp|apply insert_by_perm].
    + now apply insert_by_sorted.
Qed.

(** When elements that do not compare either way are equal, the sorted
    arrangement is unique. *)
Lemma sorted_perm_unique s s' :
  (forall x y, In x s -> In y s ->
               before x y = false -> before y x = false -> x = y) ->
  Permutation s s' ->
  StronglySorted R s -> StronglySorted R s' -> s = s'.
Proof.
  revert s'. induction s as [|x s IH]; intros s' Hanti Hp H1 H2.
  - apply Permutation_nil in Hp. now subst.
  - destruct s' as [|y s'];
      [apply Permutation_sym, Permutation_nil in Hp; discriminate|].
    inversion H1 as [|? ? Hs1 Hf1]; inversion H2 as [|? ? Hs2 Hf2]; subst.
    rewrite Forall_forall in Hf1, Hf2.
    assert (Hy : In y (x :: s)).
    { eapply Permutation_in; [symmetry; exact Hp|now left]. }
    assert (Hx : In x (y :: s')).
    { eapply Permutation_in; [exact Hp|now left]. }
    assert (x = y) as <-.
    { destruct Hy as [E|Hy]; [exact E|]. destruct Hx as [E|Hx]; [now symmetry|].
      apply Hanti; [now left|now right| |].
      - apply (Hf2 x Hx).
      - apply (Hf1 y Hy). }
    f_equal. apply IH; [| |exact Hs1|exact Hs2].
    + intros a c Ha Hc. apply Hanti; now right.
    + eapply Permutation_cons_inv, Hp.
Qed.

Lemma std_sorted_unique l l' s s' :
  (forall x y, In x l -> In y l ->
               before x y = false -> before y x = false -> x = y) ->
  Permutation l l' ->
  std_sorted before l s -> std_sorted before l' s' -> s = s'.
Proof.
  intros Hanti Hp [P1 S1] [P2 S2]. apply sorted_perm_unique; try assumption.
  - intros x y Hx Hy. apply Hanti; eapply Permutation_in;
      try (symmetry; exact P1); assumption.
  - etransitivity; [symmetry; exact P1|]. etransitivity; [exact Hp|exact P2].
Qed.
End Sorting.

(** A comparator that is irreflexive, transitive and decides between any
    two different values is a strict weak ordering. *)
Section StrictTotal.
Context {A : Type} (lt : A -> A -> bool).
Hypothesis lt_irrefl : forall x, lt x x = false.
Hypothesis lt_trans :
  forall x y z, lt x y = true -> lt y z = true -> lt x z = true.
Hypothesis lt_total : forall x y, lt x y = false -> lt y x = false -> x = y.

Lemma strict_asym x y : lt x y = true -> lt y x = false.
Proof.
  intros H. destruct (lt y x) eqn:E; [|reflexivity].
  pose proof (lt_trans _ _ _ H E) as H'. now rewrite lt_irrefl in H'.
Qed.

Lemma strict_negtrans x y z :
  lt x y = false -> lt y z = false -> lt x z = false.
Proof.
  intros H1 H2. destruct (lt x z) eqn:E; [|reflexivity].
  destruct (lt y x) eqn:E'.
  - pose proof (lt_trans _ _ _ E' E). congruence.
  - pose proof (lt_total _ _ H1 E'). subst. congruence.
Qed.
End StrictTotal.

(** [operator<] on strings. *)

Lemma ascii_compare_refl c : Ascii.compare c c = Eq.
Proof. unfold Ascii.compare. apply N.compare_refl. Qed.

Lemma string_compare_refl s : String.compare s s = Eq.
Proof.
  induction s as [|c s IH]; simpl; [reflexivity|].
  now rewrite ascii_compare_refl.
Qed.

Lemma string_compare_lt_trans a : forall b c,
  String.compare a b = Lt -> String.compare b c = Lt ->
  String.compare a c = Lt.
Proof.
  induction a as [|x a IH]; intros [|y b] [|z c]; simpl;
    try discriminate; try reflexivity.
  destruct (Ascii.compare x y) eqn:Exy; try discriminate;
    destruct (Ascii.compare y z) eqn:Eyz; try discriminate; intros H1 H2.
  - apply Ascii.compare_eq_iff in Exy, Eyz. subst.
    rewrite ascii_compare_refl. now apply (IH b c).
  - apply Ascii.compare_eq_iff in Exy. subst. now rewrite Eyz.
  - apply Ascii.compare_eq_iff in Eyz. subst. now rewrite Exy.
  - unfold Ascii.compare in *. rewrite N.compare_lt_iff in Exy, Eyz.
    assert (Hxz : (N_of_ascii x < N_of_ascii z)%N) by (eapply N.lt_trans; eassumption).
    apply N.compare_lt_iff in Hxz. now rewrite Hxz.
Qed.

Lemma string_ltb_irrefl s : String.ltb s s = false.
Proof. unfold String.ltb. now rewrite string_compare_refl. Qed.

Lemma string_ltb_trans a b c :
  String.ltb a b = true -> String.ltb b c = true -> String.ltb a c = true.
Proof.
  unfold String.ltb. intros H1 H2.
  destruct (String.compare a b) eqn:E1; try discriminate.
  destruct (String.compare b c) eqn:E2; try discriminate.
  now rewrite (string_compare_lt_trans a b c E1 E2).
Qed.

Lemma string_ltb_total a b :
  String.ltb a b = false -> String.ltb b a = false -> a = b.
Proof.
  unfold String.ltb. rewrite (String.compare_antisym b a).
  destruct (String.compare a b) eqn:E; simpl; try discriminate.
  intros _ _. now apply String.compare_eq_iff.
Qed.

(** [operator<] on vectors of strings. *)

Lemma lines_lt_irrefl a : lines_lt a a = false.
Proof.
  induction a as [|x a IH]; [reflexivity|]. simpl.
  now rewrite string_ltb_irrefl.
Qed.

Lemma lines_lt_trans a : forall b c,
  lines_lt a b = true -> lines_lt b c = true -> lines_lt a c = true.
Proof.
  induction a as [|x a IH]; intros [|y b] [|z c]; simpl;
    try discriminate; try reflexivity.
  destruct (String.ltb x y) eqn:Exy.
  - intros _. destruct (String.ltb y z) eqn:Eyz.
    + intros _. now rewrite (string_ltb_trans x y z Exy Eyz).
    + destruct (String.ltb z y) eqn:Ezy; [discriminate|].
      pose proof (string_ltb_total _ _ Eyz Ezy). subst. now rewrite Exy.
  - destruct (String.ltb y x) eqn:Eyx; [discriminate|].
    pose proof (string_ltb_total _ _ Exy Eyx). subst.
    destruct (String.ltb y z); [reflexivity|].
    destruct (String.ltb z y); [discriminate|]. apply IH.
Qed.

Lemma lines_lt_total a : forall b,
  lines_lt a b = false -> lines_lt b a = false -> a = b.
Proof.
  induction a as [|x a IH]; intros [|y b]; simpl; try discriminate;
    [reflexivity|].
  destruct (String.ltb x y) eqn:Exy; [discriminate|].
  destruct (String.ltb y x) eqn:Eyx; [discriminate|].
  pose proof (string_ltb_total _ _ Exy Eyx). subst.
  intros H1 H2. f_equal. now apply IH.
Qed.

(** The comparator of [print_yaml] is a strict total order on hits. *)

Lemma hit_before_irrefl h : hit_before h h = false.
Proof.
  unfold hit_before. rewrite String.eqb_refl, Nat.eqb_refl. simpl.
  apply Nat.ltb_irrefl.
Qed.

Lemma hit_before_trans a b c :
  hit_before a b = true -> hit_before b c = true -> hit_before a c = true.
Proof.
  unfold hit_before.
  destruct (String.eqb_spec (h_path a) (h_path b)) as [Eab|Nab];
    destruct (String.eqb_spec (h_path b) (h_path c)) as [Ebc|Nbc];
    destruct (String.eqb_spec (h_path a) (h_path c)) as [Eac|Nac];
    simpl.
  - destruct (Nat.eqb_spec (start_line a) (start_line b));
      destruct (Nat.eqb_spec (start_line b) (start_line c));
      destruct (Nat.eqb_spec (start_line a) (start_line c));
      simpl; rewrite ?Nat.ltb_lt; lia.
  - congruence.
  - congruence.
  - rewrite Eab. tauto.
  - congruence.
  - rewrite <- Ebc. tauto.
  - intros H1 H2. rewrite Eac in H1.
    pose proof (string_ltb_trans _ _ _ H1 H2) as H.
    now rewrite string_ltb_irrefl in H.
  - apply string_ltb_trans.
Qed.

Lemma hit_before_total a b :
  hit_before a b = false -> hit_before b a = false -> a = b.
Proof.
  unfold hit_before. rewrite (String.eqb_sym (h_path b)).
  rewrite (Nat.eqb_sym (start_line b)).
  destruct (String.eqb_spec (h_path a) (h_path b)) as [Eab|Nab]; simpl.
  - destruct (Nat.eqb_spec (start_line a) (start_line b)) as [Es|Ns]; simpl;
      rewrite !Nat.ltb_ge; intros H1 H2; [|lia].
    destruct a, b; simpl in *. f_equal; [assumption|assumption|lia].
  - intros H1 H2. exfalso. apply Nab. now apply string_ltb_total.
Qed.

Lemma first_line_decides a0 ta b0 tb :
  a0 <> b0 -> String.ltb a0 b0 = lines_lt (a0 :: ta) (b0 :: tb).
Proof.
  intros Hne. simpl. destruct (String.ltb a0 b0) eqn:E1; [reflexivity|].
  destruct (String.ltb b0 a0) eqn:E2; [reflexivity|].
  exfalso. apply Hne. now apply string_ltb_total.
Qed.

Lemma block_before_iff a b :
  block_before a b = true <-> block_precedes a b.
Proof.
  unfold block_before, block_precedes.
  destruct (Nat.eqb_spec (List.length (b_lines a)) (List.length (b_lines b)))
    as [El|Nl]; simpl; [|rewrite Nat.ltb_lt; lia].
  destruct (Nat.eqb_spec (List.length (b_hits a)) (List.length (b_hits b)))
    as [Eh|Nh]; simpl; [|rewrite Nat.ltb_lt; lia].
  assert (E : match b_lines a, b_lines b with
              | a0 :: _, b0 :: _ =>
                  if negb (String.eqb a0 b0) then String.ltb a0 b0
                  else lines_lt (b_lines a) (b_lines b)
              | _, _ => lines_lt (b_lines a) (b_lines b)
              end = lines_lt (b_lines a) (b_lines b)).
  { destruct (b_lines a) as [|a0 ta], (b_lines b) as [|b0 tb];
      try reflexivity.
    destruct (String.eqb_spec a0 b0); simpl; [reflexivity|].
    now apply first_line_decides. }
  rewrite E. split; [intros H; right; split; [exact El|]; right; now split|].
  intros [H|(_ & [H|(_ & H)])]; [lia|lia|exact H].
Qed.

Lemma block_before_false_iff a b :
  block_before a b = false <-> ~ block_precedes a b.
Proof.
  rewrite <- block_before_iff. destruct (block_before a b); split;
    congruence.
Qed.

Lemma block_before_asym a b :
  block_before a b = true -> block_before b a = false.
Proof.
  rewrite block_before_iff, block_before_false_iff. unfold block_precedes.
  intros H H'.
  assert (lines_lt (b_lines a) (b_lines b) = true
          /\ lines_lt (b_lines b) (b_lines a) = true) as [H1 H2]
      by (split; destruct H as [H|(? & [H|(? & H)])];
          destruct H' as [H'|(? & [H'|(? & H')])]; solve [lia|assumption]).
  pose proof (lines_lt_trans _ _ _ H1 H2) as Hc.
  now rewrite lines_lt_irrefl in Hc.
Qed.

Lemma block_precedes_dec a b : block_precedes a b \/ ~ block_precedes a b.
Proof.
  rewrite <- block_before_iff. destruct (block_before a b); [now left|].
  right. discriminate.
Qed.

Lemma block_before_negtrans a b c :
  block_before a b = false -> block_before b c = false ->
  block_before a c = false.
Proof.
  rewrite !block_before_false_iff. unfold block_precedes.
  intros Hab Hbc Hac.
  destruct (Nat.lt_trichotomy (List.length (b_lines a))
              (List.length (b_lines b))) as [?|[El1|?]];
    destruct (Nat.lt_trichotomy (List.length (b_lines b))
                (List.length (b_lines c))) as [?|[El2|?]];
    try solve [apply Hab; lia | apply Hbc; lia
              | destruct Hac as [?|[? _]]; lia].
  destruct (Nat.lt_trichotomy (List.length (b_hits a))
              (List.length (b_hits b))) as [?|[Eh1|?]];
    destruct (Nat.lt_trichotomy (List.length (b_hits b))
                (List.length (b_hits c))) as [?|[Eh2|?]];
    try solve [apply Hab; lia | apply Hbc; lia
              | destruct Hac as [?|[? [?|[? _]]]]; lia].
  destruct (lines_lt (b_lines a) (b_lines b)) eqn:L1;
    [apply Hab; right; split; [lia|]; right; split; [lia|reflexivity]|].
  destruct (lines_lt (b_lines b) (b_lines c)) eqn:L2;
    [apply Hbc; right; split; [lia|]; right; split; [lia|reflexivity]|].
  pose proof (strict_negtrans lines_lt lines_lt_trans lines_lt_total
                _ _ _ L1 L2) as L3.
  destruct Hac as [?|[? [?|[? L]]]]; try lia. congruence.
Qed.

(** Blocks that the comparator cannot separate carry the same lines. *)
Lemma block_before_incomparable a b :
  block_before a b = false -> block_before b a = false ->
  b_lines a = b_lines b.
Proof.
  rewrite !block_before_false_iff. unfold block_precedes. intros H1 H2.
  apply lines_lt_total.
  - destruct (lines_lt (b_lines a) (b_lines b)) eqn:L; [|reflexivity].
    exfalso. destruct (Nat.lt_trichotomy (List.length (b_lines a))
                         (List.length (b_lines b))) as [?|[?|?]];
      [apply H2; lia| |apply H1; lia].
    destruct (Nat.lt_trichotomy (List.length (b_hits a))
                (List.length (b_hits b))) as [?|[?|?]];
      [apply H2; lia|apply H1; right; split; [lia|]; right; now split
      |apply H1; lia].
  - destruct (lines_lt (b_lines b) (b_lines a)) eqn:L; [|reflexivity].
    exfalso. destruct (Nat.lt_trichotomy (List.length (b_lines a))
                         (List.length (b_lines b))) as [?|[?|?]];
      [apply H2; lia| |apply H1; lia].
    destruct (Nat.lt_trichotomy (List.length (b_hits a))
                (List.length (b_hits b))) as [?|[?|?]];
      [apply H2; lia|apply H2; right; split; [lia|]; right; now split
      |apply H1; lia].
Qed.

(** ** The pipeline as a whole *)

Lemma Forall2_In_r {A B} (R : A -> B -> Prop) l l' y :
  Forall2 R l l' -> In y l' -> exists x, In x l /\ R x y.
Proof.
  induction 1 as [|a b l l' Hab Hf IH]; intros Hin; [destruct Hin|].
  destruct Hin as [<-|Hin].
  - exists a. split; [now left|exact Hab].
  - destruct (IH Hin) as (x & Hx & Hr). exists x. split; [now right|exact Hr].
Qed.

Lemma Forall2_map_eq {A B} (R : A -> B -> Prop) (f : A -> B) l l' :
  (forall x y, In x l -> R x y -> y = f x) ->
  Forall2 R l l' -> l' = map f l.
Proof.
  intros H Hf. induction Hf as [|a b l l' Hab Hf IH]; [reflexivity|].
  simpl. f_equal.
  - apply H; [now left|exact Hab].
  - apply IH. intros x y Hx. apply H. now right.
Qed.

Lemma Forall2_map_r {A B} (R : A -> B -> Prop) (f : A -> B) l :
  (forall x, In x l -> R x (f x)) -> Forall2 R l (map f l).
Proof.
  induction l as [|a l IH]; intros H; simpl; constructor.
  - apply H. now left.
  - apply IH. intros x Hx. apply H. now right.
Qed.

Lemma In_collect_block b entry :
  In b (collect_block entry) ->
  b = mkBlock (agg_lines (snd entry)) (agg_hits (snd entry))
  /\ 2 <= List.length (agg_hits (snd entry)).
Proof.
  unfold collect_block.
  destruct (Nat.leb_spec 2 (List.length (agg_hits (snd entry))));
    [|intros []].
  intros [<-|[]]. split; [reflexivity|assumption].
Qed.

(** Where a block of a run comes from. *)
Lemma find_repeated_blocks_member files min_lines ign blocks b :
  find_repeated_blocks_loaded files min_lines ign blocks -> In b blocks ->
  exists order1 K agg,
    Permutation (build_seeds files min_lines ign) order1
    /\ In (K, agg) (by_content_of files min_lines ign order1)
    /\ 2 <= List.length (agg_hits agg)
    /\ b = mkBlock (agg_lines agg) (agg_hits agg).
Proof.
  intros [order1 order2 P1 P2] Hin.
  apply in_flat_map in Hin as ([K agg] & He & Hb).
  apply In_collect_block in Hb as [-> Hlen]. simpl in *.
  exists order1, K, agg. repeat split; try assumption.
  eapply Permutation_in; [symmetry; exact P2|exact He].
Qed.

(** Where an emitted block comes from. *)
Lemma detect_duplicates_member files min_lines ign out b :
  detect_duplicates files min_lines ign out -> In b out ->
  exists order1 K agg,
    Permutation (build_seeds files min_lines ign) order1
    /\ In (K, agg) (by_content_of files min_lines ign order1)
    /\ 2 <= List.length (agg_hits agg)
    /\ b_lines b = agg_lines agg
    /\ std_sorted hit_before (agg_hits agg) (b_hits b).
Proof.
  intros (blocks & sorted & Hfind & [Hp _] & Hemit) Hin.
  destruct (Forall2_In_r _ _ _ _ Hemit Hin) as (b0 & Hb0 & Hl & Hs).
  assert (Hb : In b0 blocks)
    by (eapply Permutation_in; [symmetry; exact Hp|exact Hb0]).
  destruct (find_repeated_blocks_member _ _ _ _ _ Hfind Hb)
    as (order1 & K & agg & P1 & He & Hlen & ->).
  exists order1, K, agg. simpl in *. repeat split; try assumption.
  - apply Hs.
  - apply Hs.
Qed.

Lemma find_repeated_blocks_fn_run files min_lines ign :
  find_repeated_blocks_loaded files min_lines ign
    (find_repeated_blocks_fn files min_lines ign).
Proof.
  apply (frb_intro files min_lines ign (build_seeds files min_lines ign));
    apply Permutation_refl.
Qed.

Lemma detect_duplicates_fn_run files min_lines ign :
  detect_duplicates files min_lines ign
    (detect_duplicates_fn files min_lines ign).
Proof.
  exists (find_repeated_blocks_fn files min_lines ign),
         (sort_by block_before (find_repeated_blocks_fn files min_lines ign)).
  split; [apply find_repeated_blocks_fn_run|]. split.
  - apply sort_by_std_sorted;
      [apply block_before_asym|apply block_before_negtrans].
  - apply Forall2_map_r. intros b _. split; [reflexivity|].
    apply sort_by_std_sorted.
    + apply (strict_asym hit_before hit_before_irrefl hit_before_trans).
    + apply (strict_negtrans hit_before hit_before_trans hit_before_total).
Qed.

Section Determinism.
Variables (files : list FileData) (min_lines : nat) (ign : bool).
Hypothesis Hwf : lines_wf files.
Hypothesis Hmin : 1 <= min_lines.

Lemma canonical_lines order K agg :
  canonical_entry files min_lines ign order K agg ->
  K = join_lines_norm (agg_lines agg) 0 (List.length (agg_lines agg)) ign.
Proof.
  intros (e & _ & _ & -> & ->). rewrite merge_block_lines. reflexivity.
Qed.

(** Two blocks of one run with the same lines are the same block. *)
Lemma same_lines_same_block blocks x y :
  find_repeated_blocks_loaded files min_lines ign blocks ->
  In x blocks -> In y blocks -> b_lines x = b_lines y -> x = y.
Proof.
  intros [order1 order2 P1 P2] Hx Hy E.
  apply in_flat_map in Hx as ([K1 a1] & He1 & Hb1).
  apply in_flat_map in Hy as ([K2 a2] & He2 & Hb2).
  apply In_collect_block in Hb1 as [-> _].
  apply In_collect_block in Hb2 as [-> _]. simpl in *.
  assert (H1 : In (K1, a1) (by_content_of files min_lines ign order1))
    by (eapply Permutation_in; [symmetry; exact P2|exact He1]).
  assert (H2 : In (K2, a2) (by_content_of files min_lines ign order1))
    by (eapply Permutation_in; [symmetry; exact P2|exact He2]).
  assert (I1 : incl order1 (build_seeds files min_lines ign)).
  { intros e He. eapply Permutation_in; [symmetry; exact P1|exact He]. }
  pose proof (canonical_lines _ _ _
                (by_content_canonical files min_lines ign Hwf Hmin
                   _ _ _ I1 H1)) as HK1.
  pose proof (canonical_lines _ _ _
                (by_content_canonical files min_lines ign Hwf Hmin
                   _ _ _ I1 H2)) as HK2.
  rewrite E in HK1. rewrite <- HK2 in HK1. subst K2.
  pose proof (by_content_NoDup files min_lines ign order1) as Hnd.
  apply (umap_find_In _ _ _ Hnd) in H1, H2.
  rewrite H1 in H2. now inversion H2.
Qed.

(** The emitted sequence is the same in every run. *)
Theorem detect_duplicates_unique out :
  detect_duplicates files min_lines ign out ->
  out = detect_duplicates_fn files min_lines ign.
Proof.
  intros (blocks & sorted & Hfind & Hsort & Hemit).
  assert (Hs : sorted
               = sort_by block_before
                   (find_repeated_blocks_fn files min_lines ign)).
  { apply (std_sorted_unique block_before blocks
             (find_repeated_blocks_fn files min_lines ign)).
    - intros x y Hx Hy H1 H2.
      apply (same_lines_same_block blocks); try assumption.
      now apply block_before_incomparable.
    - now apply find_repeated_blocks_perm.
    - exact Hsort.
    - apply sort_by_std_sorted;
        [apply block_before_asym|apply block_before_negtrans]. }
  subst sorted. unfold detect_duplicates_fn.
  apply (Forall2_map_eq emitted emit_block); [|exact Hemit].
  intros b b' _ [Hl Hh]. destruct b' as [l' h']. simpl in *.
  unfold emit_block. subst l'. f_equal.
  apply (std_sorted_unique hit_before (b_hits b) (b_hits b)).
  - intros x y _ _. apply hit_before_total.
  - apply Permutation_refl.
  - exact Hh.
  - apply sort_by_std_sorted.
    + apply (strict_asym hit_before hit_before_irrefl hit_before_trans).
    + apply (strict_negtrans hit_before hit_before_trans hit_before_total).
Qed.
End Determinism.

(** ** What every aggregate records, whatever the lines hold *)

Section Provenance.
Variables (files : list FileData) (min_lines : nat) (ign : bool).
Hypothesis Hmin : 1 <= min_lines.

Local Abbreviation seeds := (build_seeds files min_lines ign).

Lemma group_shape_exist K occs :
  In (K, occs) seeds -> exists o0 b n, group_shape files min_lines ign K occs o0 b n.
Proof.
  intros Hin. pose proof (seed_bucket_nonempty _ _ _ _ _ Hin) as Hne.
  destruct occs as [|o0 rest]; [congruence|].
  destruct (build_maximal_block_shape files o0 rest min_lines ign)
    as (b & n & Hb & Hext).
  exists o0, b, n. constructor.
  - reflexivity.
  - exact Hb.
  - exact Hext.
  - intros oc Hoc. now apply (in_seed_bucket _ _ _ _ _ oc Hin).
Qed.

Lemma gs_head_in K occs o0 b n :
  group_shape files min_lines ign K occs o0 b n -> In o0 occs.
Proof.
  intros G. pose proof (gs_head _ _ _ _ _ _ _ _ G) as H.
  destruct occs; inversion H. now left.
Qed.

Lemma gs_fits K occs o0 b n oc :
  group_shape files min_lines ign K occs o0 b n -> In oc occs ->
  fits files n (shift_back b oc).
Proof.
  intros G H. eapply ext_fits;
    [apply (gs_ext _ _ _ _ _ _ _ _ G)|apply (gs_fit _ _ _ _ _ _ _ _ G)|exact H].
Qed.

Lemma gs_lines_length K occs o0 b n :
  group_shape files min_lines ign K occs o0 b n ->
  List.length (b_lines (group_block files min_lines ign (K, occs))) = n
  /\ min_lines <= n.
Proof.
  intros G. rewrite (gs_block _ _ _ _ _ _ _ _ G). simpl.
  destruct (gs_fits _ _ _ _ _ o0 G (gs_head_in _ _ _ _ _ G)) as [_ Hsz].
  split; [apply slice_length; exact Hsz|].
  apply (ext_seed _ _ _ _ _ _ _ (gs_ext _ _ _ _ _ _ _ _ G)).
Qed.

Lemma by_content_recorded order K agg :
  incl order seeds ->
  In (K, agg) (by_content_of files min_lines ign order) ->
  recorded files min_lines ign order K agg.
Proof.
  intros Hincl.
  apply (by_content_invariant files min_lines ign (recorded files min_lines ign order) order).
  clear K agg. intros entry agg0 Hin Hlen block H.
  assert (Hc : contributes files min_lines ign order (content_key ign block) entry)
    by (repeat split; assumption).
  destruct H as [H|(G & (e0 & Hc0 & Hl0 & Hi0) & Hall)].
  - subst agg0. split; [apply merge_block_good, good_empty_agg|]. split.
    + exists entry. split; [exact Hc|]. split.
      * now rewrite merge_block_lines.
      * intros h Hh. apply merge_block_In; [apply good_empty_agg|now right].
    + intros h Hh. apply merge_block_In in Hh; [|apply good_empty_agg].
      destruct Hh as [[]|Hh]. exists entry. split; assumption.
  - split; [now apply merge_block_good|]. split.
    + exists e0. split; [exact Hc0|]. split.
      * rewrite merge_block_lines. rewrite Hl0.
        destruct Hc0 as (Hin0 & _ & _). destruct e0 as [K0 occs0].
        destruct (group_shape_exist _ _ (Hincl _ Hin0)) as (o0 & b & n & G0).
        destruct (gs_lines_length _ _ _ _ _ G0) as [Hn Hge].
        destruct (b_lines (group_block files min_lines ign (K0, occs0)));
          [simpl in Hn; lia|reflexivity].
      * intros h Hh. apply merge_block_In; [exact G|]. left. now apply Hi0.
    + intros h Hh. apply merge_block_In in Hh; [|exact G].
      destruct Hh as [Hh|Hh]; [now apply Hall|].
      exists entry. split; assumption.
Qed.
End Provenance.

(** * The specification's properties *)

Lemma scenario_A_wf : lines_wf scenario_A.
Proof. repeat constructor. Qed.

Lemma by_content_good files min_lines ign order K agg :
  In (K, agg) (by_content_of files min_lines ign order) -> good_agg agg.
Proof.
  apply (by_content_invariant files min_lines ign (fun _ a => good_agg a)
           order).
  intros entry agg0 _ _ block [->|G]; apply merge_block_good;
    [apply good_empty_agg|exact G].
Qed.

(** The part of the fourth claim that holds in every run: a block of
    the final output has at least two hits, and its hits are pairwise
    distinct as (path, start_line, end_line) triples.  A path is the
    string that names the file; what happens when two strings name one
    file is shown at the end of the development. *)
Theorem C4_two_distinct_hits files min_lines ign out b :
  detect_duplicates files min_lines ign out ->
  In b out ->
  2 <= List.length (b_hits b) /\ NoDup (b_hits b).
Proof.
  intros Hrun Hin.
  destruct (detect_duplicates_member _ _ _ _ _ Hrun Hin)
    as (order1 & K & agg & _ & He & Hlen & _ & Hp & _).
  destruct (by_content_good _ _ _ _ _ _ He) as [Hnd _].
  split.
  - now rewrite <- (Permutation_length Hp).
  - eapply Permutation_NoDup; eassumption.
Qed.

Lemma C4_two_distinct_hits_witness :
  detect_duplicates scenario_A 3 false (detect_duplicates_fn scenario_A 3 false)
  /\ In (mkBlock ["B"; "C"; "D"; "E"]
           [mkHit "file1" 2 5; mkHit "file2" 1 4])
        (detect_duplicates_fn scenario_A 3 false)
  /\ 2 <= List.length [mkHit "file1" 2 5; mkHit "file2" 1 4]
  /\ NoDup [mkHit "file1" 2 5; mkHit "file2" 1 4].
Proof.
  assert (Hrun := detect_duplicates_fn_run scenario_A 3 false).
  assert (Hin : In (mkBlock ["B"; "C"; "D"; "E"]
                      [mkHit "file1" 2 5; mkHit "file2" 1 4])
                   (detect_duplicates_fn scenario_A 3 false))
    by (vm_compute; left; reflexivity).
  split; [exact Hrun|]. split; [exact Hin|].
  exact (C4_two_distinct_hits scenario_A 3 false _ _ Hrun Hin).
Defined.

(** C5. For every block of the final output and every hit of it,
    [end_line - start_line + 1] is the number of stored lines (and the
    range is a proper 1-based range), whichever seed group contributed
    the hit. *)
Theorem C5_range_consistency files min_lines ign out b h :
  lines_wf files -> 1 <= min_lines ->
  detect_duplicates files min_lines ign out ->
  In b out -> In h (b_hits b) ->
  1 <= start_line h <= end_line h
  /\ end_line h - start_line h + 1 = List.length (b_lines b).
Proof.
  intros Hwf Hmin Hrun Hb Hh.
  destruct (detect_duplicates_member _ _ _ _ _ Hrun Hb)
    as (order1 & K & agg & P1 & He & _ & Hl & Hp & _).
  assert (I1 : incl order1 (build_seeds files min_lines ign)).
  { intros e Hin. eapply Permutation_in; [symmetry; exact P1|exact Hin]. }
  destruct (by_content_canonical files min_lines ign Hwf Hmin _ _ _ I1 He)
    as ([K0 occs] & Hin & _ & _ & ->).
  assert (Hh' : In h (b_hits (group_block files min_lines ign (K0, occs)))).
  { assert (In h (agg_hits (merge_block
                              (group_block files min_lines ign (K0, occs))
                              empty_agg))) as Hm
      by (eapply Permutation_in; [symmetry; exact Hp|exact Hh]).
    apply merge_block_In in Hm; [|apply good_empty_agg].
    destruct Hm as [[]|Hm]. exact Hm. }
  destruct (group_shape_exist files min_lines ign K0 occs (I1 _ Hin))
    as (o0 & bk & n & G).
  destruct (gs_lines_length _ _ _ _ _ _ _ _ G) as [Hlen Hn].
  replace (List.length (b_lines b)) with n
    by (rewrite Hl, merge_block_lines; exact (eq_sym Hlen)).
  rewrite (gs_block _ _ _ _ _ _ _ _ G) in Hh'. simpl in Hh'.
  apply in_map_iff in Hh' as (oc & <- & _). simpl. lia.
Qed.

Lemma C5_range_consistency_witness :
  lines_wf scenario_A /\ 1 <= 3
  /\ detect_duplicates scenario_A 3 false
       (detect_duplicates_fn scenario_A 3 false)
  /\ (1 <= 2 <= 5 /\ 5 - 2 + 1 = 4).
Proof.
  assert (Hrun := detect_duplicates_fn_run scenario_A 3 false).
  split; [exact scenario_A_wf|]. split; [lia|]. split; [exact Hrun|].
  refine (C5_range_consistency scenario_A 3 false _
            (mkBlock ["B"; "C"; "D"; "E"]
               [mkHit "file1" 2 5; mkHit "file2" 1 4])
            (mkHit "file1" 2 5) scenario_A_wf _ Hrun _ _).
  - lia.
  - vm_compute. left. reflexivity.
  - left. reflexivity.
Defined.

Lemma scenario_C_wf : lines_wf scenario_C.
Proof. repeat constructor. Qed.

(** With indentation ignored the two files are grouped, and the block
    carries the first file's lines as they stand. *)
Lemma scenario_C_output out :
  detect_duplicates scenario_C 3 true out ->
  out = [mkBlock ["a"; "b"; "  x"; "c"]
           [mkHit "file1" 1 4; mkHit "file2" 1 4]].
Proof.
  intros H.
  rewrite (detect_duplicates_unique scenario_C 3 true scenario_C_wf
             ltac:(lia) out H).
  vm_compute. reflexivity.
Qed.

(** C7. Comparison by stripped indentation decides grouping and
    extension only: the lines stored in an emitted block are a verbatim
    contiguous slice of the file of one of its own hits, at that hit's
    range, in either comparison mode. *)
Theorem C7_verbatim_lines files min_lines ign out b :
  1 <= min_lines ->
  detect_duplicates files min_lines ign out ->
  In b out ->
  exists f h,
    In f files /\ In h (b_hits b) /\ fd_path f = h_path h
    /\ end_line h <= List.length (fd_lines f)
    /\ b_lines b = slice (fd_lines f) (start_line h - 1) (end_line h).
Proof.
  intros Hmin Hrun Hb.
  destruct (detect_duplicates_member _ _ _ _ _ Hrun Hb)
    as (order1 & K & agg & P1 & He & _ & Hl & Hp & _).
  assert (I1 : incl order1 (build_seeds files min_lines ign)).
  { intros e Hin. eapply Permutation_in; [symmetry; exact P1|exact Hin]. }
  destruct (by_content_recorded files min_lines ign Hmin _ _ _ I1 He)
    as (_ & ([K0 occs] & (Hin & _ & _) & Hlines & Hincl) & _).
  destruct (group_shape_exist files min_lines ign K0 occs (I1 _ Hin))
    as (o0 & bk & n & G).
  pose proof (gs_head_in _ _ _ _ _ _ _ _ G) as H0.
  destruct (gs_fits _ _ _ _ _ _ _ _ o0 G H0) as [Hidx Hsz].
  rewrite (gs_block _ _ _ _ _ _ _ _ G) in Hlines, Hincl. simpl in *.
  exists (file_at files (file_index o0)),
         (hit_of files n (shift_back bk o0)).
  split; [apply nth_In; exact Hidx|]. split.
  - eapply Permutation_in; [exact Hp|]. apply Hincl.
    apply in_map, in_map, H0.
  - split; [reflexivity|]. unfold size_at in Hsz. simpl in *.
    split; [exact Hsz|]. rewrite Hl, Hlines. f_equal. lia.
Qed.

Lemma C7_verbatim_lines_witness :
  1 <= 3
  /\ detect_duplicates scenario_C 3 true (detect_duplicates_fn scenario_C 3 true)
  /\ detect_duplicates_fn scenario_C 3 true
     = [mkBlock ["a"; "b"; "  x"; "c"]
          [mkHit "file1" 1 4; mkHit "file2" 1 4]]
  /\ exists f h,
       In f scenario_C
       /\ In h [mkHit "file1" 1 4; mkHit "file2" 1 4]
       /\ fd_path f = h_path h
       /\ end_line h <= List.length (fd_lines f)
       /\ ["a"; "b"; "  x"; "c"]
          = slice (fd_lines f) (start_line h - 1) (end_line h).
Proof.
  assert (Hrun := detect_duplicates_fn_run scenario_C 3 true).
  split; [lia|]. split; [exact Hrun|].
  split; [vm_compute; reflexivity|].
  refine (C7_verbatim_lines scenario_C 3 true _
            (mkBlock ["a"; "b"; "  x"; "c"]
               [mkHit "file1" 1 4; mkHit "file2" 1 4]) _ Hrun _).
  - lia.
  - vm_compute. left. reflexivity.
Defined.

(** C2. Scenario A: file1 = [A, B, C, D, E] and file2 = [B, C, D, E, F]
    with [min_lines = 3] and exact comparison give exactly one block, of
    the four lines B, C, D, E, with the two hits file1:[2,5] and
    file2:[1,4]. *)
Theorem C2_scenario_A out :
  detect_duplicates scenario_A 3 false out ->
  out = [mkBlock ["B"; "C"; "D"; "E"]
           [mkHit "file1" 2 5; mkHit "file2" 1 4]].
Proof.
  intros H.
  rewrite (detect_duplicates_unique scenario_A 3 false scenario_A_wf
             ltac:(lia) out H).
  vm_compute. reflexivity.
Qed.

Lemma C2_scenario_A_witness :
  detect_duplicates scenario_A 3 false (detect_duplicates_fn scenario_A 3 false)
  /\ detect_duplicates_fn scenario_A 3 false
     = [mkBlock ["B"; "C"; "D"; "E"]
          [mkHit "file1" 2 5; mkHit "file2" 1 4]].
Proof.
  assert (Hrun := detect_duplicates_fn_run scenario_A 3 false).
  split; [exact Hrun|]. exact (C2_scenario_A _ Hrun).
Defined.

(** ** The ordering the specification asks for *)

Lemma lines_lt_false_lex_le a : forall b,
  lines_lt b a = false -> lex_le a b.
Proof.
  induction a as [|x a IH]; intros b H; [constructor|].
  destruct b as [|y b]; [discriminate|]. simpl in H.
  destruct (String.ltb y x) eqn:Eyx; [discriminate|].
  destruct (String.ltb x y) eqn:Exy; [now apply lex_le_lt|].
  pose proof (string_ltb_total _ _ Exy Eyx). subst y.
  apply lex_le_eq, IH, H.
Qed.

Lemma content_order_of_not_before a b :
  lines_lt b a = false -> content_order a b.
Proof.
  intros H. pose proof (lines_lt_false_lex_le _ _ H) as Hl.
  unfold content_order. destruct a as [|a0 ta], b as [|b0 tb]; try exact Hl.
  simpl in H. destruct (String.ltb b0 a0) eqn:Eba; [discriminate|].
  destruct (String.ltb a0 b0) eqn:Eab; [now left|].
  right. split; [now apply string_ltb_total|exact Hl].
Qed.

Lemma block_order_of_not_before a b a' b' :
  b_lines a' = b_lines a -> List.length (b_hits a') = List.length (b_hits a) ->
  b_lines b' = b_lines b -> List.length (b_hits b') = List.length (b_hits b) ->
  block_before b a = false -> block_order a' b'.
Proof.
  intros La Ha Lb Hb H. apply block_before_false_iff in H.
  unfold block_precedes in H. unfold block_order. rewrite La, Ha, Lb, Hb.
  destruct (Nat.lt_trichotomy (List.length (b_lines a))
              (List.length (b_lines b))) as [?|[El|?]];
    [exfalso; apply H; lia| |now left].
  right. split; [exact El|].
  destruct (Nat.lt_trichotomy (List.length (b_hits a))
              (List.length (b_hits b))) as [?|[Eh|?]];
    [exfalso; apply H; lia| |now left].
  right. split; [exact Eh|]. apply content_order_of_not_before.
  destruct (lines_lt (b_lines b) (b_lines a)) eqn:L; [|reflexivity].
  exfalso. apply H. right. split; [lia|]. right. split; [lia|reflexivity].
Qed.

Lemma hit_order_of_not_before a b : hit_before b a = false -> hit_order a b.
Proof.
  unfold hit_before, hit_order.
  destruct (String.eqb_spec (h_path b) (h_path a)) as [E|N]; simpl.
  - destruct (Nat.eqb_spec (start_line b) (start_line a)) as [Es|Ns]; simpl;
      rewrite Nat.ltb_ge; intros H; right; (split; [now symmetry|]); lia.
  - intros H. left.
    destruct (String.ltb (h_path a) (h_path b)) eqn:E; [reflexivity|].
    exfalso. apply N. now apply string_ltb_total.
Qed.

Lemma StronglySorted_Forall2 {A B} (R : A -> A -> Prop) (R' : B -> B -> Prop)
    (E : A -> B -> Prop) l l' :
  (forall x y x' y', E x x' -> E y y' -> R x y -> R' x' y') ->
  Forall2 E l l' -> StronglySorted R l -> StronglySorted R' l'.
Proof.
  intros H Hf. induction Hf as [|a b l l' Hab Hf IH]; intros Hs;
    [constructor|].
  inversion Hs as [|? ? Hs' Hall]; subst. constructor; [now apply IH|].
  rewrite Forall_forall in *. intros y' Hy'.
  destruct (Forall2_In_r _ _ _ _ Hf Hy') as (y & Hy & Hyy).
  eapply H; [exact Hab|exact Hyy|now apply Hall].
Qed.

Lemma StronglySorted_impl {A} (R R' : A -> A -> Prop) l :
  (forall x y, R x y -> R' x y) -> StronglySorted R l -> StronglySorted R' l.
Proof.
  intros H. induction 1 as [|a l Hs IH Hf]; constructor; [exact IH|].
  eapply Forall_impl; [|exact Hf]. intros y. apply H.
Qed.

(** C6. The emitted list is sorted by line count descending, then by
    hit count descending, then by the ascending content tie-break (first
    line, then the whole line sequence); and inside every emitted block
    the hits are sorted by path, then start line, then end line. *)
Theorem C6_ordering files min_lines ign out :
  detect_duplicates files min_lines ign out ->
  StronglySorted block_order out
  /\ forall b, In b out -> StronglySorted hit_order (b_hits b).
Proof.
  intros (blocks & sorted & _ & [_ Hs] & Hemit). split.
  - eapply (StronglySorted_Forall2 _ block_order emitted);
      [|exact Hemit|exact Hs].
    intros x y x' y' [Lx [Px _]] [Ly [Py _]] H. simpl in H.
    eapply block_order_of_not_before; [exact Lx| |exact Ly| |exact H].
    + symmetry. apply Permutation_length, Px.
    + symmetry. apply Permutation_length, Py.
  - intros b Hb.
    destruct (Forall2_In_r _ _ _ _ Hemit Hb) as (b0 & _ & _ & _ & Hh).
    eapply StronglySorted_impl; [|exact Hh].
    intros x y. apply hit_order_of_not_before.
Qed.

Lemma C6_ordering_witness :
  detect_duplicates scenario_sorted 2 false
    (detect_duplicates_fn scenario_sorted 2 false)
  /\ detect_duplicates_fn scenario_sorted 2 false
     = [ mkBlock ["p"; "q"; "r"] [mkHit "a.txt" 1 3; mkHit "b.txt" 1 3];
         mkBlock ["k"; "l"] [mkHit "b.txt" 8 9; mkHit "c.txt" 1 2];
         mkBlock ["y"; "z"] [mkHit "a.txt" 5 6; mkHit "b.txt" 5 6] ]
  /\ StronglySorted block_order (detect_duplicates_fn scenario_sorted 2 false)
  /\ forall b, In b (detect_duplicates_fn scenario_sorted 2 false) ->
               StronglySorted hit_order (b_hits b).
Proof.
  assert (Hrun := detect_duplicates_fn_run scenario_sorted 2 false).
  split; [exact Hrun|]. split; [vm_compute; reflexivity|].
  exact (C6_ordering scenario_sorted 2 false _ Hrun).
Defined.

(** ** Maximality, read off the emitted hits *)

Lemma file_of_at files idx :
  NoDup (map fd_path files) -> idx < List.length files ->
  file_of files (fd_path (file_at files idx)) = Some (file_at files idx).
Proof.
  unfold file_of, file_at. revert idx.
  induction files as [|f files IH]; intros idx Hnd Hidx; simpl in *; [lia|].
  inversion Hnd as [|? ? Hni Hnd']; subst.
  destruct idx as [|idx].
  - now rewrite String.eqb_refl.
  - destruct (String.eqb_spec (fd_path f) (fd_path (nth idx files no_file)))
      as [E|_].
    + exfalso. apply Hni. rewrite E. apply in_map, nth_In. lia.
    + apply IH; [exact Hnd'|lia].
Qed.

Lemma nth_error_line_at files idx k :
  k < List.length (fd_lines (file_at files idx)) ->
  nth_error (fd_lines (file_at files idx)) k = Some (line_at files idx k).
Proof. intros H. unfold line_at. now apply nth_error_nth'. Qed.

Lemma line_before_hit files n oc :
  NoDup (map fd_path files) -> file_index oc < List.length files ->
  start oc <= size_at files oc ->
  line_before files (hit_of files n oc)
  = if Nat.eqb (start oc) 0 then None
    else Some (line_at files (file_index oc) (start oc - 1)).
Proof.
  intros Hnd Hidx Hsz. unfold line_before, hit_of.
  cbn [h_path start_line end_line].
  rewrite file_of_at by assumption. unfold size_at in Hsz.
  destruct (Nat.eqb_spec (start oc) 0) as [E|N].
  - rewrite E. reflexivity.
  - destruct (Nat.leb_spec 2 (start oc + 1)); [|lia].
    replace (start oc + 1 - 2) with (start oc - 1) by lia.
    apply nth_error_line_at. lia.
Qed.

Lemma line_after_hit files n oc :
  NoDup (map fd_path files) -> file_index oc < List.length files ->
  line_after files (hit_of files n oc)
  = if Nat.ltb (start oc + n) (size_at files oc)
    then Some (line_at files (file_index oc) (start oc + n))
    else None.
Proof.
  intros Hnd Hidx. unfold line_after, hit_of.
  cbn [h_path start_line end_line].
  rewrite file_of_at by assumption. unfold size_at.
  destruct (Nat.ltb_spec (start oc + n)
              (List.length (fd_lines (file_at files (file_index oc))))).
  - now apply nth_error_line_at.
  - now apply nth_error_None.
Qed.

Lemma forallb_false_exists {A} (f : A -> bool) l :
  forallb f l = false -> exists x, In x l /\ f x = false.
Proof.
  induction l as [|a l IH]; simpl; [discriminate|].
  destruct (f a) eqn:E; simpl.
  - intros H. destruct (IH H) as (x & Hx & Hf). exists x. split; [now right|exact Hf].
  - intros _. exists a. split; [now left|exact E].
Qed.

Lemma equal_line_trans ign a b c :
  equal_line ign a b = true -> equal_line ign b c = true ->
  equal_line ign a c = true.
Proof. rewrite !equal_line_iff. congruence. Qed.

Lemma equal_line_sym ign a b :
  equal_line ign a b = true -> equal_line ign b a = true.
Proof. rewrite !equal_line_iff. congruence. Qed.

(** If the hits cannot all grow by one line, then next to any hit that
    has a neighbouring line stands another hit that has none or a
    different one. *)
Lemma not_extends_per_hit neighbour ign hits h l :
  ~ extends_with neighbour ign hits ->
  In h hits -> neighbour h = Some l ->
  exists h', In h' hits /\ h' <> h
             /\ neighbour_equals neighbour ign l h' = false.
Proof.
  intros Hno Hin Hl.
  destruct (forallb (neighbour_equals neighbour ign l) hits) eqn:E.
  - exfalso. apply Hno. exists l. intros h' Hh'.
    rewrite forallb_forall in E. specialize (E h' Hh').
    unfold neighbour_equals in E. destruct (neighbour h') as [l'|];
      [|discriminate].
    exists l'. split; [reflexivity|exact E].
  - apply forallb_false_exists in E as (h' & Hh' & Hf).
    exists h'. split; [exact Hh'|]. split; [|exact Hf].
    intros ->. unfold neighbour_equals in Hf. rewrite Hl in Hf.
    now rewrite equal_line_refl in Hf.
Qed.

Section Maximality.
Variables (files : list FileData) (min_lines : nat) (ign : bool).
Hypothesis Hpaths : NoDup (map fd_path files).
Hypothesis Hmin : 1 <= min_lines.

Lemma group_not_extends_backward K occs hits :
  In (K, occs) (build_seeds files min_lines ign) ->
  incl (b_hits (group_block files min_lines ign (K, occs))) hits ->
  ~ extends_with (line_before files) ign hits.
Proof.
  intros Hin Hincl [r Hr].
  destruct (group_shape_exist files min_lines ign K occs Hin)
    as (o0 & bk & n & G).
  rewrite (gs_block _ _ _ _ _ _ _ _ G) in Hincl. simpl in Hincl.
  apply (ext_back_stop _ _ _ _ _ _ _ (gs_ext _ _ _ _ _ _ _ _ G)).
  assert (Hone : forall oc, In oc occs ->
            start (shift_back bk oc) <> 0
            /\ nline files ign (shift_back bk oc) (start (shift_back bk oc) - 1)
               = norm_line ign r).
  { intros oc Hoc.
    destruct (gs_fits _ _ _ _ _ _ _ _ oc G Hoc) as [Hidx Hsz].
    destruct (Hr (hit_of files n (shift_back bk oc))) as (l & Hl & He).
    { apply Hincl. now apply in_map, in_map. }
    rewrite line_before_hit in Hl; [|exact Hpaths|exact Hidx|lia].
    destruct (Nat.eqb_spec (start (shift_back bk oc)) 0) as [E|N];
      [discriminate|].
    inversion Hl; subst l. split; [exact N|].
    now apply equal_line_iff in He. }
  intros oc' Hoc'. apply in_map_iff in Hoc' as (oc & <- & Hoc).
  destruct (Hone oc Hoc) as [Hs He]. split; [exact Hs|].
  destruct (Hone o0 (gs_head_in _ _ _ _ _ _ _ _ G)) as [_ He0].
  now rewrite He, He0.
Qed.

Lemma group_not_extends_forward K occs hits :
  In (K, occs) (build_seeds files min_lines ign) ->
  incl (b_hits (group_block files min_lines ign (K, occs))) hits ->
  ~ extends_with (line_after files) ign hits.
Proof.
  intros Hin Hincl [r Hr].
  destruct (group_shape_exist files min_lines ign K occs Hin)
    as (o0 & bk & n & G).
  rewrite (gs_block _ _ _ _ _ _ _ _ G) in Hincl. simpl in Hincl.
  apply (ext_fwd_stop _ _ _ _ _ _ _ (gs_ext _ _ _ _ _ _ _ _ G)).
  assert (Hone : forall oc, In oc occs ->
            start (shift_back bk oc) + n < size_at files (shift_back bk oc)
            /\ nline files ign (shift_back bk oc) (start (shift_back bk oc) + n)
               = norm_line ign r).
  { intros oc Hoc.
    destruct (gs_fits _ _ _ _ _ _ _ _ oc G Hoc) as [Hidx Hsz].
    destruct (Hr (hit_of files n (shift_back bk oc))) as (l & Hl & He).
    { apply Hincl. now apply in_map, in_map. }
    rewrite line_after_hit in Hl; [|exact Hpaths|exact Hidx].
    destruct (Nat.ltb_spec (start (shift_back bk oc) + n)
                (size_at files (shift_back bk oc))) as [Hlt|_];
      [|discriminate].
    inversion Hl; subst l. split; [exact Hlt|].
    now apply equal_line_iff in He. }
  intros oc' Hoc'. apply in_map_iff in Hoc' as (oc & <- & Hoc).
  destruct (Hone oc Hoc) as [Hs He]. split; [exact Hs|].
  destruct (Hone o0 (gs_head_in _ _ _ _ _ _ _ _ G)) as [_ He0].
  now rewrite He, He0.
Qed.
End Maximality.

(** C1. Every emitted block is maximal under the comparison in force:
    its hits cannot all be extended by the line before them, nor by the
    line after them; so next to every hit that has a line before
    [start_line] (after [end_line]) the block has another hit whose
    corresponding neighbour is missing or different.  This covers blocks
    whose hits were merged from several seed groups. *)
Theorem C1_maximal files min_lines ign out b :
  NoDup (map fd_path files) -> 1 <= min_lines ->
  detect_duplicates files min_lines ign out ->
  In b out ->
  (~ extends_with (line_before files) ign (b_hits b)
   /\ ~ extends_with (line_after files) ign (b_hits b))
  /\ (forall h l, In h (b_hits b) -> line_before files h = Some l ->
        exists h', In h' (b_hits b) /\ h' <> h
                   /\ neighbour_equals (line_before files) ign l h' = false)
  /\ (forall h l, In h (b_hits b) -> line_after files h = Some l ->
        exists h', In h' (b_hits b) /\ h' <> h
                   /\ neighbour_equals (line_after files) ign l h' = false).
Proof.
  intros Hpaths Hmin Hrun Hb.
  destruct (detect_duplicates_member _ _ _ _ _ Hrun Hb)
    as (order1 & K & agg & P1 & He & _ & _ & Hp & _).
  assert (I1 : incl order1 (build_seeds files min_lines ign)).
  { intros e Hin. eapply Permutation_in; [symmetry; exact P1|exact Hin]. }
  destruct (by_content_recorded files min_lines ign Hmin _ _ _ I1 He)
    as (_ & ([K0 occs] & (Hin & _ & _) & _ & Hincl) & _).
  assert (Hincl' : incl (b_hits (group_block files min_lines ign (K0, occs)))
                        (b_hits b)).
  { intros h Hh. eapply Permutation_in; [exact Hp|]. now apply Hincl. }
  assert (Hback : ~ extends_with (line_before files) ign (b_hits b)).
  { eapply group_not_extends_backward; eauto. }
  assert (Hfwd : ~ extends_with (line_after files) ign (b_hits b)).
  { eapply group_not_extends_forward; eauto. }
  split; [split; assumption|]. split.
  - intros h l. now apply not_extends_per_hit.
  - intros h l. now apply not_extends_per_hit.
Qed.

Lemma scenario_A_paths : NoDup (map fd_path scenario_A).
Proof.
  repeat constructor; simpl; intuition discriminate.
Qed.

Lemma C1_maximal_witness :
  NoDup (map fd_path scenario_A) /\ 1 <= 3
  /\ detect_duplicates scenario_A 3 false
       (detect_duplicates_fn scenario_A 3 false)
  /\ ~ extends_with (line_before scenario_A) false
         [mkHit "file1" 2 5; mkHit "file2" 1 4]
  /\ ~ extends_with (line_after scenario_A) false
         [mkHit "file1" 2 5; mkHit "file2" 1 4].
Proof.
  assert (Hrun := detect_duplicates_fn_run scenario_A 3 false).
  split; [exact scenario_A_paths|]. split; [lia|]. split; [exact Hrun|].
  refine (proj1 (C1_maximal scenario_A 3 false _
                   (mkBlock ["B"; "C"; "D"; "E"]
                      [mkHit "file1" 2 5; mkHit "file2" 1 4])
                   scenario_A_paths _ Hrun _)).
  - lia.
  - vm_compute. left. reflexivity.
Defined.

(** ** The representative of a block is its first hit *)

Lemma StronglySorted_nth {A} (R : A -> A -> Prop) (d : A) l :
  StronglySorted R l ->
  forall i j, i < j -> j < List.length l -> R (nth i l d) (nth j l d).
Proof.
  induction 1 as [|a l Hs IH Hf]; intros i j Hij Hj; simpl in Hj; [lia|].
  destruct j as [|j]; [lia|]. destruct i as [|i]; simpl.
  - rewrite Forall_forall in Hf. apply Hf, nth_In. lia.
  - apply IH; lia.
Qed.

Lemma paths_sorted_NoDup files :
  paths_sorted files -> NoDup (map fd_path files).
Proof.
  induction 1 as [|f files Hs IH Hf]; simpl; constructor; [|exact IH].
  intros Hin. apply in_map_iff in Hin as (g & Hp & Hg).
  rewrite Forall_forall in Hf. specialize (Hf g Hg).
  rewrite Hp, string_ltb_irrefl in Hf. discriminate.
Qed.

Lemma hit_of_before files n o1 o2 :
  paths_sorted files ->
  file_index o2 < List.length files ->
  occ_lt o1 o2 ->
  hit_before (hit_of files n o1) (hit_of files n o2) = true.
Proof.
  intros Hs Hi2 Hlt. unfold hit_before, hit_of, file_at.
  cbn [h_path start_line end_line]. destruct Hlt as [Hlt|[He Hlt]].
  - pose proof (StronglySorted_nth _ no_file files Hs _ _ Hlt Hi2) as Hp.
    cbv beta in Hp.
    destruct (String.eqb_spec (fd_path (nth (file_index o1) files no_file))
                (fd_path (nth (file_index o2) files no_file))) as [E|_];
      [|exact Hp].
    rewrite E, string_ltb_irrefl in Hp. discriminate.
  - rewrite He, String.eqb_refl.
    destruct (Nat.eqb_spec (start o1 + 1) (start o2 + 1)); [lia|].
    apply Nat.ltb_lt. lia.
Qed.

Lemma hits_sorted files n occs :
  paths_sorted files ->
  (forall oc, In oc occs -> file_index oc < List.length files) ->
  StronglySorted occ_lt occs ->
  StronglySorted (fun x y => hit_before x y = true)
    (map (hit_of files n) occs).
Proof.
  intros Hp Hidx Hs. induction Hs as [|a l Hs IH Hf]; simpl; constructor.
  - apply IH. intros oc Hoc. apply Hidx. now right.
  - apply Forall_map. rewrite Forall_forall in *. intros oc Hoc.
    apply hit_of_before; [exact Hp|apply Hidx; now right|now apply Hf].
Qed.

Lemma strictly_sorted_NoDup {A} (lt : A -> A -> bool) l :
  (forall x, lt x x = false) ->
  StronglySorted (fun x y => lt x y = true) l -> NoDup l.
Proof.
  intros Hirr. induction 1 as [|a l Hs IH Hf]; constructor; [|exact IH].
  intros Hin. rewrite Forall_forall in Hf. specialize (Hf a Hin).
  rewrite Hirr in Hf. discriminate.
Qed.

Lemma fold_add_hit_fresh hs : forall agg,
  good_agg agg -> NoDup hs ->
  (forall h, In h hs -> ~ In h (agg_hits agg)) ->
  agg_hits (fold_left add_hit hs agg) = agg_hits agg ++ hs.
Proof.
  induction hs as [|h hs IH]; intros agg G Hnd Hfresh; simpl.
  - now rewrite app_nil_r.
  - inversion Hnd as [|? ? Hni Hnd']; subst.
    assert (Hadd : agg_hits (add_hit agg h) = agg_hits agg ++ [h]).
    { unfold add_hit. destruct (existsb _ _) eqn:E; [|reflexivity].
      exfalso. apply existsb_eqb_In in E. apply (proj2 G) in E.
      destruct E as (h' & Hin & Hk). apply hit_key_inj in Hk. subst h'.
      apply (Hfresh h); [now left|exact Hin]. }
    rewrite IH; [|now apply add_hit_good|exact Hnd'|].
    + rewrite Hadd, <- app_assoc. reflexivity.
    + intros x Hx Hin. rewrite Hadd in Hin.
      apply in_app_iff in Hin as [Hin|[<-|[]]].
      * apply (Hfresh x); [now right|exact Hin].
      * contradiction.
Qed.

Lemma merge_block_fresh block :
  NoDup (b_hits block) ->
  agg_hits (merge_block block empty_agg) = b_hits block.
Proof.
  intros Hnd. rewrite merge_block_eq.
  rewrite fold_add_hit_fresh; [reflexivity| |exact Hnd|].
  - apply first_lines_good, good_empty_agg.
  - intros h _ [].
Qed.

(** With the files in path order, as [main] sorts them, an emitted block
    lists its hits in scan order, and its lines are the lines of the
    first of them. *)
Lemma emitted_block_first_hit files min_lines ign out b :
  lines_wf files -> 1 <= min_lines -> paths_sorted files ->
  detect_duplicates files min_lines ign out -> In b out ->
  exists h rest f,
    b_hits b = h :: rest
    /\ Forall (fun h' => hit_before h h' = true) rest
    /\ file_of files (h_path h) = Some f
    /\ b_lines b = slice (fd_lines f) (start_line h - 1) (end_line h).
Proof.
  intros Hwf Hmin Hsorted Hrun Hb.
  destruct (detect_duplicates_member _ _ _ _ _ Hrun Hb)
    as (order1 & K & agg & P1 & He & _ & Hl & Hp & Hs).
  assert (I1 : incl order1 (build_seeds files min_lines ign)).
  { intros e Hin. eapply Permutation_in; [symmetry; exact P1|exact Hin]. }
  destruct (by_content_canonical files min_lines ign Hwf Hmin _ _ _ I1 He)
    as ([K0 occs] & Hin & _ & _ & ->).
  destruct (group_shape_exist files min_lines ign K0 occs (I1 _ Hin))
    as (o0 & bk & n & G).
  pose proof (gs_head_in _ _ _ _ _ _ _ _ G) as H0.
  assert (Hstrict : StronglySorted (fun x y => hit_before x y = true)
                      (map (hit_of files n) (map (shift_back bk) occs))).
  { apply hits_sorted; [exact Hsorted| |].
    - intros oc' Hoc'. apply in_map_iff in Hoc' as (oc & <- & Hoc).
      now destruct (gs_fits _ _ _ _ _ _ _ _ oc G Hoc).
    - apply shift_back_sorted.
      + intros oc Hoc. eapply ext_start_ge;
          [apply (gs_ext _ _ _ _ _ _ _ _ G)|exact Hoc].
      + apply (seed_bucket_sorted files min_lines ign K0), I1, Hin. }
  rewrite merge_block_lines in Hl.
  change (agg_lines empty_agg) with (@nil string) in Hl. cbv iota in Hl.
  rewrite merge_block_fresh in Hp.
  2: rewrite (gs_block _ _ _ _ _ _ _ _ G); simpl;
     now apply (strictly_sorted_NoDup hit_before _ hit_before_irrefl).
  rewrite (gs_block _ _ _ _ _ _ _ _ G) in Hl, Hp. simpl in Hl, Hp.
  assert (Eh : map (hit_of files n) (map (shift_back bk) occs) = b_hits b).
  { apply (sorted_perm_unique hit_before).
    - intros x y _ _. apply hit_before_total.
    - exact Hp.
    - eapply StronglySorted_impl; [|exact Hstrict].
      intros x y. apply (strict_asym hit_before hit_before_irrefl
                           hit_before_trans).
    - exact Hs. }
  pose proof (gs_head _ _ _ _ _ _ _ _ G) as Hd.
  destruct occs as [|a rest]; [discriminate|]. simpl in Hd.
  inversion Hd; subst a. simpl in Eh, Hstrict.
  destruct (gs_fits _ _ _ _ _ _ _ _ o0 G H0) as [Hidx Hsz].
  exists (hit_of files n (shift_back bk o0)),
         (map (hit_of files n) (map (shift_back bk) rest)),
         (file_at files (file_index o0)).
  split; [now symmetry|]. split; [now inversion Hstrict|]. split.
  - unfold hit_of. simpl. apply file_of_at;
      [now apply paths_sorted_NoDup|exact Hidx].
  - rewrite Hl. simpl. f_equal. lia.
Qed.

(** C3. Two runs on the same loaded files and flags emit the same
    sequence of blocks, whatever order the hash maps are traversed in.
    The lines kept for a merged group do not depend on which
    contributing seed group is met first, because every contributing
    group builds the same block; and with the files in path order, as
    [main] sorts them, they are the lines at the block's smallest hit by
    (path, start line). *)
Theorem C3_deterministic files min_lines ign :
  lines_wf files -> 1 <= min_lines ->
  (forall out1 out2,
      detect_duplicates files min_lines ign out1 ->
      detect_duplicates files min_lines ign out2 ->
      out1 = out2)
  /\ (forall order1 K agg entry,
        Permutation (build_seeds files min_lines ign) order1 ->
        In (K, agg) (by_content_of files min_lines ign order1) ->
        In entry (build_seeds files min_lines ign) ->
        2 <= List.length (snd entry) ->
        content_key ign (group_block files min_lines ign entry) = K ->
        agg_lines agg = b_lines (group_block files min_lines ign entry))
  /\ (paths_sorted files ->
      forall out b,
        detect_duplicates files min_lines ign out -> In b out ->
        exists h rest f,
          b_hits b = h :: rest
          /\ Forall (fun h' => hit_before h h' = true) rest
          /\ file_of files (h_path h) = Some f
          /\ b_lines b = slice (fd_lines f) (start_line h - 1) (end_line h)).
Proof.
  intros Hwf Hmin. split; [|split].
  - intros out1 out2 H1 H2.
    rewrite (detect_duplicates_unique files min_lines ign Hwf Hmin out1 H1).
    now rewrite (detect_duplicates_unique files min_lines ign Hwf Hmin out2 H2).
  - intros order1 K agg [K1 occs1] P1 He Hin Hlen HK.
    assert (I1 : incl order1 (build_seeds files min_lines ign)).
    { intros e Hx. eapply Permutation_in; [symmetry; exact P1|exact Hx]. }
    destruct (by_content_canonical files min_lines ign Hwf Hmin _ _ _ I1 He)
      as ([K0 occs0] & Hin0 & _ & HK0 & ->).
    assert (E : group_block files min_lines ign (K0, occs0)
                = group_block files min_lines ign (K1, occs1)).
    { apply group_block_coherent; try assumption; [apply I1, Hin0|].
      congruence. }
    rewrite E, merge_block_lines. reflexivity.
  - intros Hsorted out b Hrun Hb.
    now apply (emitted_block_first_hit files min_lines ign out b).
Qed.

Lemma C3_deterministic_witness :
  lines_wf scenario_A /\ 1 <= 3
  /\ forall out1 out2,
       detect_duplicates scenario_A 3 false out1 ->
       detect_duplicates scenario_A 3 false out2 ->
       out1 = out2.
Proof.
  split; [exact scenario_A_wf|]. split; [lia|].
  exact (proj1 (C3_deterministic scenario_A 3 false scenario_A_wf
                  ltac:(lia))).
Defined.

(** ** No repeated window, no block *)

Lemma fold_process_skip files min_lines ign l : forall m,
  (forall e, In e l -> List.length (snd e) < 2) ->
  fold_left (process_group files min_lines ign) l m = m.
Proof.
  induction l as [|e l IH]; intros m H; simpl; [reflexivity|].
  rewrite IH by (intros x Hx; apply H; now right).
  unfold process_group.
  destruct (Nat.ltb_spec (List.length (snd e)) 2) as [_|Hge]; [reflexivity|].
  specialize (H e (or_introl eq_refl)). lia.
Qed.

Lemma no_repeated_window_empty files min_lines ign out :
  lines_wf files -> 1 <= min_lines ->
  (forall o1 o2,
      fits files min_lines o1 -> fits files min_lines o2 -> o1 <> o2 ->
      ~ agrees files ign o1 o2 min_lines) ->
  detect_duplicates files min_lines ign out ->
  out = [].
Proof.
  intros Hwf Hmin Hno (blocks & sorted & Hfind & [Hp _] & Hemit).
  assert (Hblocks : blocks = []).
  { destruct Hfind as [order1 order2 P1 P2].
    assert (Hsmall : forall e, In e order1 -> List.length (snd e) < 2).
    { intros [K occs] He.
      assert (Hin : In (K, occs) (build_seeds files min_lines ign))
        by (eapply Permutation_in; [symmetry; exact P1|exact He]).
      simpl. destruct occs as [|o1 [|o2 rest]]; simpl; try lia.
      exfalso.
      pose proof (seed_bucket_sorted _ _ _ _ _ Hin) as Hs.
      inversion Hs as [|? ? _ Hf]; subst.
      inversion Hf as [|? ? Hlt _]; subst.
      destruct (proj1 (in_seed_bucket _ _ _ _ _ o1 Hin) (or_introl eq_refl))
        as [F1 K1].
      destruct (proj1 (in_seed_bucket _ _ _ _ _ o2 Hin)
                  (or_intror (or_introl eq_refl))) as [F2 K2].
      apply (Hno o1 o2 F1 F2).
      - intros ->. now apply occ_lt_irrefl in Hlt.
      - rewrite <- K1, !seed_key_window in K2.
        now apply concat_window_inj in K2. }
    unfold by_content_of in P2.
    rewrite (fold_process_skip _ _ _ _ _ Hsmall) in P2.
    apply Permutation_nil in P2. now subst. }
  subst blocks. apply Permutation_nil in Hp. subst sorted.
  now inversion Hemit.
Qed.

(** Identical files shorter than [min_lines] hold no window at all. *)
Lemma identical_short_files_empty p1 p2 l min_lines ign out :
  Forall no_lf l -> 1 <= min_lines -> List.length l < min_lines ->
  detect_duplicates [mkFileData p1 l; mkFileData p2 l] min_lines ign out ->
  out = [].
Proof.
  intros Hl Hmin Hshort Hrun.
  refine (no_repeated_window_empty _ min_lines ign out _ Hmin _ Hrun).
  - repeat constructor; exact Hl.
  - intros o1 o2 [Hi Hs] _ _ _. unfold size_at, file_at in Hs.
    destruct o1 as [[|[|i]] s]; simpl in *; lia.
Qed.

(** C9. If no window of [min_lines] lines occurs, under the comparison
    in force, at two different (file, start offset) places of the loaded
    files, the result is empty; a seed bucket with a single occurrence
    leaves the aggregation untouched. *)
Theorem C9_no_repeat_empty files min_lines ign out :
  lines_wf files -> 1 <= min_lines ->
  (forall o1 o2,
      fits files min_lines o1 -> fits files min_lines o2 -> o1 <> o2 ->
      ~ agrees files ign o1 o2 min_lines) ->
  detect_duplicates files min_lines ign out ->
  out = []
  /\ forall by_content entry,
       List.length (snd entry) < 2 ->
       process_group files min_lines ign by_content entry = by_content.
Proof.
  intros Hwf Hmin Hno Hrun. split.
  - now apply (no_repeated_window_empty files min_lines ign).
  - intros by_content entry Hlen. unfold process_group.
    destruct (Nat.ltb_spec (List.length (snd entry)) 2); [reflexivity|lia].
Qed.

Lemma scenario_B_wf : lines_wf scenario_B.
Proof. repeat constructor. Qed.

Lemma scenario_B_no_window o1 o2 :
  fits scenario_B 3 o1 -> fits scenario_B 3 o2 -> o1 <> o2 ->
  ~ agrees scenario_B false o1 o2 3.
Proof.
  intros [Hi1 Hs1] [Hi2 Hs2] Hne Hag.
  specialize (Hag 2 ltac:(lia)). unfold size_at, file_at in Hs1, Hs2.
  destruct o1 as [[|[|i1]] s1], o2 as [[|[|i2]] s2]; simpl in *; try lia;
    assert (s1 = 0) by lia; assert (s2 = 0) by lia; subst;
    try congruence; vm_compute in Hag; discriminate.
Qed.

Lemma C9_no_repeat_empty_witness :
  lines_wf scenario_B /\ 1 <= 3
  /\ detect_duplicates scenario_B 3 false
       (detect_duplicates_fn scenario_B 3 false)
  /\ detect_duplicates_fn scenario_B 3 false = [].
Proof.
  assert (Hrun := detect_duplicates_fn_run scenario_B 3 false).
  split; [exact scenario_B_wf|]. split; [lia|]. split; [exact Hrun|].
  exact (proj1 (C9_no_repeat_empty scenario_B 3 false _ scenario_B_wf
                  ltac:(lia) scenario_B_no_window Hrun)).
Defined.

(** ** Termination *)

Lemma backward_step_decreases files ign occs :
  can_extend_backward files ign occs = true ->
  Forall (fun oc => 0 < start oc /\ start (dec_start oc) < start oc) occs.
Proof.
  intros H. destruct occs as [|o0 rest]; [constructor|].
  apply can_extend_backward_iff in H. apply Forall_forall.
  intros oc Hoc. destruct (H oc Hoc) as [Hne _]. simpl. lia.
Qed.

Lemma forward_step_bounded files ign occs len :
  can_extend_forward files ign occs len = true ->
  start (hd no_occ occs) + len < size_at files (hd no_occ occs).
Proof.
  intros H. destruct occs as [|o0 rest]; [discriminate|].
  apply can_extend_forward_iff in H.
  destruct (H o0 (or_introl eq_refl)) as [Hlt _]. exact Hlt.
Qed.

Lemma extend_backward_bounded files ign occs :
  exists b,
    extend_backward files ign occs = map (shift_back b) occs
    /\ b <= start (hd no_occ occs).
Proof.
  destruct (extend_backward_spec files ign occs) as (b & Hb & Hj & _).
  exists b. split; [exact Hb|].
  destruct b as [|b']; [lia|].
  specialize (Hj b' (Nat.lt_succ_diag_r b')).
  destruct occs as [|o0 rest]; [discriminate|].
  apply backward_step_decreases in Hj.
  inversion Hj as [|? ? [H0 _] _]; subst. simpl in H0. simpl. lia.
Qed.

Lemma extend_forward_bounded files ign occs seed_len :
  let n := extend_forward files ign occs seed_len in
  seed_len <= n
  /\ n <= Nat.max seed_len
            (size_at files (hd no_occ occs) - start (hd no_occ occs)).
Proof.
  destruct (extend_forward_spec files ign occs seed_len) as (Hle & Hj & _).
  cbv zeta. split; [exact Hle|].
  destruct (Nat.eq_dec (extend_forward files ign occs seed_len) seed_len)
    as [->|Hne]; [lia|].
  assert (Hr : seed_len
               <= extend_forward files ign occs seed_len - 1
               < extend_forward files ign occs seed_len) by lia.
  apply Hj, forward_step_bounded in Hr. lia.
Qed.

(** C10. On every non-empty group of occurrences both loops of
    [build_maximal_block] terminate: a pass of the backward loop lowers
    every occurrence's start offset, which cannot go below zero, so it
    makes at most [start] passes; a pass of the forward loop happens
    only while [start + length] is below the first occurrence's line
    count, and raises [length] by one, so the length it returns is
    bounded by that count.  Hence the block is always built, and every
    input has an emitted result. *)
Theorem C10_termination files ign occs seed_len :
  occs <> [] ->
  (can_extend_backward files ign occs = true ->
   Forall (fun oc => 0 < start oc /\ start (dec_start oc) < start oc) occs
   /\ extend_backward files ign occs
      = extend_backward files ign (map dec_start occs))
  /\ (forall len,
        can_extend_forward files ign occs len = true ->
        start (hd no_occ occs) + len < size_at files (hd no_occ occs)
        /\ extend_forward files ign occs len
           = extend_forward files ign occs (len + 1))
  /\ (exists b n,
        b <= start (hd no_occ occs)
        /\ seed_len <= n
        /\ n <= Nat.max seed_len
                  (size_at files (hd no_occ occs)
                   - (start (hd no_occ occs) - b))
        /\ build_maximal_block files occs seed_len ign
           = mkBlock
               (slice (fd_lines (file_at files (file_index (hd no_occ occs))))
                      (start (hd no_occ occs) - b)
                      (start (hd no_occ occs) - b + n))
               (map (hit_of files n) (map (shift_back b) occs)))
  /\ (forall min_lines, exists out,
        detect_duplicates files min_lines ign out).
Proof.
  intros Hne. split; [|split; [|split]].
  - intros H. split; [now apply (backward_step_decreases files ign)|].
    now rewrite extend_backward_step, H.
  - intros len H. split; [now apply (forward_step_bounded files ign)|].
    now rewrite extend_forward_step, H.
  - destruct (extend_backward_bounded files ign occs) as (b & Hb & Hle).
    exists b, (extend_forward files ign (map (shift_back b) occs) seed_len).
    pose proof (extend_forward_bounded files ign (map (shift_back b) occs)
                  seed_len) as [H1 H2].
    split; [exact Hle|]. split; [exact H1|].
    unfold build_maximal_block. rewrite Hb.
    destruct occs as [|o0 rest]; [congruence|]. simpl in *.
    split; [exact H2|reflexivity].
  - intros min_lines. exists (detect_duplicates_fn files min_lines ign).
    apply detect_duplicates_fn_run.
Qed.

Lemma C10_termination_witness :
  [mkOcc 0 2; mkOcc 1 1] <> []
  /\ build_maximal_block scenario_A [mkOcc 0 2; mkOcc 1 1] 3 false
     = mkBlock ["B"; "C"; "D"; "E"] [mkHit "file1" 2 5; mkHit "file2" 1 4]
  /\ exists out, detect_duplicates scenario_A 3 false out.
Proof.
  assert (Hne : [mkOcc 0 2; mkOcc 1 1] <> []) by discriminate.
  split; [exact Hne|]. split; [vm_compute; reflexivity|].
  exact (proj2 (proj2 (proj2
           (C10_termination scenario_A false [mkOcc 0 2; mkOcc 1 1] 3 Hne)))
           3).
Defined.

(** ** The glob predicate *)

(** C8. The translation of a run of stars does not accept every run of
    characters: on the relative path [a<LF>b] the pattern [**] is
    translated to [^.*$], whose dot stops at the line feed, so the path
    is rejected, although the single star [*], translated to [^[^/]*$],
    accepts it. *)
Theorem C8_double_star_rejects_line_feed :
  to_regex_from_glob_suffix "**" = "^.*$"
  /\ glob_matches "**" name_with_line_feed = false
  /\ to_regex_from_glob_suffix "*" = "^[^/]*$"
  /\ glob_matches "*" name_with_line_feed = true.
Proof. repeat split; vm_compute; reflexivity. Qed.

(** *** What the pattern means *)

Lemma glob_tokens_plain s : Forall plain_lit (glob_tokens s).
Proof.
  funelim (glob_tokens s); [constructor|].
  destruct (Ascii.eqb c STAR) eqn:E1.
  - constructor; [destruct (Nat.leb _ _); exact I|assumption].
  - destruct (Ascii.eqb c QUESTION) eqn:E2.
    + constructor; [exact I|assumption].
    + constructor; [split; assumption|assumption].
Qed.

Lemma glob_body_emit s : glob_body s = emit_all (glob_tokens s).
Proof.
  funelim (glob_body s); simp glob_tokens; [reflexivity|].
  destruct (Ascii.eqb c STAR) eqn:E1.
  - rewrite H. destruct (Nat.leb 2 (S (count_stars r))); reflexivity.
  - destruct (Ascii.eqb c QUESTION) eqn:E2.
    + rewrite H0. reflexivity.
    + rewrite H0. cbn [emit_all emit].
      destruct (is_escaped c); reflexivity.
Qed.

Lemma append_assoc_str a b c :
  String.append (String.append a b) c = String.append a (String.append b c).
Proof. induction a as [|x a IH]; simpl; [reflexivity|now rewrite IH]. Qed.

Lemma parse_pending a s :
  (forall r, s <> String STAR r) ->
  parse_items (Some a) s = option_map (cons (One a)) (parse_items None s).
Proof.
  intros Hs. destruct s as [|c r]; [reflexivity|].
  cbn [parse_items].
  destruct (Ascii.eqb_spec c STAR) as [->|_]; [now destruct (Hs r)|].
  destruct (Ascii.eqb c CARET);
    [destruct (parse_items None r); reflexivity|].
  destruct (Ascii.eqb c DOLLAR);
    [destruct (parse_items None r); reflexivity|].
  destruct (Ascii.eqb c DOT);
    [destruct (parse_items (Some AnyChar) r); reflexivity|].
  destruct (Ascii.eqb c BACKSLASH).
  { destruct r as [|x r']; [reflexivity|].
    destruct (parse_items (Some (Lit x)) r'); reflexivity. }
  destruct (Ascii.eqb c LBRACKET).
  { destruct r as [|c1 [|c2 [|c3 r']]]; try reflexivity.
    destruct (_ && _ && _)%bool; [|reflexivity].
    destruct (parse_items (Some NotSlash) r'); reflexivity. }
  destruct (is_other_syntax c); [reflexivity|].
  destruct (parse_items (Some (Lit c)) r); reflexivity.
Qed.

Lemma is_escaped_false c :
  is_escaped c = false ->
  Ascii.eqb c DOT = false /\ Ascii.eqb c CARET = false
  /\ Ascii.eqb c DOLLAR = false /\ Ascii.eqb c LBRACKET = false
  /\ Ascii.eqb c BACKSLASH = false
  /\ (Ascii.eqb c QUESTION = false -> is_other_syntax c = false).
Proof.
  unfold is_escaped, is_other_syntax. cbn [existsb]. intros H.
  repeat (apply orb_false_iff in H as [? H]).
  split; [assumption|]. split; [assumption|]. split; [assumption|].
  split; [assumption|]. split; [assumption|]. intros Hq.
  repeat (apply orb_false_iff; split); assumption.
Qed.

Lemma emit_all_head toks r :
  Forall plain_lit toks ->
  String.append (emit_all toks) "$" <> String STAR r.
Proof.
  intros H. destruct toks as [|t rest]; [discriminate|].
  inversion H as [|? ? Ht _]; subst. destruct t; try discriminate.
  cbn [emit_all emit]. destruct Ht as [Hs _].
  destruct (is_escaped c); simpl; [discriminate|].
  intros E. inversion E; subst. now rewrite Ascii.eqb_refl in Hs.
Qed.

Lemma parse_emit toks :
  Forall plain_lit toks ->
  parse_items None (String.append (emit_all toks) "$")
  = Some (map item_of toks ++ [AtEnd]).
Proof.
  induction 1 as [|t rest Ht Hrest IH]; [reflexivity|].
  cbn [emit_all]. rewrite append_assoc_str.
  assert (Hhead : forall r, String.append (emit_all rest) "$" <> String STAR r)
    by (intros r; now apply emit_all_head).
  destruct t; cbn [emit map item_of].
  - cbn. rewrite IH. reflexivity.
  - cbn. rewrite IH. reflexivity.
  - cbn. rewrite (parse_pending _ _ Hhead), IH. reflexivity.
  - destruct Ht as [Hs Hq]. destruct (is_escaped c) eqn:E.
    + cbn. rewrite (parse_pending _ _ Hhead), IH. reflexivity.
    + destruct (is_escaped_false c E) as (H1 & H2 & H3 & H4 & H5 & H6).
      cbn [String.append parse_items].
      rewrite Hs, H2, H3, H1, H5, H4, (H6 Hq).
      rewrite (parse_pending _ _ Hhead), IH. reflexivity.
Qed.

Lemma matches_many a rest b s :
  matches (Many a :: rest) b s
  = (matches rest b s
     || match s with
        | String c s' => atom_matches a c && matches (Many a :: rest) false s'
        | EmptyString => false
        end)%bool.
Proof. destruct s; reflexivity. Qed.

Lemma accepts_star_inv wide toks s :
  glob_accepts wide (TStar :: toks) s ->
  glob_accepts wide toks s
  \/ exists c s', s = String c s' /\ c <> SLASH
                  /\ glob_accepts wide (TStar :: toks) s'.
Proof.
  intros H. inversion H; subst; [now left|]. right. eauto.
Qed.

Lemma accepts_wide_inv wide toks s :
  glob_accepts wide (TStarStar :: toks) s ->
  glob_accepts wide toks s
  \/ exists c s', s = String c s' /\ wide c = true
                  /\ glob_accepts wide (TStarStar :: toks) s'.
Proof.
  intros H. inversion H; subst; [now left|]. right. eauto.
Qed.

Lemma not_slash_iff c : negb (Ascii.eqb c SLASH) = true <-> c <> SLASH.
Proof.
  destruct (Ascii.eqb_spec c SLASH); simpl; split; congruence.
Qed.

(** The matcher on the items of a token list decides [glob_accepts] with
    the dot's reading of a run of stars. *)
Lemma matches_tokens toks : forall b s,
  matches (map item_of toks ++ [AtEnd]) b s = true
  <-> glob_accepts dot_char toks s.
Proof.
  induction toks as [|t toks IH]; intros b s.
  - simpl. destruct s; split; try discriminate.
    + intros _. constructor.
    + reflexivity.
    + intros H. inversion H.
  - destruct t; cbn [map item_of List.app].
    + (* a single star *)
      revert b. induction s as [|c s IHs]; intros b; rewrite matches_many.
      * rewrite orb_false_r, IH. split; [apply ga_star_end|].
        intros H. apply accepts_star_inv in H as [H|(c & s' & E & _)];
          [exact H|discriminate].
      * rewrite orb_true_iff, andb_true_iff, IH, IHs. cbn [atom_matches].
        rewrite not_slash_iff. split.
        -- intros [H|[Hc H]]; [now apply ga_star_end|now apply ga_star_more].
        -- intros H. apply accepts_star_inv in H as [H|(c' & s' & E & Hc & H)];
             [now left|]. inversion E; subst. right. now split.
    + (* a run of stars *)
      revert b. induction s as [|c s IHs]; intros b; rewrite matches_many.
      * rewrite orb_false_r, IH. split; [apply ga_wide_end|].
        intros H. apply accepts_wide_inv in H as [H|(c & s' & E & _)];
          [exact H|discriminate].
      * rewrite orb_true_iff, andb_true_iff, IH, IHs. cbn [atom_matches].
        fold (dot_char c). split.
        -- intros [H|[Hc H]]; [now apply ga_wide_end|now apply ga_wide_more].
        -- intros H. apply accepts_wide_inv in H as [H|(c' & s' & E & Hc & H)];
             [now left|]. inversion E; subst. right. now split.
    + (* a question mark *)
      cbn [matches]. destruct s as [|c s].
      * split; [discriminate|]. intros H. inversion H.
      * rewrite andb_true_iff, IH. cbn [atom_matches]. rewrite not_slash_iff.
        split; [intros [Hc H]; now constructor|].
        intros H. inversion H; subst. now split.
    + (* any other character *)
      cbn [matches]. destruct s as [|x s].
      * split; [discriminate|]. intros H. inversion H.
      * rewrite andb_true_iff, IH. cbn [atom_matches]. split.
        -- intros [Hc H]. apply Ascii.eqb_eq in Hc. subst. now constructor.
        -- intros H. inversion H; subst. split; [apply Ascii.eqb_refl|assumption].
Qed.

Lemma glob_matches_accepts suffix rel :
  glob_matches suffix rel = true
  <-> glob_accepts dot_char (glob_tokens suffix) rel.
Proof.
  unfold glob_matches, regex_match, to_regex_from_glob_suffix.
  rewrite glob_body_emit.
  change (parse_items None
            (String.append "^"
               (String.append (emit_all (glob_tokens suffix)) "$")))
    with (option_map (fun l => flush None ++ AtBegin :: l)
            (parse_items None
               (String.append (emit_all (glob_tokens suffix)) "$"))).
  rewrite parse_emit by apply glob_tokens_plain.
  cbn [option_map flush List.app matches andb]. apply matches_tokens.
Qed.

(** X1. What the predicate of [expand_globs] accepts: the whole path has
    to match the units of the suffix, a run of stars standing for a run
    of characters other than line feed and carriage return. *)
Theorem glob_matches_iff suffix rel :
  glob_matches suffix rel = true
  <-> glob_accepts dot_char (glob_tokens suffix) rel.
Proof. apply glob_matches_accepts. Qed.

Lemma glob_accepts_ext wide1 wide2 toks s :
  (forall c, In c (list_ascii_of_string s) -> wide1 c = wide2 c) ->
  glob_accepts wide1 toks s -> glob_accepts wide2 toks s.
Proof.
  intros Hext H. induction H; simpl in Hext.
  - constructor.
  - constructor. apply IHglob_accepts. intros x Hx. apply Hext. now right.
  - constructor; [assumption|]. apply IHglob_accepts.
    intros x Hx. apply Hext. now right.
  - apply ga_star_end. now apply IHglob_accepts.
  - apply ga_star_more; [assumption|]. apply IHglob_accepts.
    intros x Hx. apply Hext. now right.
  - apply ga_wide_end. now apply IHglob_accepts.
  - apply ga_wide_more.
    + rewrite <- Hext; [assumption|now left].
    + apply IHglob_accepts. intros x Hx. apply Hext. now right.
Qed.

Lemma dot_char_true c : c <> LF -> c <> CR -> dot_char c = true.
Proof.
  intros H1 H2. unfold dot_char.
  destruct (Ascii.eqb_spec c LF); [contradiction|].
  destruct (Ascii.eqb_spec c CR); [contradiction|]. reflexivity.
Qed.

(** X2. On paths without line terminators the predicate is the
    specification's: single star and question mark stop at the
    separator, a run of stars crosses it, everything else is literal,
    and the whole path has to match. *)
Theorem glob_matches_spec suffix rel :
  no_line_terminator rel ->
  (glob_matches suffix rel = true
   <-> glob_accepts any_char (glob_tokens suffix) rel).
Proof.
  intros Hrel. rewrite glob_matches_accepts. split; apply glob_accepts_ext;
    intros c Hc; destruct (Hrel c Hc) as [H1 H2];
    rewrite (dot_char_true c H1 H2); reflexivity.
Qed.

Lemma glob_matches_spec_witness :
  no_line_terminator "src/lib/a.c"
  /\ (glob_matches "src/**/?.c" "src/lib/a.c" = true
      <-> glob_accepts any_char (glob_tokens "src/**/?.c") "src/lib/a.c").
Proof.
  assert (H : no_line_terminator "src/lib/a.c").
  { intros c Hc. simpl in Hc.
    repeat (destruct Hc as [<-|Hc]; [split; discriminate|]).
    destruct Hc. }
  split; [exact H|]. exact (glob_matches_spec "src/**/?.c" "src/lib/a.c" H).
Defined.

(** Whatever the predicate accepts, the specification's reading accepts
    too; the converse fails only through line terminators. *)
Theorem glob_matches_sound suffix rel :
  glob_matches suffix rel = true ->
  glob_accepts any_char (glob_tokens suffix) rel.
Proof.
  rewrite glob_matches_accepts. intros H. induction H.
  - constructor.
  - now constructor.
  - now constructor.
  - now apply ga_star_end.
  - now apply ga_star_more.
  - now apply ga_wide_end.
  - now apply ga_wide_more.
Qed.

(** ** Further properties of the emitted blocks *)

(** X3. Every emitted block has at least [min_lines] lines. *)
Theorem emitted_block_min_length files min_lines ign out b :
  1 <= min_lines ->
  detect_duplicates files min_lines ign out -> In b out ->
  min_lines <= List.length (b_lines b).
Proof.
  intros Hmin Hrun Hb.
  destruct (detect_duplicates_member _ _ _ _ _ Hrun Hb)
    as (order1 & K & agg & P1 & He & _ & Hl & _ & _).
  assert (I1 : incl order1 (build_seeds files min_lines ign)).
  { intros e Hin. eapply Permutation_in; [symmetry; exact P1|exact Hin]. }
  destruct (by_content_recorded files min_lines ign Hmin _ _ _ I1 He)
    as (_ & ([K0 occs] & (Hin & _ & _) & Hlines & _) & _).
  destruct (group_shape_exist files min_lines ign K0 occs (I1 _ Hin))
    as (o0 & bk & n & G).
  destruct (gs_lines_length _ _ _ _ _ _ _ _ G) as [Hn Hge].
  rewrite Hl, Hlines, Hn. exact Hge.
Qed.

Lemma emitted_block_min_length_witness :
  1 <= 3
  /\ detect_duplicates scenario_A 3 false
       (detect_duplicates_fn scenario_A 3 false)
  /\ 3 <= List.length ["B"; "C"; "D"; "E"].
Proof.
  assert (Hrun := detect_duplicates_fn_run scenario_A 3 false).
  split; [lia|]. split; [exact Hrun|].
  refine (emitted_block_min_length scenario_A 3 false _
            (mkBlock ["B"; "C"; "D"; "E"]
               [mkHit "file1" 2 5; mkHit "file2" 1 4]) _ Hrun _).
  - lia.
  - vm_compute. left. reflexivity.
Defined.

Lemma window_norm_slice files ign oc n :
  start oc + n <= size_at files oc ->
  map (norm_line ign)
      (slice (fd_lines (file_at files (file_index oc)))
             (start oc) (start oc + n))
  = window_norm files ign oc n.
Proof.
  intros H. rewrite slice_nth by exact H. rewrite map_map. reflexivity.
Qed.

(** X4. Content fidelity: the lines of the file at any hit's range equal
    the block's lines under the comparison in force. *)
Theorem emitted_block_content files min_lines ign out b h :
  lines_wf files -> 1 <= min_lines -> NoDup (map fd_path files) ->
  detect_duplicates files min_lines ign out -> In b out -> In h (b_hits b) ->
  exists f,
    file_of files (h_path h) = Some f
    /\ end_line h <= List.length (fd_lines f)
    /\ map (norm_line ign)
           (slice (fd_lines f) (start_line h - 1) (end_line h))
       = map (norm_line ign) (b_lines b).
Proof.
  intros Hwf Hmin Hpaths Hrun Hb Hh.
  destruct (detect_duplicates_member _ _ _ _ _ Hrun Hb)
    as (order1 & K & agg & P1 & He & _ & Hl & Hp & _).
  assert (I1 : incl order1 (build_seeds files min_lines ign)).
  { intros e Hin. eapply Permutation_in; [symmetry; exact P1|exact Hin]. }
  destruct (by_content_canonical files min_lines ign Hwf Hmin _ _ _ I1 He)
    as ([K0 occs] & Hin & _ & _ & ->).
  assert (Hh' : In h (b_hits (group_block files min_lines ign (K0, occs)))).
  { assert (In h (agg_hits (merge_block
                              (group_block files min_lines ign (K0, occs))
                              empty_agg))) as Hm
      by (eapply Permutation_in; [symmetry; exact Hp|exact Hh]).
    apply merge_block_In in Hm; [|apply good_empty_agg].
    destruct Hm as [[]|Hm]. exact Hm. }
  rewrite merge_block_lines in Hl.
  change (agg_lines empty_agg) with (@nil string) in Hl. cbv iota in Hl.
  destruct (group_facts_exist files min_lines ign Hwf Hmin K0 occs (I1 _ Hin))
    as (o0 & bk & n & G).
  rewrite (gf_block _ _ _ _ _ _ _ _ G) in Hh', Hl.
  cbn [b_hits b_lines] in Hh', Hl.
  apply in_map_iff in Hh' as (oc' & <- & Hoc').
  apply in_map_iff in Hoc' as (oc & <- & Hoc).
  destruct (gf_fits _ _ _ _ _ _ _ _ G oc Hoc) as [Hidx Hsz].
  destruct (gf_fits _ _ _ _ _ _ _ _ G o0 (gf_head_in _ _ _ _ _ _ _ _ G))
    as [_ Hsz0].
  pose proof (gf_agrees _ _ _ _ _ _ _ _ G oc Hoc) as Hag.
  apply window_norm_eq_iff in Hag.
  exists (file_at files (file_index oc)).
  unfold hit_of. cbn [h_path start_line end_line file_index start shift_back].
  split; [apply file_of_at; assumption|].
  split; [exact Hsz|].
  replace (start oc - bk + 1 - 1) with (start oc - bk) by lia.
  rewrite Hl.
  pose proof (window_norm_slice files ign (shift_back bk oc) n Hsz) as W.
  pose proof (window_norm_slice files ign (shift_back bk o0) n Hsz0) as W0.
  cbn [file_index start shift_back] in W, W0. rewrite W, W0.
  exact Hag.
Qed.

Lemma emitted_block_content_witness :
  lines_wf scenario_C /\ 1 <= 3 /\ NoDup (map fd_path scenario_C)
  /\ detect_duplicates scenario_C 3 true (detect_duplicates_fn scenario_C 3 true)
  /\ exists f,
       file_of scenario_C "file2" = Some f
       /\ 4 <= List.length (fd_lines f)
       /\ map (norm_line true) (slice (fd_lines f) (1 - 1) 4)
          = map (norm_line true) ["a"; "b"; "  x"; "c"].
Proof.
  assert (Hrun := detect_duplicates_fn_run scenario_C 3 true).
  assert (Hnd : NoDup (map fd_path scenario_C))
    by (repeat constructor; simpl; intuition discriminate).
  split; [exact scenario_C_wf|]. split; [lia|]. split; [exact Hnd|].
  split; [exact Hrun|].
  refine (emitted_block_content scenario_C 3 true _
            (mkBlock ["a"; "b"; "  x"; "c"]
               [mkHit "file1" 1 4; mkHit "file2" 1 4])
            (mkHit "file2" 1 4) scenario_C_wf _ Hnd Hrun _ _).
  - lia.
  - vm_compute. left. reflexivity.
  - right. left. reflexivity.
Defined.

(** X5. No line the loader returns holds a line feed, so every loaded
    file set is well formed. *)
Theorem loaded_lines_no_line_feed :
  (forall content, Forall no_lf (read_lines_normalized content))
  /\ (forall fs files_paths, lines_wf (load_files fs files_paths)).
Proof.
  split; [apply read_lines_normalized_no_lf|apply load_files_wf].
Qed.

(** X6. Runs that start from the file system need no assumption on the
    lines: whatever the files hold, two runs emit the same sequence. *)
Theorem loaded_run_deterministic fs files_paths min_lines ign out1 out2 :
  1 <= min_lines ->
  detect_duplicates (load_files fs files_paths) min_lines ign out1 ->
  detect_duplicates (load_files fs files_paths) min_lines ign out2 ->
  out1 = out2.
Proof.
  intros Hmin H1 H2.
  rewrite (detect_duplicates_unique _ min_lines ign
             (load_files_wf fs files_paths) Hmin out1 H1).
  now rewrite (detect_duplicates_unique _ min_lines ign
                 (load_files_wf fs files_paths) Hmin out2 H2).
Qed.

Lemma loaded_run_deterministic_witness :
  1 <= 2
  /\ load_files two_files ["a.txt"; "b.txt"; "missing"]
     = [ mkFileData "a.txt" ["x"; "y"];
         mkFileData "b.txt" ["x"; "y"; "z"];
         mkFileData "missing" [] ]
  /\ detect_duplicates_fn
       (load_files two_files ["a.txt"; "b.txt"; "missing"]) 2 false
     = [mkBlock ["x"; "y"] [mkHit "a.txt" 1 2; mkHit "b.txt" 1 2]]
  /\ forall out,
       detect_duplicates
         (load_files two_files ["a.txt"; "b.txt"; "missing"]) 2 false out ->
       out = detect_duplicates_fn
               (load_files two_files ["a.txt"; "b.txt"; "missing"]) 2 false.
Proof.
  split; [lia|]. split; [vm_compute; reflexivity|].
  split; [vm_compute; reflexivity|].
  intros out H.
  exact (loaded_run_deterministic two_files ["a.txt"; "b.txt"; "missing"]
           2 false out _ ltac:(lia) H (detect_duplicates_fn_run _ 2 false)).
Defined.

(** * Properties of the further functions *)

(** ** [lstrip_dots_slashes] *)

Lemma lstrip_dot_slash_spec s :
  exists k,
    s = String.append (repeat_string "./" k) (lstrip_dot_slash s)
    /\ starts_with "./" (lstrip_dot_slash s) = false.
Proof.
  remember (String.length s) as n eqn:Hn.
  revert s Hn. induction n as [n IH] using lt_wf_ind. intros s Hn.
  destruct s as [|c1 [|c2 r]].
  - exists 0. split; reflexivity.
  - exists 0. split; [reflexivity|].
    simpl. now rewrite andb_false_r.
  - cbn [lstrip_dot_slash].
    destruct (Ascii.eqb_spec c1 DOT) as [->|N1];
      [destruct (Ascii.eqb_spec c2 SLASH) as [->|N2]|]; cbn [andb].
    + destruct (IH (String.length r)) with (s := r) as (k & E & P);
        [subst n; simpl; lia|reflexivity|].
      exists (S k). split; [|exact P].
      cbn [repeat_string String.append]. simpl. now rewrite <- E.
    + exists 0. split; [reflexivity|]. cbn [starts_with].
      destruct (Ascii.eqb_spec "/" c2) as [<-|_];
        [now destruct N2|now rewrite andb_false_r].
    + exists 0. split; [reflexivity|]. cbn [starts_with].
      destruct (Ascii.eqb_spec "." c1) as [<-|_];
        [now destruct N1|reflexivity].
Qed.

Lemma lstrip_slashes_spec s :
  exists m,
    s = String.append (repeat_string "/" m) (lstrip_slashes s)
    /\ starts_with "/" (lstrip_slashes s) = false
    /\ (m = 0 -> lstrip_slashes s = s).
Proof.
  induction s as [|c r (m & E & P & Z)].
  - exists 0. repeat split.
  - cbn [lstrip_slashes].
    destruct (Ascii.eqb_spec c SLASH) as [->|N].
    + exists (S m). split; [|split; [exact P|discriminate]].
      cbn [repeat_string String.append]. simpl. now rewrite <- E.
    + exists 0. split; [reflexivity|]. split; [|reflexivity].
      cbn [starts_with].
      destruct (Ascii.eqb_spec "/" c) as [<-|_];
        [now destruct N|reflexivity].
Qed.

(** X7. [lstrip_dots_slashes] removes a run of leading [./] and then a
    run of leading slashes, and nothing else.  What is left never starts
    with a slash; it can start with [./] again only when a slash was
    removed. *)
Theorem lstrip_dots_slashes_spec s :
  exists k m,
    s = String.append (repeat_string "./" k)
          (String.append (repeat_string "/" m) (lstrip_dots_slashes s))
    /\ starts_with "/" (lstrip_dots_slashes s) = false
    /\ (m = 0 -> starts_with "./" (lstrip_dots_slashes s) = false).
Proof.
  unfold lstrip_dots_slashes.
  destruct (lstrip_dot_slash_spec s) as (k & E1 & P1).
  destruct (lstrip_slashes_spec (lstrip_dot_slash s)) as (m & E2 & P2 & Z).
  exists k, m. split; [|split].
  - rewrite <- E2. exact E1.
  - exact P2.
  - intros ->. rewrite (Z eq_refl). exact P1.
Qed.

(** ** [yaml_escape] *)

Lemma read_escaped_char c rest :
  read_escaped (String.append (yaml_escape_char c) rest) = Some (c, rest).
Proof.
  destruct c as [[] [] [] [] [] [] [] []]; reflexivity.
Qed.

Lemma yaml_escape_body_inj a : forall b,
  String.append (yaml_escape_body a) (String DQUOTE EmptyString)
  = String.append (yaml_escape_body b) (String DQUOTE EmptyString) ->
  a = b.
Proof.
  induction a as [|c a IH]; intros [|d b] H.
  - reflexivity.
  - apply (f_equal read_escaped) in H. cbn [yaml_escape_body] in H.
    rewrite append_assoc_str, read_escaped_char in H. discriminate.
  - apply (f_equal read_escaped) in H. cbn [yaml_escape_body] in H.
    rewrite append_assoc_str, read_escaped_char in H. discriminate.
  - apply (f_equal read_escaped) in H. cbn [yaml_escape_body] in H.
    rewrite !append_assoc_str, !read_escaped_char in H.
    injection H as -> H. f_equal. now apply IH.
Qed.

Lemma no_control_append a b :
  no_control (String.append a b) = (no_control a && no_control b)%bool.
Proof.
  unfold no_control. induction a as [|c a IH]; [reflexivity|].
  cbn [String.append list_ascii_of_string forallb]. rewrite IH.
  now rewrite andb_assoc.
Qed.

Lemma yaml_escape_char_no_control c : no_control (yaml_escape_char c) = true.
Proof.
  destruct c as [[] [] [] [] [] [] [] []]; reflexivity.
Qed.

Lemma yaml_escape_body_no_control s : no_control (yaml_escape_body s) = true.
Proof.
  induction s as [|c s IH]; [reflexivity|].
  cbn [yaml_escape_body].
  now rewrite no_control_append, yaml_escape_char_no_control, IH.
Qed.

Lemma yaml_escape_no_control s : no_control (yaml_escape s) = true.
Proof.
  unfold yaml_escape.
  change (String DQUOTE ?x) with (String.append (String DQUOTE EmptyString) x).
  now rewrite !no_control_append, yaml_escape_body_no_control.
Qed.

Lemma no_control_no_lf s : no_control s = true -> no_lf s.
Proof.
  unfold no_control, no_lf. induction s as [|c s IH]; [reflexivity|].
  cbn [list_ascii_of_string forallb count_lf]. intros H.
  apply andb_prop in H as [Hc Hs]. rewrite (IH Hs).
  destruct (Ascii.eqb_spec c LF) as [->|]; [discriminate|reflexivity].
Qed.

(** X8. [yaml_escape] is injective: two paths with the same escaped
    form are the same path. *)
Theorem yaml_escape_injective a b : yaml_escape a = yaml_escape b -> a = b.
Proof.
  unfold yaml_escape. intros H. injection H as H.
  now apply yaml_escape_body_inj.
Qed.

Lemma yaml_escape_injective_witness :
  yaml_escape "a.c" = yaml_escape "a.c" /\ "a.c" = "a.c".
Proof.
  split; [reflexivity|].
  apply (yaml_escape_injective "a.c" "a.c"). reflexivity.
Defined.

(** X9. The escaped form holds no control character, and so no line
    feed: whatever bytes a path holds, [print_yaml] writes it on one
    line. *)
Theorem yaml_escape_one_line s :
  no_control (yaml_escape s) = true /\ no_lf (yaml_escape s).
Proof.
  split; [apply yaml_escape_no_control|].
  apply no_control_no_lf, yaml_escape_no_control.
Qed.

(** ** The base directory and the suffix of a pattern *)

Lemma length_append_str a b :
  String.length (String.append a b) = String.length a + String.length b.
Proof. induction a as [|x a IH]; simpl; [reflexivity|now rewrite IH]. Qed.

Lemma substring_all s : substring 0 (String.length s) s = s.
Proof. induction s as [|c s IH]; simpl; [reflexivity|now rewrite IH]. Qed.

Lemma substring_0_app a b :
  substring 0 (String.length a) (String.append a b) = a.
Proof.
  induction a as [|c a IH]; simpl; [now destruct b|now rewrite IH].
Qed.

Lemma substr_from_app a b :
  substr_from (String.append a b) (String.length a) = b.
Proof.
  unfold substr_from. rewrite length_append_str.
  replace (String.length a + String.length b - String.length a)
    with (String.length b) by lia.
  induction a as [|c a IH]; simpl; [apply substring_all|exact IH].
Qed.

Lemma starts_with_app a b : starts_with a (String.append a b) = true.
Proof.
  induction a as [|c a IH]; simpl; [reflexivity|].
  now rewrite Ascii.eqb_refl, IH.
Qed.

Lemma starts_with_longer a b :
  String.length b < String.length a -> starts_with a b = false.
Proof.
  revert b. induction a as [|c a IH]; intros [|d b]; simpl; try lia.
  intros H. rewrite IH by lia. apply andb_false_r.
Qed.

Lemma has_glob_chars_app a b :
  has_glob_chars (String.append a b)
  = (has_glob_chars a || has_glob_chars b)%bool.
Proof.
  induction a as [|c a IH]; simpl; [reflexivity|].
  now destruct (Ascii.eqb c STAR || Ascii.eqb c QUESTION)%bool.
Qed.

Lemma find_first_glob_none s :
  find_first_glob s = None <-> has_glob_chars s = false.
Proof.
  induction s as [|c s IH]; simpl; [tauto|].
  destruct (Ascii.eqb c STAR || Ascii.eqb c QUESTION)%bool.
  - split; discriminate.
  - rewrite <- IH. destruct (find_first_glob s); simpl; split;
      congruence.
Qed.

Lemma find_first_glob_some s i :
  find_first_glob s = Some i ->
  exists pre g post,
    s = String.append pre (String g post)
    /\ String.length pre = i
    /\ has_glob_chars pre = false
    /\ (Ascii.eqb g STAR || Ascii.eqb g QUESTION)%bool = true.
Proof.
  revert i. induction s as [|c s IH]; simpl; [discriminate|]. intros i.
  destruct (Ascii.eqb c STAR || Ascii.eqb c QUESTION)%bool eqn:G.
  - intros [= <-]. exists EmptyString, c, s. repeat split. exact G.
  - destruct (find_first_glob s) as [j|]; simpl; [|discriminate].
    intros [= <-]. destruct (IH j eq_refl) as (pre & g & post & -> & L & P & Q).
    exists (String c pre), g, post. simpl. rewrite G, L. repeat split; assumption.
Qed.

Lemma find_first_glob_app pre g post :
  has_glob_chars pre = false ->
  (Ascii.eqb g STAR || Ascii.eqb g QUESTION)%bool = true ->
  find_first_glob (String.append pre (String g post))
  = Some (String.length pre).
Proof.
  intros P G. induction pre as [|c pre IH]; simpl in *.
  - now rewrite G.
  - destruct (Ascii.eqb c STAR || Ascii.eqb c QUESTION)%bool;
      [discriminate|]. now rewrite (IH P).
Qed.

Lemma has_char_app c a b :
  has_char c (String.append a b) = (has_char c a || has_char c b)%bool.
Proof.
  unfold has_char. induction a as [|x a IH]; simpl; [reflexivity|].
  rewrite IH. now rewrite orb_assoc.
Qed.

Lemma last_char_split c s :
  has_char c s = false
  \/ exists a b, s = String.append a (String c b) /\ has_char c b = false.
Proof.
  induction s as [|x s [IH|(a & b & -> & Hb)]].
  - now left.
  - unfold has_char in *. simpl. destruct (Ascii.eqb_spec c x) as [<-|N].
    + right. exists EmptyString, s. split; [reflexivity|exact IH].
    + left. exact IH.
  - right. exists (String x a), b. split; [reflexivity|exact Hb].
Qed.

Lemma rfind_none_before c b g post :
  has_char c b = false -> g <> c ->
  rfind c (String.append b (String g post)) (String.length b) = None.
Proof.
  intros Hb Hg. induction b as [|x b IH]; simpl.
  - destruct (Ascii.eqb_spec g c); [contradiction|reflexivity].
  - unfold has_char in Hb. simpl in Hb. apply orb_false_elim in Hb as [Hx Hb].
    rewrite (IH Hb). rewrite Ascii.eqb_sym, Hx. reflexivity.
Qed.

Lemma rfind_shift c a s pos j :
  rfind c s pos = Some j ->
  rfind c (String.append a s) (String.length a + pos)
  = Some (String.length a + j).
Proof.
  intros H. induction a as [|x a IH]; simpl; [exact H|]. now rewrite IH.
Qed.

Lemma rfind_last c a b g post :
  has_char c b = false -> g <> c ->
  rfind c (String.append a (String c (String.append b (String g post))))
        (String.length a + S (String.length b))
  = Some (String.length a).
Proof.
  intros Hb Hg.
  rewrite (rfind_shift c a _ _ 0); [now rewrite Nat.add_0_r|].
  simpl. rewrite (rfind_none_before c b g post Hb Hg).
  now rewrite Ascii.eqb_refl.
Qed.

Lemma glob_not_slash g :
  (Ascii.eqb g STAR || Ascii.eqb g QUESTION)%bool = true -> g <> SLASH.
Proof. intros H ->. discriminate. Qed.

Lemma lstrip_fixed s :
  starts_with "/" s = false -> starts_with "./" s = false ->
  lstrip_dots_slashes s = s.
Proof.
  unfold lstrip_dots_slashes. intros H1 H2.
  assert (E : lstrip_dot_slash s = s).
  { destruct s as [|c1 [|c2 r]]; try reflexivity.
    cbn [lstrip_dot_slash]. cbn [starts_with] in H2.
    rewrite andb_true_r in H2.
    rewrite (Ascii.eqb_sym c1), (Ascii.eqb_sym c2).
    unfold DOT, SLASH. now rewrite H2. }
  rewrite E. destruct s as [|c r]; [reflexivity|].
  cbn [lstrip_slashes]. cbn [starts_with] in H1. rewrite andb_true_r in H1.
  rewrite Ascii.eqb_sym. unfold SLASH. now rewrite H1.
Qed.

Lemma starts_with_prefix t a b :
  String.length t <= String.length a ->
  starts_with t (String.append a b) = starts_with t a.
Proof.
  revert a. induction t as [|x t IH]; intros [|y a] H; simpl in *;
    try lia; try reflexivity.
  now rewrite IH by lia.
Qed.

Lemma string_eqb_longer a b :
  String.length a <> String.length b -> String.eqb a b = false.
Proof.
  intros H. destruct (String.eqb_spec a b) as [->|]; [now destruct H|reflexivity].
Qed.

(** What [compute_base_dir] and [pattern_suffix] make of a pattern that
    starts neither with a slash nor with a dot and a slash. *)
Lemma split_pattern p :
  starts_with "/" p = false -> starts_with "./" p = false ->
  exists base suffix,
    compute_base_dir p = base
    /\ lstrip_dots_slashes base = base
    /\ pattern_suffix p base = suffix
    /\ has_glob_chars base = false /\ base <> EmptyString
    /\ suffix <> EmptyString
    /\ ((has_glob_chars p = false /\ suffix = "**"
         /\ (base = p \/ (p = EmptyString /\ base = ".")))
        \/ (has_glob_chars p = true
            /\ (p = String.append base (String SLASH suffix)
                \/ (base = "." /\ p = suffix))
            /\ exists i, find_first_glob suffix = Some i
                         /\ rfind SLASH suffix i = None)).
Proof.
  intros H1 H2. unfold compute_base_dir.
  destruct (find_first_glob p) as [i|] eqn:F.
  - destruct (find_first_glob_some p i F) as (pre & g & post & -> & L & P & G).
    assert (Hg : has_glob_chars (String.append pre (String g post)) = true).
    { rewrite has_glob_chars_app. simpl. rewrite G. apply orb_true_r. }
    pose proof (glob_not_slash g G) as Ng.
    destruct (last_char_split SLASH pre) as [Hn|(a & b & -> & Hb)].
    + (* no slash before the first glob character *)
      subst i. rewrite (rfind_none_before SLASH pre g post Hn Ng).
      cbn [String.eqb Ascii.eqb Bool.eqb].
      exists ".", (String.append pre (String g post)).
      split; [reflexivity|]. split; [reflexivity|].
      assert (S : pattern_suffix (String.append pre (String g post)) "."
                  = String.append pre (String g post)).
      { unfold pattern_suffix.
        change (String.append "." "/") with "./". rewrite H2.
        rewrite F. cbn [negb String.eqb Ascii.eqb Bool.eqb].
        rewrite (rfind_none_before SLASH pre g post Hn Ng).
        assert (E : String.eqb (String.append pre (String g post)) "."
                    = false).
        { destruct (String.eqb_spec (String.append pre (String g post)) ".")
            as [E|]; [|reflexivity]. rewrite E in Hg. discriminate. }
        rewrite E.
        destruct pre; reflexivity. }
      split; [exact S|]. split; [reflexivity|]. split; [discriminate|].
      split; [now destruct pre|].
      right. split; [exact Hg|]. split; [right; split; reflexivity|].
      exists (String.length pre). split; [exact F|].
      apply rfind_none_before; assumption.
    + (* the last slash before it ends the base *)
      rewrite has_glob_chars_app in P. apply orb_false_elim in P as [Pa Pb].
      change (has_glob_chars b = false) in Pb.
      assert (E : String.append (String.append a (String SLASH b))
                    (String g post)
                  = String.append a
                      (String SLASH (String.append b (String g post)))).
      { now rewrite append_assoc_str. }
      rewrite E in *. clear E.
      assert (Li : i = String.length a + S (String.length b)).
      { rewrite <- L, length_append_str. reflexivity. }
      clear L. subst i. rewrite (rfind_last SLASH a b g post Hb Ng).
      rewrite substring_0_app.
      destruct a as [|c a].
      { simpl in H1. discriminate. }
      cbn [String.eqb].
      set (base := String c a) in *.
      set (suffix := String.append b (String g post)) in *.
      assert (Fix : lstrip_dots_slashes base = base).
      { apply lstrip_fixed.
        - rewrite starts_with_prefix in H1 by (simpl; lia). exact H1.
        - destruct a as [|c' a].
          + subst base. cbn [starts_with]. now rewrite andb_false_r.
          + rewrite starts_with_prefix in H2 by (simpl; lia). exact H2. }
      assert (W : String.append base (String SLASH suffix)
                  = String.append (String.append base "/") suffix).
      { now rewrite append_assoc_str. }
      assert (SW : starts_with (String.append base "/")
                     (String.append base (String SLASH suffix)) = true).
      { rewrite W. apply starts_with_app. }
      assert (SF : substr_from (String.append base (String SLASH suffix))
                     (String.length base + 1) = suffix).
      { rewrite W.
        replace (String.length base + 1)
          with (String.length (String.append base "/"))
          by (rewrite length_append_str; reflexivity).
        apply substr_from_app. }
      assert (Sx : pattern_suffix (String.append base (String SLASH suffix))
                     base = suffix).
      { unfold pattern_suffix. rewrite SW, SF.
        subst base. cbn [String.eqb negb].
        subst suffix. destruct b; reflexivity. }
      exists base, suffix.
      split; [reflexivity|]. split; [exact Fix|]. split; [exact Sx|].
      split; [exact Pa|]. split; [discriminate|].
      split; [subst suffix; now destruct b|].
      right. split; [exact Hg|]. split; [left; reflexivity|].
      exists (String.length b). split.
      * apply find_first_glob_app; assumption.
      * apply rfind_none_before; assumption.
  - (* no glob character *)
    apply find_first_glob_none in F.
    destruct p as [|c p'].
    + exists ".", "**". repeat split; try discriminate.
      left. repeat split. right. split; reflexivity.
    + cbn [String.eqb].
      set (p := String c p') in *.
      assert (Fix : lstrip_dots_slashes p = p) by now apply lstrip_fixed.
      assert (S : pattern_suffix p p = "**").
      { unfold pattern_suffix.
        rewrite starts_with_longer
          by (rewrite length_append_str; simpl; lia).
        rewrite String.eqb_refl. subst p. reflexivity. }
      exists p, "**". split; [reflexivity|]. split; [exact Fix|].
      split; [exact S|]. split; [exact F|]. split; [discriminate|].
      split; [discriminate|].
      left. split; [exact F|]. split; [reflexivity|now left].
Qed.

(** ** Expansion of the patterns *)

Lemma add_result_inv g st : expand_inv st -> expand_inv (add_result g st).
Proof.
  intros [Hnd Hs]. unfold add_result.
  destruct (existsb (String.eqb g) (snd st)) eqn:E; [split; assumption|].
  assert (Hn : ~ In g (snd st)).
  { intros Hin. apply existsb_eqb_In in Hin. congruence. }
  split; cbn [fst snd].
  - apply NoDup_app; [exact Hnd|repeat constructor; intros []|].
    intros x Hx [<-|[]]. apply Hn, Hs, Hx.
  - intros x. rewrite in_app_iff. cbn [In]. rewrite Hs. tauto.
Qed.

Lemma add_result_In g st x :
  expand_inv st ->
  In x (fst (add_result g st)) <-> In x (fst st) \/ x = g.
Proof.
  intros [_ Hs]. unfold add_result.
  destruct (existsb (String.eqb g) (snd st)) eqn:E.
  - apply existsb_eqb_In in E. apply Hs in E.
    split; [now left|intros [H| ->]; assumption].
  - cbn [fst]. rewrite in_app_iff. cbn [In]. intuition congruence.
Qed.

Lemma visit_entries_inv re entries : forall st,
  expand_inv st -> expand_inv (fold_left (visit_entry re) entries st).
Proof.
  induction entries as [|e entries IH]; intros st H; [exact H|].
  cbn [fold_left]. apply IH. unfold visit_entry.
  destruct (negb (e_regular e)); [exact H|].
  destruct (regex_match (e_rel e) re); [now apply add_result_inv|exact H].
Qed.

Lemma visit_entries_In re entries : forall st x,
  expand_inv st ->
  In x (fst (fold_left (visit_entry re) entries st))
  <-> In x (fst st)
      \/ exists e, In e entries /\ e_regular e = true
                   /\ regex_match (e_rel e) re = true /\ e_path e = x.
Proof.
  induction entries as [|e entries IH]; intros st x H.
  - cbn [fold_left]. split; [now left|].
    intros [Hx|(e & [] & _)]. exact Hx.
  - cbn [fold_left]. rewrite IH.
    2:{ unfold visit_entry. destruct (negb (e_regular e)); [exact H|].
        destruct (regex_match (e_rel e) re);
          [now apply add_result_inv|exact H]. }
    unfold visit_entry.
    destruct (e_regular e) eqn:R; cbn [negb].
    + destruct (regex_match (e_rel e) re) eqn:M.
      * rewrite add_result_In by exact H. split.
        -- intros [[Hx| ->]|(e' & Hin & He')].
           ++ now left.
           ++ right. exists e. repeat split; try assumption. now left.
           ++ right. exists e'. split; [now right|exact He'].
        -- intros [Hx|(e' & [<-|Hin] & R' & M' & P')].
           ++ now left; left.
           ++ left. right. now symmetry.
           ++ right. exists e'. repeat split; assumption.
      * split.
        -- intros [Hx|(e' & Hin & He')]; [now left|].
           right. exists e'. split; [now right|exact He'].
        -- intros [Hx|(e' & [<-|Hin] & R' & M' & P')]; [now left| |].
           ++ congruence.
           ++ right. exists e'. repeat split; assumption.
    + split.
      * intros [Hx|(e' & Hin & He')]; [now left|].
        right. exists e'. split; [now right|exact He'].
      * intros [Hx|(e' & [<-|Hin] & R' & M' & P')]; [now left| |].
        -- congruence.
        -- right. exists e'. repeat split; assumption.
Qed.

Lemma expand_loop_spec gen probe patterns : forall st st',
  expand_inv st ->
  expand_loop gen probe patterns st = Some st' ->
  expand_inv st'
  /\ forall g, In g (fst st')
               <-> In g (fst st)
                   \/ exists pat, In pat patterns /\ selects gen probe pat g.
Proof.
  induction patterns as [|pat rest IH]; intros st st' H E.
  - injection E as <-. split; [exact H|].
    intros g. split; [now left|]. intros [Hg|(p & [] & _)]. exact Hg.
  - cbn [expand_loop] in E.
    assert (Sel : forall g, selects gen probe pat g
              <-> match probe (if String.eqb (fst (compile_pattern gen pat))
                                    EmptyString
                               then "." else fst (compile_pattern gen pat))
                  with
                  | RegularFile =>
                      regex_match
                        (gen (path_filename
                           (if String.eqb (fst (compile_pattern gen pat))
                                 EmptyString
                            then "." else fst (compile_pattern gen pat))))
                        (snd (compile_pattern gen pat)) = true
                      /\ g = gen (if String.eqb (fst (compile_pattern gen pat))
                                       EmptyString
                                  then "." else fst (compile_pattern gen pat))
                  | Directory entries =>
                      exists e, In e entries /\ e_regular e = true
                        /\ regex_match (e_rel e)
                             (snd (compile_pattern gen pat)) = true
                        /\ e_path e = g
                  | _ => False
                  end) by (intros g; reflexivity).
    set (cp := compile_pattern gen pat) in *.
    set (base := if String.eqb (fst cp) EmptyString then "." else fst cp) in *.
    destruct (probe base) as [| |entries|] eqn:P.
    + destruct (IH _ _ H E) as [I M]. split; [exact I|].
      intros g. rewrite M. split.
      * intros [Hg|(p & Hp & Hs)]; [now left|].
        right. exists p. split; [now right|exact Hs].
      * intros [Hg|(p & [<-|Hp] & Hs)]; [now left| |].
        -- apply Sel in Hs. destruct Hs.
        -- right. exists p. split; assumption.
    + destruct (regex_match (gen (path_filename base)) (snd cp)) eqn:R.
      * destruct (IH _ _ (add_result_inv _ _ H) E) as [I M].
        split; [exact I|]. intros g. rewrite M.
        rewrite add_result_In by exact H. split.
        -- intros [[Hg| ->]|(p & Hp & Hs)].
           ++ now left.
           ++ right. exists pat. split; [now left|]. apply Sel.
              split; reflexivity.
           ++ right. exists p. split; [now right|exact Hs].
        -- intros [Hg|(p & [<-|Hp] & Hs)].
           ++ now left; left.
           ++ apply Sel in Hs. destruct Hs as [_ ->]. left. now right.
           ++ right. exists p. split; assumption.
      * destruct (IH _ _ H E) as [I M]. split; [exact I|].
        intros g. rewrite M. split.
        -- intros [Hg|(p & Hp & Hs)]; [now left|].
           right. exists p. split; [now right|exact Hs].
        -- intros [Hg|(p & [<-|Hp] & Hs)]; [now left| |].
           ++ apply Sel in Hs. destruct Hs as [Hs _]. congruence.
           ++ right. exists p. split; assumption.
    + destruct (IH _ _ (visit_entries_inv (snd cp) entries st H) E) as [I M].
      split; [exact I|]. intros g. rewrite M.
      rewrite visit_entries_In by exact H. split.
      * intros [[Hg|He]|(p & Hp & Hs)].
        -- now left.
        -- right. exists pat. split; [now left|]. apply Sel. exact He.
        -- right. exists p. split; [now right|exact Hs].
      * intros [Hg|(p & [<-|Hp] & Hs)].
        -- now left; left.
        -- apply Sel in Hs. left. right. exact Hs.
        -- right. exists p. split; assumption.
    + discriminate.
Qed.

(** ** The command line *)

Lemma parse_args_spec args : forall m ign dbg pats m' ign' dbg' pats',
  parse_args args m ign dbg pats = Args m' ign' dbg' pats' ->
  1 <= m'
  /\ pats' <> []
  /\ (exists more,
        pats' = pats ++ more
        /\ forall p, In p more ->
             In p args /\ p <> "--min-lines" /\ p <> "--debug"
             /\ p <> "--ignore-indentation")
  /\ (ign' = true <-> ign = true \/ In "--ignore-indentation" args)
  /\ (dbg' = true <-> dbg = true \/ In "--debug" args)
  /\ (m' = m \/ exists v, In v args /\ stol v = Some (Z.of_nat m')).
Proof.
  remember (List.length args) as n eqn:Hn. revert args Hn.
  induction n as [n IH] using lt_wf_ind. intros args Hn m ign dbg pats
    m' ign' dbg' pats' H.
  destruct args as [|arg rest].
  - cbn [parse_args] in H.
    destruct (Nat.eqb_spec m 0) as [->|Hm]; [discriminate|].
    destruct pats as [|p ps]; [discriminate|].
    cbn [orb] in H. injection H as <- <- <- <-.
    split; [lia|]. split; [discriminate|].
    split; [exists []; split; [now rewrite app_nil_r|intros ? []]|].
    split; [cbn [In]; tauto|]. split; [cbn [In]; tauto|now left].
  - cbn [parse_args] in H.
    destruct (String.eqb_spec arg "--min-lines") as [->|N1].
    + destruct rest as [|value rest']; [discriminate|].
      destruct (stol value) as [v|] eqn:V; [|discriminate].
      destruct (Z.ltb_spec v 1) as [|Hv]; [discriminate|].
      apply (IH (List.length rest')) in H; [|subst n; simpl; lia|reflexivity].
      destruct H as (H1 & H2 & (more & -> & H3) & H4 & H5 & H6).
      split; [exact H1|]. split; [exact H2|].
      split.
      { exists more. split; [reflexivity|]. intros p Hp.
        destruct (H3 p Hp) as (Hin & R). split; [now right; right|exact R]. }
      assert (Hflag : forall f, stol f = None -> f <> "--min-lines" ->
                        In f rest' <->
                        In f ("--min-lines" :: value :: rest')).
      { intros f Hf Nf. cbn [In]. split; [tauto|].
        intros [E|[E|E]]; [| |exact E].
        - now destruct Nf.
        - subst f. congruence. }
      split; [rewrite H4, (Hflag "--ignore-indentation")
                by (reflexivity || discriminate); reflexivity|].
      split; [rewrite H5, (Hflag "--debug")
                by (reflexivity || discriminate); reflexivity|].
      right. destruct H6 as [->|(v' & Hin & Hs)].
      * exists value. split; [right; now left|].
        rewrite V. f_equal. symmetry. apply Z2Nat.id. lia.
      * exists v'. split; [now right; right|exact Hs].
    + destruct (String.eqb_spec arg "--debug") as [->|N2].
      * apply (IH (List.length rest)) in H; [|subst n; simpl; lia|reflexivity].
        destruct H as (H1 & H2 & (more & -> & H3) & H4 & H5 & H6).
        split; [exact H1|]. split; [exact H2|].
        split.
        { exists more. split; [reflexivity|]. intros p Hp.
          destruct (H3 p Hp) as (Hin & R). split; [now right|exact R]. }
        split.
        { rewrite H4. cbn [In]. split; [tauto|].
          intros [E|[E|E]]; [now left|discriminate|now right]. }
        split.
        { rewrite H5. cbn [In]. split; [tauto|]. intros _. now left. }
        destruct H6 as [->|(v' & Hin & Hs)]; [now left|].
        right. exists v'. split; [now right|exact Hs].
      * destruct (String.eqb_spec arg "--ignore-indentation") as [->|N3].
        -- apply (IH (List.length rest)) in H;
             [|subst n; simpl; lia|reflexivity].
           destruct H as (H1 & H2 & (more & -> & H3) & H4 & H5 & H6).
           split; [exact H1|]. split; [exact H2|].
           split.
           { exists more. split; [reflexivity|]. intros p Hp.
             destruct (H3 p Hp) as (Hin & R). split; [now right|exact R]. }
           split.
           { rewrite H4. cbn [In]. split; [tauto|]. intros _. now left. }
           split.
           { rewrite H5. cbn [In]. split; [tauto|].
             intros [E|[E|E]]; [now left|discriminate|now right]. }
           destruct H6 as [->|(v' & Hin & Hs)]; [now left|].
           right. exists v'. split; [now right|exact Hs].
        -- apply (IH (List.length rest)) in H;
             [|subst n; simpl; lia|reflexivity].
           destruct H as (H1 & H2 & (more & -> & H3) & H4 & H5 & H6).
           split; [exact H1|]. split; [exact H2|].
           split.
           { exists (arg :: more). split; [now rewrite <- app_assoc|].
             intros p [<-|Hp].
             - split; [now left|]. repeat split; assumption.
             - destruct (H3 p Hp) as (Hin & R).
               split; [now right|exact R]. }
           split.
           { rewrite H4. cbn [In]. split; [tauto|].
             intros [E|[E|E]]; [now left|now destruct N3|now right]. }
           split.
           { rewrite H5. cbn [In]. split; [tauto|].
             intros [E|[E|E]]; [now left|now destruct N2|now right]. }
           destruct H6 as [->|(v' & Hin & Hs)]; [now left|].
           right. exists v'. split; [now right|exact Hs].
Qed.

(** X13. What [main] has when the argument loop lets it go on: a minimum
    of at least one line, read from a value of [--min-lines]; at least
    one pattern; as patterns only arguments that are none of the three
    option names; and the two flags set exactly when their options
    occur. *)
Theorem main_args_sound args min_lines ign dbg patterns :
  main_args args = Args min_lines ign dbg patterns ->
  1 <= min_lines
  /\ (exists v, In v args /\ stol v = Some (Z.of_nat min_lines))
  /\ patterns <> []
  /\ (forall p, In p patterns ->
        In p args /\ p <> "--min-lines" /\ p <> "--debug"
        /\ p <> "--ignore-indentation")
  /\ (ign = true <-> In "--ignore-indentation" args)
  /\ (dbg = true <-> In "--debug" args).
Proof.
  unfold main_args.
  destruct (Nat.ltb (List.length args + 1) 3); [discriminate|].
  intros H. apply parse_args_spec in H.
  destruct H as (H1 & H2 & (more & E & H3) & H4 & H5 & H6).
  cbn [List.app] in E. subst more.
  split; [exact H1|].
  split; [destruct H6 as [->|H6]; [lia|exact H6]|].
  split; [exact H2|]. split; [exact H3|].
  split; [rewrite H4|rewrite H5]; split; try tauto;
    intros [E|E]; [discriminate|exact E|discriminate|exact E].
Qed.

Lemma main_args_sound_witness :
  main_args ["--min-lines"; "3"; "--debug"; "src/*.c"; "--min-lines"; " 5x"]
  = Args 5 false true ["src/*.c"]
  /\ 1 <= 5.
Proof.
  split; [reflexivity|].
  apply (main_args_sound
           ["--min-lines"; "3"; "--debug"; "src/*.c"; "--min-lines"; " 5x"]
           5 false true ["src/*.c"]).
  reflexivity.
Defined.

Lemma parse_args_min args min_lines ign dbg patterns :
  main_args args = Args min_lines ign dbg patterns -> 1 <= min_lines.
Proof.
  unfold main_args.
  destruct (Nat.ltb (List.length args + 1) 3); [discriminate|].
  intros H. now apply parse_args_spec in H.
Qed.

(** ** Reading a decimal number back *)

Lemma read_digits_uint d : forall tail acc,
  no_digit_ahead tail ->
  read_digits (String.append (NilEmpty.string_of_uint d) tail) acc
  = N.of_nat (Nat.of_uint_acc d (N.to_nat acc)).
Proof.
  induction d as [|d IH|d IH|d IH|d IH|d IH|d IH|d IH|d IH|d IH|d IH];
    intros tail acc Ht.
  1:{ cbn [NilEmpty.string_of_uint String.append Nat.of_uint_acc].
      rewrite N2Nat.id. destruct tail as [|c tail]; [reflexivity|].
      cbn [read_digits]. cbn in Ht. now rewrite Ht. }
  all: cbn [NilEmpty.string_of_uint String.append read_digits
            Nat.of_uint_acc];
    match goal with
    | |- context [digit_value ?c] =>
        let v := eval vm_compute in (digit_value c) in
        change (digit_value c) with v
    end;
    cbv iota; rewrite (IH tail _ Ht); f_equal; f_equal;
    rewrite Nat.tail_mul_spec; lia.
Qed.

Lemma string_of_uint_head d tail :
  d <> Decimal.Nil ->
  exists c r,
    String.append (NilEmpty.string_of_uint d) tail = String c r
    /\ digit_value c <> None /\ is_space c = false
    /\ Ascii.eqb c "-" = false /\ Ascii.eqb c "+" = false.
Proof.
  destruct d; [congruence|..]; intros _;
    eexists; eexists; (split; [reflexivity|]);
    repeat split; discriminate.
Qed.

Lemma to_uint_not_nil n : Nat.to_uint n <> Decimal.Nil.
Proof.
  rewrite <- (DecimalNat.Unsigned.of_to n) at 1.
  rewrite DecimalNat.Unsigned.to_of. apply DecimalFacts.unorm_nonnil.
Qed.

Lemma stol_dec n tail :
  (N.of_nat n <= LONG_MAX)%N -> no_digit_ahead tail ->
  stol (String.append (dec n) tail) = Some (Z.of_nat n).
Proof.
  intros Hn Ht. unfold stol, dec.
  destruct (string_of_uint_head (Nat.to_uint n) tail (to_uint_not_nil n))
    as (c & r & E & Hd & Hs & Hm & Hp).
  pose proof (read_digits_uint (Nat.to_uint n) tail 0%N Ht) as R.
  rewrite E in *. cbn [skip_spaces]. rewrite Hs, Hm, Hp. cbn [fst snd].
  destruct (digit_value c); [|congruence].
  rewrite R. unfold Nat.of_uint in *.
  change (N.to_nat 0) with 0.
  pose proof (DecimalNat.Unsigned.of_to n) as O. unfold Nat.of_uint in O.
  rewrite O.
  destruct (N.leb_spec (N.of_nat n) LONG_MAX); [|lia].
  f_equal. lia.
Qed.

(** ** The files [main] hands to the duplicate finder *)

Lemma expand_inv_nil : expand_inv ([], []).
Proof. split; [constructor|]. intros g. reflexivity. Qed.

Lemma expand_globs_spec gen probe patterns results :
  expand_globs gen probe patterns = Some results ->
  NoDup results
  /\ forall g, In g results
               <-> exists pat, In pat patterns /\ selects gen probe pat g.
Proof.
  unfold expand_globs.
  destruct (expand_loop gen probe patterns ([], [])) as [st'|] eqn:E;
    [|discriminate].
  intros [= <-].
  destruct (expand_loop_spec gen probe patterns _ _ expand_inv_nil E)
    as [[Hnd _] M].
  split; [exact Hnd|]. intros g. rewrite M. cbn [fst In]. tauto.
Qed.

Lemma expand_loop_none gen probe patterns : forall st,
  expand_loop gen probe patterns st = None
  <-> exists pat, In pat patterns
                  /\ probe (pattern_base gen pat) = Unreadable.
Proof.
  induction patterns as [|pat rest IH]; intros st.
  - cbn [expand_loop]. split; [discriminate|intros (p & [] & _)].
  - cbn [expand_loop].
    change (if String.eqb (fst (compile_pattern gen pat)) EmptyString
            then "." else fst (compile_pattern gen pat))
      with (pattern_base gen pat).
    destruct (probe (pattern_base gen pat)) eqn:P.
    + rewrite IH. split; intros (p & Hp & Hu).
      * exists p. split; [now right|exact Hu].
      * destruct Hp as [<-|Hp]; [congruence|]. exists p. now split.
    + rewrite IH. split; intros (p & Hp & Hu).
      * exists p. split; [now right|exact Hu].
      * destruct Hp as [<-|Hp]; [congruence|]. exists p. now split.
    + rewrite IH. split; intros (p & Hp & Hu).
      * exists p. split; [now right|exact Hu].
      * destruct Hp as [<-|Hp]; [congruence|]. exists p. now split.
    + split; [|reflexivity]. intros _. exists pat. split; [now left|exact P].
Qed.

Lemma selects_same_listing gen probe1 probe2 pat g :
  (forall base, same_listing (probe1 base) (probe2 base)) ->
  selects gen probe1 pat g -> selects gen probe2 pat g.
Proof.
  intros Hs. unfold selects.
  change (if String.eqb (fst (compile_pattern gen pat)) EmptyString
          then "." else fst (compile_pattern gen pat))
    with (pattern_base gen pat).
  specialize (Hs (pattern_base gen pat)).
  destruct (probe1 (pattern_base gen pat)), (probe2 (pattern_base gen pat));
    cbn in Hs; try contradiction; try tauto.
  intros (e & Hin & R). exists e. split; [|exact R].
  eapply Permutation_in; eassumption.
Qed.

Lemma same_listing_sym a b : same_listing a b -> same_listing b a.
Proof.
  destruct a, b; cbn; try tauto. apply Permutation_sym.
Qed.

Lemma expand_globs_same_listing gen probe1 probe2 patterns :
  (forall base, same_listing (probe1 base) (probe2 base)) ->
  match expand_globs gen probe1 patterns,
        expand_globs gen probe2 patterns with
  | Some r1, Some r2 => Permutation r1 r2
  | None, None => True
  | _, _ => False
  end.
Proof.
  intros Hs.
  assert (Hs' : forall base, same_listing (probe2 base) (probe1 base))
    by (intros base; apply same_listing_sym, Hs).
  assert (U : forall pat, probe1 (pattern_base gen pat) = Unreadable
                          <-> probe2 (pattern_base gen pat) = Unreadable).
  { intros pat. specialize (Hs (pattern_base gen pat)).
    destruct (probe1 (pattern_base gen pat)),
             (probe2 (pattern_base gen pat)); cbn in Hs;
      try contradiction; split; congruence. }
  destruct (expand_globs gen probe1 patterns) as [r1|] eqn:E1;
    destruct (expand_globs gen probe2 patterns) as [r2|] eqn:E2.
  - destruct (expand_globs_spec _ _ _ _ E1) as [N1 M1].
    destruct (expand_globs_spec _ _ _ _ E2) as [N2 M2].
    apply NoDup_Permutation; [exact N1|exact N2|].
    intros g. rewrite M1, M2. split; intros (p & Hp & S); exists p;
      (split; [exact Hp|]); eapply selects_same_listing; eassumption.
  - unfold expand_globs in E1, E2.
    destruct (expand_loop gen probe2 patterns ([], [])) eqn:L2;
      [discriminate|].
    apply expand_loop_none in L2 as (p & Hp & Hu). apply U in Hu.
    assert (L1 : expand_loop gen probe1 patterns ([], []) = None)
      by (apply expand_loop_none; exists p; now split).
    rewrite L1 in E1. discriminate.
  - unfold expand_globs in E1, E2.
    destruct (expand_loop gen probe1 patterns ([], [])) eqn:L1;
      [discriminate|].
    apply expand_loop_none in L1 as (p & Hp & Hu). apply U in Hu.
    assert (L2 : expand_loop gen probe2 patterns ([], []) = None)
      by (apply expand_loop_none; exists p; now split).
    rewrite L2 in E2. discriminate.
  - exact I.
Qed.

Lemma path_before_asym x y :
  path_before x y = true -> path_before y x = false.
Proof.
  apply (strict_asym String.ltb string_ltb_irrefl string_ltb_trans).
Qed.

Lemma path_before_negtrans x y z :
  path_before x y = false -> path_before y z = false ->
  path_before x z = false.
Proof.
  apply (strict_negtrans String.ltb string_ltb_trans string_ltb_total).
Qed.

Lemma sorted_paths_strict results files :
  NoDup results -> std_sorted path_before results files ->
  StronglySorted (fun a b => String.ltb a b = true) files.
Proof.
  intros Hnd [Hp Hs].
  assert (Hnd' : NoDup files) by (eapply Permutation_NoDup; eassumption).
  clear Hp Hnd. induction Hs as [|x l Hs IH Hf]; constructor.
  - apply IH. now inversion Hnd'.
  - inversion Hnd' as [|? ? Hx _]; subst.
    rewrite Forall_forall in *. intros y Hy. specialize (Hf y Hy).
    cbv beta in Hf. unfold path_before in Hf.
    destruct (String.ltb x y) eqn:E; [reflexivity|].
    pose proof (string_ltb_total _ _ E Hf). subst. contradiction.
Qed.

Lemma load_files_paths fs files : map fd_path (load_files fs files) = files.
Proof.
  unfold load_files. rewrite map_map. cbn [fd_path]. apply map_id.
Qed.

Lemma load_files_sorted fs files :
  StronglySorted (fun a b => String.ltb a b = true) files ->
  paths_sorted (load_files fs files).
Proof.
  unfold paths_sorted, load_files.
  induction 1 as [|x l Hs IH Hf]; cbn [map]; constructor; [exact IH|].
  rewrite Forall_forall in *. intros f Hin.
  apply in_map_iff in Hin as (y & <- & Hy). cbn [fd_path]. now apply Hf.
Qed.

(** ** The whole run *)

Lemma sorted_blocks_unique files min_lines ign blocks sorted :
  lines_wf files -> 1 <= min_lines ->
  find_repeated_blocks_loaded files min_lines ign blocks ->
  std_sorted block_before blocks sorted ->
  sorted = sort_by block_before
             (find_repeated_blocks_fn files min_lines ign).
Proof.
  intros Hwf Hmin Hfind Hsort.
  apply (std_sorted_unique block_before blocks
           (find_repeated_blocks_fn files min_lines ign)).
  - intros x y Hx Hy H1 H2.
    apply (same_lines_same_block files min_lines ign Hwf Hmin blocks);
      try assumption.
    now apply block_before_incomparable.
  - now apply find_repeated_blocks_perm.
  - exact Hsort.
  - apply sort_by_std_sorted;
      [apply block_before_asym|apply block_before_negtrans].
Qed.

Lemma main_fn_run gen probe fs args :
  main gen probe fs args (main_fn gen probe fs args).
Proof.
  unfold main, main_fn.
  destruct (main_args args) as [| | |min_lines ign dbg patterns];
    try reflexivity.
  destruct (expand_globs gen probe patterns) as [results|]; [|reflexivity].
  exists (sort_by path_before results),
         (find_repeated_blocks_fn
            (load_files fs (sort_by path_before results)) min_lines ign),
         (sort_by block_before
            (find_repeated_blocks_fn
               (load_files fs (sort_by path_before results)) min_lines ign)).
  split; [apply sort_by_std_sorted;
          [apply path_before_asym|apply path_before_negtrans]|].
  split; [apply find_repeated_blocks_fn_run|].
  split; [|reflexivity].
  apply sort_by_std_sorted;
    [apply block_before_asym|apply block_before_negtrans].
Qed.

Lemma main_unique gen probe1 probe2 fs args r1 r2 :
  (forall base, same_listing (probe1 base) (probe2 base)) ->
  main gen probe1 fs args r1 -> main gen probe2 fs args r2 -> r1 = r2.
Proof.
  intros Hs. unfold main.
  destruct (main_args args) as [| | |min_lines ign dbg patterns] eqn:A;
    try congruence.
  apply parse_args_min in A.
  pose proof (expand_globs_same_listing gen probe1 probe2 patterns Hs) as P.
  destruct (expand_globs gen probe1 patterns) as [res1|] eqn:E1,
           (expand_globs gen probe2 patterns) as [res2|] eqn:E2;
    try contradiction; [|congruence].
  intros (files1 & blocks1 & sorted1 & F1 & B1 & S1 & ->)
         (files2 & blocks2 & sorted2 & F2 & B2 & S2 & ->).
  assert (files1 = files2) as <-.
  { apply (std_sorted_unique path_before res1 res2); try assumption.
    intros x y _ _. apply string_ltb_total. }
  unfold find_repeated_blocks in B1, B2.
  rewrite (sorted_blocks_unique _ _ _ _ _
             (load_files_wf fs files1) A B1 S1).
  rewrite (sorted_blocks_unique _ _ _ _ _
             (load_files_wf fs files1) A B2 S2).
  reflexivity.
Qed.

(** ** No repeated window is missed *)

Lemma two_members_length {A} (x y : A) l :
  In x l -> In y l -> x <> y -> 2 <= List.length l.
Proof.
  destruct l as [|a [|b l]]; cbn [In List.length]; [tauto| |lia].
  intros [<-|[]] [<-|[]] N. now destruct N.
Qed.

Lemma Forall2_In_l {A B} (R : A -> B -> Prop) l l' x :
  Forall2 R l l' -> In x l -> exists y, In y l' /\ R x y.
Proof.
  induction 1 as [|a b l l' Hab _ IH]; intros Hin; [destruct Hin|].
  destruct Hin as [<-|Hin].
  - exists b. split; [now left|exact Hab].
  - destruct (IH Hin) as (y & Hy & Hr). exists y. split; [now right|exact Hr].
Qed.

Lemma distinct_paths files i j :
  NoDup (map fd_path files) ->
  i < List.length files -> j < List.length files -> i <> j ->
  fd_path (file_at files i) <> fd_path (file_at files j).
Proof.
  intros Hnd Hi Hj Hij E. apply Hij.
  apply (proj1 (NoDup_nth (map fd_path files) EmptyString) Hnd);
    rewrite ?length_map; try assumption.
  unfold file_at in E.
  change EmptyString with (fd_path no_file).
  now rewrite !map_nth.
Qed.

(** The block of a seed group reaches the output, with all its hits. *)
Lemma group_reported files min_lines ign out K occs h1 h2 :
  lines_wf files -> 1 <= min_lines ->
  detect_duplicates files min_lines ign out ->
  In (K, occs) (build_seeds files min_lines ign) ->
  2 <= List.length occs ->
  In h1 (b_hits (group_block files min_lines ign (K, occs))) ->
  In h2 (b_hits (group_block files min_lines ign (K, occs))) ->
  h1 <> h2 ->
  exists b,
    In b out
    /\ b_lines b = b_lines (group_block files min_lines ign (K, occs))
    /\ forall h, In h (b_hits (group_block files min_lines ign (K, occs))) ->
                 In h (b_hits b).
Proof.
  intros Hwf Hmin (blocks & sorted & [order1 order2 P1 P2] & [Ps _] & Hemit)
    Hin Hocc Hh1 Hh2 Hne.
  assert (I1 : incl order1 (build_seeds files min_lines ign)).
  { intros e He. eapply Permutation_in; [symmetry; exact P1|exact He]. }
  assert (Hin1 : In (K, occs) order1)
    by (eapply Permutation_in; [exact P1|exact Hin]).
  pose proof (fold_process_reached files min_lines ign Hmin order1 []
                (K, occs) Hin1 Hocc) as Hk.
  apply in_map_iff in Hk as ([K' agg] & HK & He). cbn [fst] in HK. subst K'.
  destruct (by_content_canonical files min_lines ign Hwf Hmin _ _ _ I1 He)
    as ([K0 occs0] & Hin0 & _ & EK & ->).
  assert (EB : group_block files min_lines ign (K, occs)
               = group_block files min_lines ign (K0, occs0)).
  { apply group_block_coherent; try assumption. now apply I1. }
  rewrite <- EB in He.
  set (blk := group_block files min_lines ign (K, occs)) in *.
  assert (Hall : forall h, In h (b_hits blk) ->
                           In h (agg_hits (merge_block blk empty_agg))).
  { intros h Hh. apply merge_block_In; [apply good_empty_agg|now right]. }
  assert (Hlen : 2 <= List.length (agg_hits (merge_block blk empty_agg))).
  { apply (two_members_length h1 h2); [| |exact Hne]; now apply Hall. }
  assert (Hb : In (mkBlock (agg_lines (merge_block blk empty_agg))
                           (agg_hits (merge_block blk empty_agg))) sorted).
  { eapply Permutation_in; [exact Ps|]. apply in_flat_map.
    exists (content_key ign blk, merge_block blk empty_agg). split.
    - eapply Permutation_in; [exact P2|exact He].
    - unfold collect_block. cbn [snd].
      destruct (Nat.leb_spec 2
                  (List.length (agg_hits (merge_block blk empty_agg))));
        [now left|lia]. }
  destruct (Forall2_In_l _ _ _ _ Hemit Hb) as (b & Hbo & Hl & [Hp _]).
  cbn [b_lines b_hits] in Hl, Hp.
  exists b. split; [exact Hbo|]. split.
  - rewrite Hl, merge_block_lines. reflexivity.
  - intros h Hh. eapply Permutation_in; [exact Hp|now apply Hall].
Qed.

(** X16. No repeated window is missed: any two different places that
    hold the same [min_lines] lines, as the comparison sees them, lie in
    two different hits of one emitted block, at the same offset from the
    hits' first lines. *)
Theorem repeated_window_reported files min_lines ign out o1 o2 :
  lines_wf files -> 1 <= min_lines -> NoDup (map fd_path files) ->
  detect_duplicates files min_lines ign out ->
  fits files min_lines o1 -> fits files min_lines o2 -> o1 <> o2 ->
  window_norm files ign o1 min_lines = window_norm files ign o2 min_lines ->
  exists b h1 h2,
    In b out /\ In h1 (b_hits b) /\ In h2 (b_hits b) /\ h1 <> h2
    /\ covers files min_lines h1 o1 /\ covers files min_lines h2 o2
    /\ start o1 + 1 - start_line h1 = start o2 + 1 - start_line h2.
Proof.
  intros Hwf Hmin Hnd Hrun F1 F2 Hne Ew.
  set (K := seed_key files min_lines ign o1).
  assert (EK : seed_key files min_lines ign o2 = K)
    by (unfold K; now rewrite !seed_key_window, Ew).
  set (occs := bucket K (seed_windows files min_lines ign)).
  assert (M1 : In o1 occs)
    by (apply in_bucket, in_seed_windows; split; [exact F1|reflexivity]).
  assert (M2 : In o2 occs)
    by (apply in_bucket, in_seed_windows; split; [exact F2|now symmetry]).
  assert (Hin : In (K, occs) (build_seeds files min_lines ign)).
  { apply build_seeds_bucket. split; [reflexivity|]. intros E.
    rewrite E in M1. destruct M1. }
  assert (Hocc : 2 <= List.length occs)
    by (apply (two_members_length o1 o2); assumption).
  destruct (group_facts_exist files min_lines ign Hwf Hmin K occs Hin)
    as (o0 & bk & n & G).
  pose proof (gf_start_ge _ _ _ _ _ _ _ _ G o1 M1) as S1.
  pose proof (gf_start_ge _ _ _ _ _ _ _ _ G o2 M2) as S2.
  pose proof (gf_len_ge _ _ _ _ _ _ _ _ G) as Ln.
  set (h1 := hit_of files n (shift_back bk o1)).
  set (h2 := hit_of files n (shift_back bk o2)).
  assert (B1 : In h1 (b_hits (group_block files min_lines ign (K, occs)))).
  { rewrite (gf_block _ _ _ _ _ _ _ _ G). cbn [b_hits].
    apply in_map, in_map, M1. }
  assert (B2 : In h2 (b_hits (group_block files min_lines ign (K, occs)))).
  { rewrite (gf_block _ _ _ _ _ _ _ _ G). cbn [b_hits].
    apply in_map, in_map, M2. }
  assert (N12 : h1 <> h2).
  { unfold h1, h2, hit_of. cbn [shift_back file_index start]. intros E.
    injection E as Ep Es _.
    destruct (Nat.eq_dec (file_index o1) (file_index o2)) as [Ei|Ni].
    - apply Hne. destruct o1, o2. cbn in *. f_equal; lia.
    - revert Ep. apply distinct_paths; try assumption;
        [apply F1|apply F2]. }
  destruct (group_reported files min_lines ign out K occs h1 h2
              Hwf Hmin Hrun Hin Hocc B1 B2 N12) as (b & Hb & _ & Hh).
  exists b, h1, h2.
  split; [exact Hb|]. split; [now apply Hh|]. split; [now apply Hh|].
  split; [exact N12|].
  unfold covers, h1, h2, hit_of.
  cbn [h_path start_line end_line shift_back file_index start].
  repeat split; lia.
Qed.

Lemma repeated_window_reported_witness :
  exists b h1 h2,
    In b (detect_duplicates_fn scenario_A 3 false)
    /\ In h1 (b_hits b) /\ In h2 (b_hits b) /\ h1 <> h2
    /\ covers scenario_A 3 h1 (mkOcc 0 2) /\ covers scenario_A 3 h2 (mkOcc 1 1)
    /\ 2 + 1 - start_line h1 = 1 + 1 - start_line h2.
Proof.
  apply (repeated_window_reported scenario_A 3 false
           (detect_duplicates_fn scenario_A 3 false) (mkOcc 0 2) (mkOcc 1 1)).
  - exact scenario_A_wf.
  - lia.
  - exact scenario_A_paths.
  - apply detect_duplicates_fn_run.
  - split; cbn; lia.
  - split; cbn; lia.
  - discriminate.
  - reflexivity.
Defined.

(** ** No block is reported twice *)

Lemma collected_keys (g : DuplicateBlock -> string)
    (l : list (string * Agg)) :
  NoDup (map fst l) ->
  (forall e b, In e l -> In b (collect_block e) -> g b = fst e) ->
  NoDup (map g (flat_map collect_block l)).
Proof.
  induction l as [|e l IH]; intros Hnd Hk; [constructor|].
  cbn [map flat_map] in *. inversion Hnd as [|? ? Hn Hnd']; subst.
  rewrite map_app. unfold collect_block at 1.
  destruct (Nat.leb 2 (List.length (agg_hits (snd e)))) eqn:E.
  - cbn [map List.app]. constructor.
    + intros Hin. apply Hn. apply in_map_iff in Hin as (b & Hb & Hin).
      apply in_flat_map in Hin as (e' & He' & Hb').
      rewrite (Hk e' b (or_intror He') Hb') in Hb.
      assert (Hg : g (mkBlock (agg_lines (snd e)) (agg_hits (snd e)))
                   = fst e).
      { apply Hk; [now left|]. unfold collect_block. rewrite E. now left. }
      rewrite Hg in Hb. rewrite <- Hb. now apply in_map.
    + apply IH; [exact Hnd'|]. intros e' b He'. apply Hk. now right.
  - cbn [map List.app]. apply IH; [exact Hnd'|].
    intros e' b He'. apply Hk. now right.
Qed.

Lemma content_key_norm ign b :
  content_key ign b = String.concat NL (map (norm_line ign) (b_lines b)).
Proof. unfold content_key. apply join_lines_norm_all. Qed.

Lemma Forall2_map_same {A B C} (R : A -> B -> Prop) (f : A -> C)
    (g : B -> C) l l' :
  (forall x y, R x y -> f x = g y) -> Forall2 R l l' -> map f l = map g l'.
Proof.
  intros H. induction 1 as [|x y l l' Hxy _ IH]; [reflexivity|].
  cbn [map]. now rewrite (H x y Hxy), IH.
Qed.

(** X17. No block is reported twice: the emitted blocks have pairwise
    different contents, as the comparison sees them. *)
Theorem emitted_blocks_distinct files min_lines ign out :
  lines_wf files -> 1 <= min_lines ->
  detect_duplicates files min_lines ign out ->
  NoDup (map (fun b => map (norm_line ign) (b_lines b)) out).
Proof.
  intros Hwf Hmin (blocks & sorted & [order1 order2 P1 P2] & [Ps _] & Hemit).
  assert (I1 : incl order1 (build_seeds files min_lines ign)).
  { intros e He. eapply Permutation_in; [symmetry; exact P1|exact He]. }
  assert (Hk : NoDup (map (content_key ign) (flat_map collect_block order2))).
  { apply collected_keys.
    - eapply Permutation_NoDup; [apply Permutation_map; exact P2|].
      apply by_content_NoDup.
    - intros [K agg] b He Hb. apply In_collect_block in Hb as [-> _].
      cbn [fst snd].
      assert (He' : In (K, agg) (by_content_of files min_lines ign order1))
        by (eapply Permutation_in; [symmetry; exact P2|exact He]).
      symmetry.
      apply (canonical_lines files min_lines ign order1 K agg).
      now apply by_content_canonical. }
  assert (Hs : NoDup (map (content_key ign) sorted)).
  { eapply Permutation_NoDup; [apply Permutation_map; exact Ps|exact Hk]. }
  assert (Ho : map (content_key ign) sorted = map (content_key ign) out).
  { apply (Forall2_map_same emitted); [|exact Hemit].
    intros x y [Hl _]. unfold content_key. now rewrite Hl. }
  rewrite Ho in Hs.
  apply (NoDup_map_inv (String.concat NL)).
  rewrite map_map.
  erewrite map_ext; [exact Hs|].
  intros b. cbv beta. symmetry. apply content_key_norm.
Qed.

Lemma emitted_blocks_distinct_witness :
  NoDup (map (fun b => map (norm_line false) (b_lines b))
           (detect_duplicates_fn scenario_sorted 2 false)).
Proof.
  apply (emitted_blocks_distinct scenario_sorted 2 false).
  - repeat constructor.
  - lia.
  - apply detect_duplicates_fn_run.
Defined.

(** ** The comparators handed to [std::sort] *)

Lemma block_before_irrefl a : block_before a a = false.
Proof.
  destruct (block_before a a) eqn:E; [|reflexivity].
  pose proof (block_before_asym a a E). congruence.
Qed.

Lemma block_before_trans a b c :
  block_before a b = true -> block_before b c = true ->
  block_before a c = true.
Proof.
  intros H1 H2. destruct (block_before a c) eqn:E; [reflexivity|].
  pose proof (block_before_negtrans _ _ _ E (block_before_asym _ _ H2)).
  congruence.
Qed.

(** X18. Each comparator [main] and [print_yaml] hand to [std::sort] is
    a strict weak ordering (irreflexive, transitive, with a transitive
    incomparability), as [std::sort] requires; on hits and on paths,
    values that do not compare either way are equal. *)
Theorem comparators_strict_weak :
  ((forall a, block_before a a = false)
   /\ (forall a b c, block_before a b = true -> block_before b c = true ->
                     block_before a c = true)
   /\ (forall a b c, block_before a b = false -> block_before b c = false ->
                     block_before a c = false))
  /\ ((forall a, hit_before a a = false)
      /\ (forall a b c, hit_before a b = true -> hit_before b c = true ->
                        hit_before a c = true)
      /\ (forall a b c, hit_before a b = false -> hit_before b c = false ->
                        hit_before a c = false)
      /\ (forall a b, hit_before a b = false -> hit_before b a = false ->
                      a = b))
  /\ ((forall a, path_before a a = false)
      /\ (forall a b c, path_before a b = true -> path_before b c = true ->
                        path_before a c = true)
      /\ (forall a b c, path_before a b = false -> path_before b c = false ->
                        path_before a c = false)
      /\ (forall a b, path_before a b = false -> path_before b a = false ->
                      a = b)).
Proof.
  split; [|split].
  - split; [exact block_before_irrefl|].
    split; [exact block_before_trans|exact block_before_negtrans].
  - split; [exact hit_before_irrefl|]. split; [exact hit_before_trans|].
    split; [|exact hit_before_total].
    exact (strict_negtrans hit_before hit_before_trans hit_before_total).
  - split; [exact string_ltb_irrefl|]. split; [exact string_ltb_trans|].
    split; [exact path_before_negtrans|exact string_ltb_total].
Qed.

(** ** The keys of the two hash maps *)

(** X19. Seed keys do not collide: on lines free of line feeds, two
    non-empty windows have the same joined key only if they have the
    same number of lines and agree line by line, as the comparison sees
    the lines. *)
Theorem join_lines_norm_injective v1 v2 i1 j1 i2 j2 ign :
  Forall no_lf v1 -> Forall no_lf v2 -> i1 < j1 -> i2 < j2 ->
  join_lines_norm v1 i1 j1 ign = join_lines_norm v2 i2 j2 ign ->
  j1 - i1 = j2 - i2
  /\ forall k, k < j1 - i1 ->
       norm_line ign (nth (i1 + k) v1 EmptyString)
       = norm_line ign (nth (i2 + k) v2 EmptyString).
Proof.
  intros H1 H2 L1 L2 E. unfold join_lines_norm in E.
  assert (W : forall v i n, Forall no_lf v ->
            Forall no_lf
              (map (fun k => norm_line ign (nth k v EmptyString)) (seq i n))).
  { intros v i n Hv. apply Forall_map, Forall_forall. intros k _.
    apply norm_line_no_lf.
    destruct (nth_in_or_default k v EmptyString) as [Hin| ->];
      [|reflexivity].
    rewrite Forall_forall in Hv. now apply Hv. }
  apply concat_nl_inj in E; try now apply W.
  - pose proof (f_equal (@List.length _) E) as L.
    rewrite !length_map, !length_seq in L. split; [exact L|].
    rewrite <- L in E.
    exact (proj1 (map_seq_eq_iff _ _ (j1 - i1) i1 i2) E).
  - intros H. apply (f_equal (@List.length _)) in H.
    rewrite length_map, length_seq in H. cbn in H. lia.
  - intros H. apply (f_equal (@List.length _)) in H.
    rewrite length_map, length_seq in H. cbn in H. lia.
Qed.

Lemma join_lines_norm_injective_witness :
  2 - 0 = 3 - 1
  /\ forall k, k < 2 - 0 ->
       norm_line true (nth (0 + k) ["  a"; "b"] EmptyString)
       = norm_line true (nth (1 + k) ["x"; "a"; " b"] EmptyString).
Proof.
  apply (join_lines_norm_injective ["  a"; "b"] ["x"; "a"; " b"] 0 2 1 3 true).
  - repeat constructor.
  - repeat constructor.
  - lia.
  - lia.
  - reflexivity.
Defined.

(** X20. Hit keys do not collide: the key written for a hit determines
    its path, its first and its last line, also when the path itself
    holds line feeds or digits. *)
Theorem hit_key_injective h1 h2 : hit_key h1 = hit_key h2 <-> h1 = h2.
Proof.
  split; [apply hit_key_inj|now intros ->].
Qed.

(** ** Line loading *)

Lemma rstrip_cr_cons c l :
  c <> CR -> rstrip_cr (String c l) = String c (rstrip_cr l).
Proof.
  intros N. destruct l as [|d l]; [|reflexivity].
  cbn [rstrip_cr]. destruct (Ascii.eqb_spec c CR); [contradiction|reflexivity].
Qed.

Lemma rstrip_cr_no_cr s : has_char CR s = false -> rstrip_cr s = s.
Proof.
  unfold has_char. induction s as [|c s IH]; [reflexivity|].
  cbn [list_ascii_of_string existsb]. intros H.
  apply orb_false_elim in H as [Hc Hs].
  rewrite Ascii.eqb_sym in Hc. apply Ascii.eqb_neq in Hc.
  rewrite rstrip_cr_cons by exact Hc. now rewrite IH.
Qed.

Lemma getlines_crlf s :
  has_char CR s = false ->
  map rstrip_cr (getlines (to_crlf s)) = getlines s.
Proof.
  unfold has_char. induction s as [|c s IH]; [reflexivity|].
  cbn [list_ascii_of_string existsb]. intros H.
  apply orb_false_elim in H as [Hc Hs]. specialize (IH Hs).
  rewrite Ascii.eqb_sym in Hc. apply Ascii.eqb_neq in Hc.
  cbn [to_crlf getlines].
  destruct (Ascii.eqb_spec c LF) as [->|Nlf].
  - cbn [getlines]. change (Ascii.eqb CR LF) with false. cbv iota.
    rewrite Ascii.eqb_refl. cbn [map]. rewrite IH.
    cbn [rstrip_cr]. now rewrite Ascii.eqb_refl.
  - cbn [getlines]. destruct (Ascii.eqb_spec c LF); [contradiction|].
    destruct (getlines (to_crlf s)) as [|l ls]; cbn [map] in *.
    + rewrite <- IH. cbn [map rstrip_cr].
      destruct (Ascii.eqb_spec c CR); [contradiction|reflexivity].
    + rewrite <- IH. rewrite rstrip_cr_cons by exact Hc. reflexivity.
Qed.

Lemma getlines_no_cr s :
  has_char CR s = false -> map rstrip_cr (getlines s) = getlines s.
Proof.
  unfold has_char. induction s as [|c s IH]; [reflexivity|].
  cbn [list_ascii_of_string existsb]. intros H.
  apply orb_false_elim in H as [Hc Hs]. specialize (IH Hs).
  rewrite Ascii.eqb_sym in Hc. apply Ascii.eqb_neq in Hc.
  cbn [getlines]. destruct (Ascii.eqb c LF).
  - cbn [map rstrip_cr]. now rewrite IH.
  - destruct (getlines s) as [|l ls]; cbn [map] in *.
    + cbn [rstrip_cr].
      destruct (Ascii.eqb_spec c CR); [contradiction|reflexivity].
    + injection IH as I1 I2. rewrite rstrip_cr_cons by exact Hc.
      now rewrite I1, I2.
Qed.

(** X21. Line endings do not matter: a text without carriage returns
    loads to the same lines whether its lines end in a line feed or in a
    carriage return and a line feed. *)
Theorem crlf_loads_as_lf s :
  has_char CR s = false ->
  read_lines_normalized (Some (to_crlf s)) = read_lines_normalized (Some s).
Proof.
  intros H. unfold read_lines_normalized.
  now rewrite (getlines_crlf s H), (getlines_no_cr s H).
Qed.

Lemma crlf_loads_as_lf_witness :
  read_lines_normalized
    (Some (to_crlf (String.append "x" (String LF (String.append "y"
                      (String LF "z"))))))
  = ["x"; "y"; "z"].
Proof.
  rewrite (crlf_loads_as_lf
             (String.append "x" (String LF (String.append "y"
                (String LF "z"))))); reflexivity.
Defined.

Lemma getlines_cons_nonempty c s : getlines (String c s) <> [].
Proof.
  cbn [getlines]. destruct (Ascii.eqb c LF); [discriminate|].
  destruct (getlines s); discriminate.
Qed.

Lemma getlines_head_prefix s l ls :
  getlines s = l :: ls -> starts_with l s = true.
Proof.
  revert l ls. induction s as [|c s IH]; intros l ls; [discriminate|].
  cbn [getlines]. destruct (Ascii.eqb c LF).
  - intros [= <- _]. reflexivity.
  - destruct (getlines s) as [|l' ls'] eqn:E.
    + intros [= <- _]. cbn [starts_with]. now rewrite Ascii.eqb_refl.
    + intros [= <- _]. cbn [starts_with]. rewrite Ascii.eqb_refl.
      now apply (IH l' ls').
Qed.

Lemma rstrip_cr_prefix l : starts_with (rstrip_cr l) l = true.
Proof.
  induction l as [|c l IH]; [reflexivity|].
  destruct l as [|d l].
  - cbn [rstrip_cr]. destruct (Ascii.eqb c CR); [reflexivity|].
    cbn [starts_with]. now rewrite Ascii.eqb_refl.
  - change (rstrip_cr (String c (String d l)))
      with (String c (rstrip_cr (String d l))).
    cbn [starts_with]. now rewrite Ascii.eqb_refl, IH.
Qed.

Lemma starts_with_trans a b c :
  starts_with a b = true -> starts_with b c = true -> starts_with a c = true.
Proof.
  revert b c. induction a as [|x a IH]; intros [|y b] [|z c]; cbn;
    try discriminate; try reflexivity.
  intros H1 H2. apply andb_prop in H1 as [E1 H1].
  apply andb_prop in H2 as [E2 H2].
  apply Ascii.eqb_eq in E1, E2. subst. rewrite Ascii.eqb_refl.
  now apply (IH b c).
Qed.

Lemma strip_utf8_bom_fixed s :
  strip_utf8_bom s = s <-> starts_with UTF8_BOM s = false.
Proof.
  destruct s as [|a [|b [|c r]]].
  - split; reflexivity.
  - cbn [strip_utf8_bom starts_with UTF8_BOM].
    rewrite andb_false_r. split; reflexivity.
  - cbn [strip_utf8_bom starts_with UTF8_BOM].
    rewrite !andb_false_r. split; reflexivity.
  - cbn [strip_utf8_bom starts_with UTF8_BOM].
    rewrite andb_true_r, andb_assoc.
    rewrite (Ascii.eqb_sym a), (Ascii.eqb_sym b), (Ascii.eqb_sym c).
    destruct (Ascii.eqb _ a && Ascii.eqb _ b && Ascii.eqb _ c)%bool.
    + split; [|discriminate]. intros E.
      apply (f_equal String.length) in E. cbn in E. lia.
    + split; reflexivity.
Qed.

Lemma getlines_push c s l ls :
  c <> LF -> getlines s = l :: ls -> getlines (String c s) = String c l :: ls.
Proof.
  intros N E. cbn [getlines].
  destruct (Ascii.eqb_spec c LF); [contradiction|]. now rewrite E.
Qed.

Lemma getlines_bom c s :
  exists l ls,
    getlines (String c s) = l :: ls
    /\ getlines (String.append UTF8_BOM (String c s))
       = String.append UTF8_BOM l :: ls.
Proof.
  destruct (getlines (String c s)) as [|l ls] eqn:E;
    [now apply getlines_cons_nonempty in E|].
  exists l, ls. split; [reflexivity|].
  unfold UTF8_BOM. cbn [String.append].
  do 3 (apply getlines_push; [discriminate|]). exact E.
Qed.

Lemma rstrip_cr_bom l :
  rstrip_cr (String.append UTF8_BOM l) = String.append UTF8_BOM (rstrip_cr l).
Proof.
  unfold UTF8_BOM. cbn [String.append].
  destruct l as [|d l]; [reflexivity|].
  rewrite !rstrip_cr_cons by discriminate. reflexivity.
Qed.

(** X22. A byte order mark before a text is transparent: if the text is
    not empty and does not itself start with the mark, it loads to the
    same lines with and without the mark. *)
Theorem bom_is_transparent s :
  s <> EmptyString -> strip_utf8_bom s = s ->
  read_lines_normalized (Some (String.append UTF8_BOM s))
  = read_lines_normalized (Some s).
Proof.
  intros Hne Hs. destruct s as [|c s]; [congruence|].
  destruct (getlines_bom c s) as (l & ls & E1 & E2).
  unfold read_lines_normalized. rewrite E1, E2. cbn [map].
  rewrite rstrip_cr_bom. f_equal.
  assert (F : strip_utf8_bom (rstrip_cr l) = rstrip_cr l).
  { apply strip_utf8_bom_fixed. apply strip_utf8_bom_fixed in Hs.
    destruct (starts_with UTF8_BOM (rstrip_cr l)) eqn:P; [|reflexivity].
    rewrite <- Hs. symmetry.
    apply (starts_with_trans _ (rstrip_cr l)); [exact P|].
    apply (starts_with_trans _ l); [apply rstrip_cr_prefix|].
    now apply (getlines_head_prefix _ l ls). }
  rewrite F. reflexivity.
Qed.

Lemma bom_is_transparent_witness :
  read_lines_normalized
    (Some (String.append UTF8_BOM (String.append "x" (String LF "y"))))
  = ["x"; "y"].
Proof.
  rewrite (bom_is_transparent (String.append "x" (String LF "y")));
    [reflexivity|discriminate|reflexivity].
Defined.

Lemma getlines_line x rest :
  no_lf x -> getlines (String.append x (String LF rest)) = x :: getlines rest.
Proof.
  induction x as [|c x IH]; intros H.
  - cbn [String.append getlines]. now rewrite Ascii.eqb_refl.
  - apply no_lf_cons in H as [Hc Hx].
    cbn [String.append getlines].
    destruct (Ascii.eqb_spec c LF); [contradiction|].
    now rewrite (IH Hx).
Qed.

Lemma getlines_last x :
  no_lf x -> x <> EmptyString -> getlines x = [x].
Proof.
  induction x as [|c x IH]; intros H N; [congruence|].
  apply no_lf_cons in H as [Hc Hx]. cbn [getlines].
  destruct (Ascii.eqb_spec c LF); [contradiction|].
  destruct x as [|d x]; [reflexivity|].
  rewrite (IH Hx) by discriminate. reflexivity.
Qed.

Lemma join_lines_all l :
  join_lines l 0 (List.length l) = String.concat NL l.
Proof.
  unfold join_lines. rewrite Nat.sub_0_r.
  now rewrite (map_nth_seq (fun x => x) EmptyString l), map_id.
Qed.

Lemma getlines_concat l :
  Forall no_lf l -> l <> [] ->
  getlines (String.append (String.concat NL l) NL) = l
  /\ (last l EmptyString <> EmptyString -> getlines (String.concat NL l) = l).
Proof.
  induction l as [|x l IH]; intros H N; [congruence|].
  inversion H as [|? ? Hx Hl]; subst.
  destruct l as [|y l].
  - cbn [String.concat last]. split.
    + unfold NL. now rewrite getlines_line.
    + intros Hne. now apply getlines_last.
  - destruct (IH Hl) as [I1 I2]; [discriminate|].
    rewrite concat_cons2. split.
    + rewrite append_assoc_str.
      change (String.append (String LF (String.concat NL (y :: l))) NL)
        with (String LF (String.append (String.concat NL (y :: l)) NL)).
      now rewrite getlines_line, I1.
    + intros Hne. rewrite getlines_line by exact Hx.
      rewrite I2; [reflexivity|exact Hne].
Qed.

(** X23. Writing lines and loading them again gives the lines back: for
    lines without line feed or trailing carriage return, the first not
    starting with a byte order mark, the text [join_lines] makes of
    them, followed by a line feed, loads to these lines, and so does
    the text without the final line feed unless the last line is
    empty. *)
Theorem lines_round_trip l :
  Forall no_lf l -> Forall (fun x => rstrip_cr x = x) l ->
  strip_utf8_bom (hd EmptyString l) = hd EmptyString l -> l <> [] ->
  read_lines_normalized
    (Some (String.append (join_lines l 0 (List.length l)) NL)) = l
  /\ (last l EmptyString <> EmptyString ->
      read_lines_normalized (Some (join_lines l 0 (List.length l))) = l).
Proof.
  intros Hlf Hcr Hbom Hne. rewrite join_lines_all.
  destruct (getlines_concat l Hlf Hne) as [G1 G2].
  assert (M : map rstrip_cr l = l).
  { clear -Hcr. induction Hcr as [|x l Hx _ IH]; [reflexivity|].
    cbn [map]. now rewrite Hx, IH. }
  unfold read_lines_normalized. split.
  - rewrite G1, M. destruct l as [|x l]; [congruence|].
    cbn [hd] in Hbom. now rewrite Hbom.
  - intros Hl. rewrite (G2 Hl), M. destruct l as [|x l]; [congruence|].
    cbn [hd] in Hbom. now rewrite Hbom.
Qed.

Lemma lines_round_trip_witness :
  read_lines_normalized
    (Some (String.append (join_lines ["a"; ""; " b"] 0 3) NL))
  = ["a"; ""; " b"].
Proof.
  apply (lines_round_trip ["a"; ""; " b"]);
    try discriminate; try reflexivity; repeat constructor.
Defined.

(** ** Patterns and slashes *)

Lemma accepts_slashes wide toks s :
  glob_accepts wide toks s ->
  token_slashes toks <= count_char SLASH s
  /\ (~ In TStarStar toks -> count_char SLASH s = token_slashes toks).
Proof.
  induction 1 as [|c toks s _ [IH1 IH2]|c toks s Hc _ [IH1 IH2]
                  |toks s _ [IH1 IH2]|c toks s Hc _ [IH1 IH2]
                  |toks s _ [IH1 IH2]|c toks s Hc _ [IH1 IH2]];
    cbn [token_slashes count_char In] in *.
  - split; [lia|reflexivity].
  - split; [lia|]. intros N. rewrite IH2; [reflexivity|].
    intros H. apply N. now right.
  - destruct (Ascii.eqb_spec c SLASH); [contradiction|].
    split; [lia|]. intros N. rewrite IH2; [reflexivity|].
    intros H. apply N. now right.
  - split; [lia|]. intros N. apply IH2. intros H. apply N. now right.
  - destruct (Ascii.eqb_spec c SLASH); [contradiction|].
    split; [lia|]. intros N. cbn [Nat.add]. apply IH2. intros [H|H];
      [discriminate|]. apply N. now right.
  - split; [lia|]. intros N. exfalso. apply N. now left.
  - split; [lia|]. intros N. exfalso. apply N. now left.
Qed.

Lemma count_char_skip_stars r :
  count_char SLASH (skip_stars r) = count_char SLASH r.
Proof.
  induction r as [|c r IH]; [reflexivity|]. cbn [skip_stars count_char].
  destruct (Ascii.eqb_spec c STAR) as [->|]; [|reflexivity].
  rewrite IH. reflexivity.
Qed.

Lemma token_slashes_tokens s :
  token_slashes (glob_tokens s) = count_char SLASH s.
Proof.
  funelim (glob_tokens s); [reflexivity|].
  cbn [count_char].
  destruct (Ascii.eqb_spec c STAR) as [->|N1].
  - destruct (Nat.leb 2 (S (count_stars r))); cbn [token_slashes];
      rewrite H, count_char_skip_stars; reflexivity.
  - destruct (Ascii.eqb_spec c QUESTION) as [->|N2].
    + cbn [token_slashes]. now rewrite H0.
    + cbn [token_slashes]. now rewrite H0.
Qed.

Lemma no_double_star_tokens s :
  has_double_star s = false -> ~ In TStarStar (glob_tokens s).
Proof.
  funelim (glob_tokens s); [intros _ []|].
  intros D.
  assert (Dr : has_double_star r = false).
  { cbn [has_double_star] in D. destruct r as [|b r']; [reflexivity|].
    now apply orb_false_elim in D. }
  destruct (Ascii.eqb_spec c STAR) as [->|N1].
  - assert (Hr : count_stars r = 0 /\ skip_stars r = r).
    { destruct r as [|b r']; [split; reflexivity|].
      cbn [has_double_star] in D. apply orb_false_elim in D as [D _].
      rewrite Ascii.eqb_refl in D. cbn [andb] in D.
      cbn [count_stars skip_stars]. rewrite D. split; reflexivity. }
    destruct Hr as [-> Hs]. cbn [Nat.leb].
    intros [E|Hin]; [discriminate|]. revert Hin. apply H.
    now rewrite Hs.
  - destruct (Ascii.eqb_spec c QUESTION) as [->|N2].
    + intros [E|Hin]; [discriminate|]. now apply (H0 Dr).
    + intros [E|Hin]; [discriminate|]. now apply (H0 Dr).
Qed.

(** X24. A single star and a question mark never match a slash: a
    relative path string the predicate accepts has at least as many
    slashes as the suffix, and exactly as many when the suffix holds no
    two stars in a row. *)
Theorem glob_directory_levels suffix rel :
  glob_matches suffix rel = true ->
  count_char SLASH suffix <= count_char SLASH rel
  /\ (has_double_star suffix = false ->
      count_char SLASH rel = count_char SLASH suffix).
Proof.
  intros H. apply glob_matches_accepts in H.
  destruct (accepts_slashes _ _ _ H) as [H1 H2].
  rewrite token_slashes_tokens in H1, H2.
  split; [exact H1|]. intros D. apply H2. now apply no_double_star_tokens.
Qed.

Lemma glob_directory_levels_witness :
  glob_matches "*/?.c" "lib/a.c" = true
  /\ count_char SLASH "*/?.c" <= count_char SLASH "lib/a.c"
  /\ (has_double_star "*/?.c" = false ->
      count_char SLASH "lib/a.c" = count_char SLASH "*/?.c").
Proof.
  assert (H : glob_matches "*/?.c" "lib/a.c" = true) by (vm_compute; reflexivity).
  split; [exact H|]. exact (glob_directory_levels "*/?.c" "lib/a.c" H).
Defined.

(** ** The report *)

Lemma append_inj_l a x y :
  String.append a x = String.append a y -> x = y.
Proof.
  induction a as [|c a IH]; cbn [String.append]; [tauto|].
  intros [= H]. now apply IH.
Qed.

Lemma append_empty_r a : String.append a EmptyString = a.
Proof. induction a as [|c a IH]; cbn; [reflexivity|now rewrite IH]. Qed.

Lemma concat_empty_cons x l :
  String.concat EmptyString (x :: l)
  = String.append x (String.concat EmptyString l).
Proof.
  destruct l as [|y l]; cbn [String.concat]; [now rewrite append_empty_r|].
  reflexivity.
Qed.

Lemma sort_by_length {A} (before : A -> A -> bool) l :
  List.length (sort_by before l) = List.length l.
Proof.
  unfold sort_by. induction l as [|x l IH]; [reflexivity|].
  cbn [fold_right List.length].
  rewrite <- (Permutation_length (insert_by_perm before x _)).
  cbn [List.length]. now rewrite IH.
Qed.

Lemma print_hit_shape h rest :
  String.append (print_hit h) rest
  = text_line (String.append "      - file: " (yaml_escape (h_path h)))
      (text_line (String.append "        start_line: " (dec (start_line h)))
         (text_line (String.append "        end_line: " (dec (end_line h)))
            rest)).
Proof.
  unfold print_hit, text_line, NL. rewrite !append_assoc_str. reflexivity.
Qed.

Lemma print_line_shape l rest :
  String.append (print_line l) rest
  = text_line (String.append "      " l) rest.
Proof.
  unfold print_line, text_line, NL. rewrite !append_assoc_str. reflexivity.
Qed.

Lemma print_block_shape b rest :
  String.append (print_block b) rest
  = text_line (String.append "  - lines: " (dec (List.length (b_lines b))))
      (text_line
         (String.append "    bytes: " (dec (bytes_of_lines (b_lines b))))
         (text_line
            (String.append "    occurrences: "
               (dec (List.length (b_hits b))))
            (text_line "    hits:"
               (String.append
                  (String.concat EmptyString
                     (map print_hit (sort_by hit_before (b_hits b))))
                  (text_line "    content: |"
                     (String.append
                        (String.concat EmptyString
                           (map print_line (b_lines b)))
                        rest)))))).
Proof.
  unfold print_block, text_line, NL. rewrite !append_assoc_str. reflexivity.
Qed.

Lemma text_line_inj a b x y :
  no_lf a -> no_lf b -> text_line a x = text_line b y -> a = b /\ x = y.
Proof. apply split_at_lf. Qed.

Lemma labelled_no_lf label s :
  no_lf label -> no_lf s -> no_lf (String.append label s).
Proof.
  unfold no_lf. intros H1 H2. now rewrite count_lf_append, H1, H2.
Qed.

Lemma yaml_escape_inj a b : yaml_escape a = yaml_escape b -> a = b.
Proof.
  unfold yaml_escape. intros H. injection H as H.
  now apply yaml_escape_body_inj.
Qed.

Lemma hits_text_inj hs1 : forall hs2 r1 r2,
  List.length hs1 = List.length hs2 ->
  String.append (String.concat EmptyString (map print_hit hs1)) r1
  = String.append (String.concat EmptyString (map print_hit hs2)) r2 ->
  hs1 = hs2 /\ r1 = r2.
Proof.
  induction hs1 as [|h1 hs1 IH]; intros [|h2 hs2] r1 r2 L E;
    try discriminate.
  - split; [reflexivity|exact E].
  - cbn [map] in E. rewrite !concat_empty_cons, !append_assoc_str in E.
    rewrite !print_hit_shape in E.
    apply text_line_inj in E as [E1 E];
      [|apply labelled_no_lf; [reflexivity|
          apply no_control_no_lf, yaml_escape_no_control]..].
    apply text_line_inj in E as [E2 E];
      [|apply labelled_no_lf; [reflexivity|apply dec_no_lf]..].
    apply text_line_inj in E as [E3 E];
      [|apply labelled_no_lf; [reflexivity|apply dec_no_lf]..].
    apply append_inj_l, yaml_escape_inj in E1.
    apply append_inj_l, dec_inj in E2.
    apply append_inj_l, dec_inj in E3.
    destruct (IH hs2 r1 r2) as [-> ->]; [now injection L|exact E|].
    split; [|reflexivity]. f_equal.
    destruct h1, h2. cbn in *. now subst.
Qed.

Lemma lines_text_inj ls1 : forall ls2 r1 r2,
  List.length ls1 = List.length ls2 ->
  Forall no_lf ls1 -> Forall no_lf ls2 ->
  String.append (String.concat EmptyString (map print_line ls1)) r1
  = String.append (String.concat EmptyString (map print_line ls2)) r2 ->
  ls1 = ls2 /\ r1 = r2.
Proof.
  induction ls1 as [|l1 ls1 IH]; intros [|l2 ls2] r1 r2 L H1 H2 E;
    try discriminate.
  - split; [reflexivity|exact E].
  - inversion H1; inversion H2; subst.
    cbn [map] in E. rewrite !concat_empty_cons, !append_assoc_str in E.
    rewrite !print_line_shape in E.
    apply text_line_inj in E as [E1 E];
      [|apply labelled_no_lf; [reflexivity|assumption]..].
    apply append_inj_l in E1. subst l2.
    destruct (IH ls2 r1 r2) as [-> ->]; try assumption; [now injection L|].
    split; reflexivity.
Qed.

Lemma block_text_inj b1 b2 r1 r2 :
  Forall no_lf (b_lines b1) -> Forall no_lf (b_lines b2) ->
  String.append (print_block b1) r1 = String.append (print_block b2) r2 ->
  emit_block b1 = emit_block b2 /\ r1 = r2.
Proof.
  intros H1 H2 E. rewrite !print_block_shape in E.
  apply text_line_inj in E as [E1 E];
    [|apply labelled_no_lf; [reflexivity|apply dec_no_lf]..].
  apply text_line_inj in E as [_ E];
    [|apply labelled_no_lf; [reflexivity|apply dec_no_lf]..].
  apply text_line_inj in E as [E3 E];
    [|apply labelled_no_lf; [reflexivity|apply dec_no_lf]..].
  apply text_line_inj in E as [_ E]; [|reflexivity..].
  apply append_inj_l, dec_inj in E1.
  apply append_inj_l, dec_inj in E3.
  apply hits_text_inj in E as [Eh E];
    [|now rewrite !sort_by_length].
  apply text_line_inj in E as [_ E]; [|reflexivity..].
  apply lines_text_inj in E as [El E]; try assumption.
  split; [|exact E]. unfold emit_block. now rewrite El, Eh.
Qed.

Lemma print_block_nonempty b rest :
  String.append (print_block b) rest <> EmptyString.
Proof. rewrite print_block_shape. discriminate. Qed.

Lemma blocks_text_inj bs1 : forall bs2,
  Forall (fun b => Forall no_lf (b_lines b)) bs1 ->
  Forall (fun b => Forall no_lf (b_lines b)) bs2 ->
  String.concat EmptyString (map print_block bs1)
  = String.concat EmptyString (map print_block bs2) ->
  map emit_block bs1 = map emit_block bs2.
Proof.
  induction bs1 as [|b1 bs1 IH]; intros [|b2 bs2] H1 H2 E.
  - reflexivity.
  - cbn [map] in E. rewrite concat_empty_cons in E.
    symmetry in E. now apply print_block_nonempty in E.
  - cbn [map] in E. rewrite concat_empty_cons in E.
    now apply print_block_nonempty in E.
  - inversion H1; inversion H2; subst.
    cbn [map] in *. rewrite !concat_empty_cons in E.
    apply block_text_inj in E as [Eb E]; try assumption.
    rewrite Eb. f_equal. now apply IH.
Qed.

(** X25. The report is unambiguous: two sequences of blocks with lines
    free of line feeds that print the same text are the same blocks,
    up to the order in which a block lists its hits, which the report
    sorts. *)
Theorem print_yaml_injective bs1 bs2 :
  Forall (fun b => Forall no_lf (b_lines b)) bs1 ->
  Forall (fun b => Forall no_lf (b_lines b)) bs2 ->
  print_yaml bs1 = print_yaml bs2 ->
  map emit_block bs1 = map emit_block bs2.
Proof.
  intros H1 H2 E. unfold print_yaml, NL in E.
  apply append_inj_l in E. injection E as E.
  now apply blocks_text_inj.
Qed.

Lemma print_yaml_injective_witness :
  map emit_block
    [mkBlock ["a"; "b"] [mkHit "y" 3 4; mkHit "x" 1 2]]
  = map emit_block
    [mkBlock ["a"; "b"] [mkHit "x" 1 2; mkHit "y" 3 4]].
Proof.
  apply (print_yaml_injective
           [mkBlock ["a"; "b"] [mkHit "y" 3 4; mkHit "x" 1 2]]
           [mkBlock ["a"; "b"] [mkHit "x" 1 2; mkHit "y" 3 4]]).
  - repeat constructor.
  - repeat constructor.
  - reflexivity.
Defined.

(** ** The properties of the further functions *)

Lemma lstrip_no_slash s : starts_with "/" (lstrip_dots_slashes s) = false.
Proof.
  unfold lstrip_dots_slashes.
  destruct (lstrip_slashes_spec (lstrip_dot_slash s)) as (m & _ & P & _).
  exact P.
Qed.

(** X10. [compile_pattern] splits a pattern at the last slash before its
    first glob character: for a pattern that, once stripped, does not
    start with a dot and a slash, and a base whose generic form is
    itself, the base holds no glob character, and either the pattern
    holds none and the suffix is the two stars that match everything
    under the base, or the pattern is the base, a slash and the suffix
    (the base being [.] when no slash comes before the first glob
    character), and no slash comes before the first glob character of
    the suffix. *)
Theorem compile_pattern_split gen raw :
  gen (compute_base_dir (lstrip_dots_slashes (gen raw)))
  = compute_base_dir (lstrip_dots_slashes (gen raw)) ->
  starts_with "./" (lstrip_dots_slashes (gen raw)) = false ->
  exists base suffix,
    compile_pattern gen raw = (base, to_regex_from_glob_suffix suffix)
    /\ has_glob_chars base = false /\ base <> EmptyString
    /\ suffix <> EmptyString
    /\ ((has_glob_chars (lstrip_dots_slashes (gen raw)) = false
         /\ suffix = "**"
         /\ (base = lstrip_dots_slashes (gen raw)
             \/ (lstrip_dots_slashes (gen raw) = EmptyString
                 /\ base = ".")))
        \/ (has_glob_chars (lstrip_dots_slashes (gen raw)) = true
            /\ (lstrip_dots_slashes (gen raw)
                = String.append base (String SLASH suffix)
                \/ (base = "." /\ lstrip_dots_slashes (gen raw) = suffix))
            /\ exists i, find_first_glob suffix = Some i
                         /\ rfind SLASH suffix i = None)).
Proof.
  intros Hg Hp. unfold compile_pattern.
  set (p := lstrip_dots_slashes (gen raw)) in *.
  destruct (split_pattern p (lstrip_no_slash (gen raw)) Hp)
    as (base & suffix & Eb & Fix & Es & R).
  exists base, suffix. rewrite Hg, Eb, Fix, Es.
  split; [reflexivity|exact R].
Qed.

Lemma compile_pattern_split_witness :
  exists base suffix,
    compile_pattern (fun s => s) "./foo/**/*.cpp"
    = (base, to_regex_from_glob_suffix suffix)
    /\ has_glob_chars base = false /\ base <> EmptyString
    /\ suffix <> EmptyString
    /\ ((has_glob_chars (lstrip_dots_slashes "./foo/**/*.cpp") = false
         /\ suffix = "**"
         /\ (base = lstrip_dots_slashes "./foo/**/*.cpp"
             \/ (lstrip_dots_slashes "./foo/**/*.cpp" = EmptyString
                 /\ base = ".")))
        \/ (has_glob_chars (lstrip_dots_slashes "./foo/**/*.cpp") = true
            /\ (lstrip_dots_slashes "./foo/**/*.cpp"
                = String.append base (String SLASH suffix)
                \/ (base = "."
                    /\ lstrip_dots_slashes "./foo/**/*.cpp" = suffix))
            /\ exists i, find_first_glob suffix = Some i
                         /\ rfind SLASH suffix i = None)).
Proof.
  apply (compile_pattern_split (fun s => s) "./foo/**/*.cpp"); reflexivity.
Defined.

(** X11. [expand_globs] returns each selected file once: its result
    holds no path twice, and holds a path exactly when some pattern
    selects it, that is when the pattern's base is a regular file whose
    name the suffix matches, or a directory with a regular file whose
    relative path the suffix matches. *)
Theorem expand_globs_exact gen probe patterns results :
  expand_globs gen probe patterns = Some results ->
  NoDup results
  /\ forall g, In g results
               <-> exists pat, In pat patterns /\ selects gen probe pat g.
Proof. apply expand_globs_spec. Qed.

Lemma expand_globs_exact_witness :
  expand_globs (fun s => s) example_probe ["src/*.c"; "src/**"; "src/a.c"]
  = Some ["src/b.c"; "src/a.c"; "src/sub/c.h"]
  /\ NoDup ["src/b.c"; "src/a.c"; "src/sub/c.h"].
Proof.
  assert (E : expand_globs (fun s => s) example_probe
                ["src/*.c"; "src/**"; "src/a.c"]
              = Some ["src/b.c"; "src/a.c"; "src/sub/c.h"])
    by (vm_compute; reflexivity).
  split; [exact E|].
  exact (proj1 (expand_globs_exact _ _ _ _ E)).
Defined.

(** X12. The files [main] hands to [find_repeated_blocks] have strictly
    increasing, hence pairwise different, paths, and their lines hold no
    line feed: every run meets what the properties of the duplicate
    finder assume of the files. *)
Theorem main_files_sorted gen probe fs patterns results files :
  expand_globs gen probe patterns = Some results ->
  std_sorted path_before results files ->
  paths_sorted (load_files fs files)
  /\ NoDup (map fd_path (load_files fs files))
  /\ lines_wf (load_files fs files).
Proof.
  intros E S. destruct (expand_globs_spec _ _ _ _ E) as [Hnd _].
  pose proof (load_files_sorted fs files (sorted_paths_strict _ _ Hnd S))
    as Hs.
  split; [exact Hs|]. split; [now apply paths_sorted_NoDup|].
  apply load_files_wf.
Qed.

Lemma main_files_sorted_witness :
  paths_sorted
    (load_files example_fs ["src/a.c"; "src/b.c"; "src/sub/c.h"])
  /\ NoDup (map fd_path
              (load_files example_fs ["src/a.c"; "src/b.c"; "src/sub/c.h"]))
  /\ lines_wf (load_files example_fs ["src/a.c"; "src/b.c"; "src/sub/c.h"]).
Proof.
  apply (main_files_sorted (fun s => s) example_probe example_fs
           ["src/*.c"; "src/**"; "src/a.c"]
           ["src/b.c"; "src/a.c"; "src/sub/c.h"]).
  - vm_compute. reflexivity.
  - split.
    + apply (Permutation_cons_app ["src/a.c"] ["src/sub/c.h"]).
      apply Permutation_refl.
    + repeat constructor.
Defined.

(** X15. A run has exactly one result, whatever order the hash maps are
    traversed in, whatever [std::sort] does with blocks that compare
    equal, and whatever order the directories list their entries in. *)
Theorem main_result_unique gen probe fs args :
  exists r,
    main gen probe fs args r
    /\ forall probe' r',
         (forall base, same_listing (probe base) (probe' base)) ->
         main gen probe' fs args r' -> r' = r.
Proof.
  exists (main_fn gen probe fs args). split; [apply main_fn_run|].
  intros probe' r' Hs Hr. symmetry.
  apply (main_unique gen probe probe' fs args); try assumption.
  apply main_fn_run.
Qed.

(** X14. [--min-lines] reads the decimal number at the head of its
    value: after any blanks, the digits of a number that fits a [long]
    are read as that number, and what follows them is ignored. *)
Theorem stol_reads_decimal blanks n tail :
  Forall (fun c => is_space c = true) (list_ascii_of_string blanks) ->
  (N.of_nat n <= LONG_MAX)%N -> no_digit_ahead tail ->
  stol (String.append blanks (String.append (dec n) tail))
  = Some (Z.of_nat n).
Proof.
  intros Hb Hn Ht. rewrite <- (stol_dec n tail Hn Ht).
  unfold stol. f_equal.
  induction blanks as [|c blanks IH]; [reflexivity|].
  cbn [list_ascii_of_string] in Hb. inversion Hb as [|? ? Hc Hb']; subst.
  cbn [String.append skip_spaces]. rewrite Hc. now apply IH.
Qed.

Lemma stol_reads_decimal_witness :
  stol (String.append " " (String.append (dec 12) "x")) = Some (Z.of_nat 12).
Proof.
  apply (stol_reads_decimal " " 12 "x").
  - repeat constructor.
  - vm_compute. discriminate.
  - reflexivity.
Defined.

(** X26. [strip_indent] removes the longest run of spaces and tabs at
    the head of a line and nothing else; stripping twice is stripping
    once. *)
Theorem strip_indent_spec s :
  (exists ws,
     s = String.append ws (strip_indent s)
     /\ Forall (fun c => c = SPACE \/ c = TAB) (list_ascii_of_string ws))
  /\ (forall c r, strip_indent s = String c r -> c <> SPACE /\ c <> TAB)
  /\ strip_indent (strip_indent s) = strip_indent s.
Proof.
  induction s as [|c s ((ws & E & W) & Hh & Hi)].
  - split; [exists EmptyString; split; [reflexivity|constructor]|].
    split; [discriminate|reflexivity].
  - cbn [strip_indent].
    destruct (Ascii.eqb_spec c SPACE) as [->|N1]; cbn [orb].
    + split; [|split; assumption].
      exists (String SPACE ws). split; [cbn; now rewrite <- E|].
      constructor; [now left|exact W].
    + destruct (Ascii.eqb_spec c TAB) as [->|N2].
      * split; [|split; assumption].
        exists (String TAB ws). split; [cbn; now rewrite <- E|].
        constructor; [now right|exact W].
      * split; [exists EmptyString; split; [reflexivity|constructor]|].
        split.
        -- intros c' r [= <- _]. split; assumption.
        -- cbn [strip_indent].
           destruct (Ascii.eqb_spec c SPACE); [contradiction|].
           destruct (Ascii.eqb_spec c TAB); [contradiction|]. reflexivity.
Qed.

Lemma fold_bytes lines : forall n,
  fold_left (fun n s => n + (String.length s + 1)) lines n
  = n + String.length
          (String.concat EmptyString (map (fun l => String.append l NL) lines)).
Proof.
  induction lines as [|l lines IH]; intros n; [cbn; lia|].
  cbn [fold_left map]. rewrite IH, concat_empty_cons, !length_append_str.
  cbn [String.length NL]. lia.
Qed.

(** X27. The [bytes] of a block is the size of its lines as text with a
    line feed after each line. *)
Theorem bytes_of_lines_spec lines :
  bytes_of_lines lines
  = String.length
      (String.concat EmptyString (map (fun l => String.append l NL) lines)).
Proof.
  unfold bytes_of_lines. destruct lines as [|l lines]; [reflexivity|].
  now rewrite fold_bytes.
Qed.

(** ** Ignoring indentation is comparing stripped files *)

Lemma strip_indent_twice s : strip_indent (strip_indent s) = strip_indent s.
Proof.
  induction s as [|c s IH]; [reflexivity|]. cbn [strip_indent].
  destruct (Ascii.eqb c SPACE || Ascii.eqb c TAB)%bool eqn:E; [exact IH|].
  cbn [strip_indent]. now rewrite E.
Qed.

Lemma file_at_strip files idx :
  file_at (map strip_file files) idx = strip_file (file_at files idx).
Proof.
  unfold file_at. change no_file with (strip_file no_file) at 1.
  apply map_nth.
Qed.

Lemma nth_strip v k :
  nth k (map strip_indent v) EmptyString
  = strip_indent (nth k v EmptyString).
Proof.
  change EmptyString with (strip_indent EmptyString) at 1. apply map_nth.
Qed.

Lemma line_at_strip files idx k :
  line_at (map strip_file files) idx k = strip_indent (line_at files idx k).
Proof.
  unfold line_at. rewrite file_at_strip. cbn [strip_file fd_lines].
  apply nth_strip.
Qed.

Lemma size_strip files idx :
  List.length (fd_lines (file_at (map strip_file files) idx))
  = List.length (fd_lines (file_at files idx)).
Proof. rewrite file_at_strip. cbn [strip_file fd_lines]. apply length_map. Qed.

Lemma join_lines_norm_strip v i j :
  join_lines_norm (map strip_indent v) i j false = join_lines_norm v i j true.
Proof.
  unfold join_lines_norm. f_equal. apply map_ext. intros k.
  cbn [norm_line]. apply nth_strip.
Qed.

Lemma seed_windows_strip files min_lines :
  seed_windows (map strip_file files) min_lines false
  = seed_windows files min_lines true.
Proof.
  unfold seed_windows. rewrite length_map.
  apply flat_map_ext. intros idx. rewrite file_at_strip.
  unfold file_windows. cbn [strip_file fd_lines]. rewrite length_map.
  destruct (Nat.ltb _ _); [reflexivity|].
  apply map_ext. intros i. now rewrite join_lines_norm_strip.
Qed.

Lemma build_seeds_strip files min_lines :
  build_seeds (map strip_file files) min_lines false
  = build_seeds files min_lines true.
Proof. unfold build_seeds. now rewrite seed_windows_strip. Qed.

Lemma equal_line_strip a b :
  equal_line false (strip_indent a) (strip_indent b) = equal_line true a b.
Proof. reflexivity. Qed.

Lemma forallb_same {A} (f g : A -> bool) l :
  (forall x, f x = g x) -> forallb f l = forallb g l.
Proof.
  intros H. induction l as [|x l IH]; [reflexivity|].
  cbn [forallb]. now rewrite H, IH.
Qed.

Lemma can_extend_backward_strip files occs :
  can_extend_backward (map strip_file files) false occs
  = can_extend_backward files true occs.
Proof.
  unfold can_extend_backward. destruct occs as [|o0 rest]; [reflexivity|].
  f_equal. cbv zeta. apply forallb_same. intros oc.
  now rewrite !line_at_strip.
Qed.

Lemma can_extend_forward_strip files occs len :
  can_extend_forward (map strip_file files) false occs len
  = can_extend_forward files true occs len.
Proof.
  unfold can_extend_forward. destruct occs as [|o0 rest]; [reflexivity|].
  cbv zeta. rewrite size_strip.
  destruct (Nat.leb _ _); [reflexivity|].
  apply forallb_same. intros oc. rewrite size_strip.
  rewrite !file_at_strip. cbn [strip_file fd_lines].
  now rewrite !nth_strip.
Qed.

Lemma extend_backward_strip files occs :
  extend_backward (map strip_file files) false occs
  = extend_backward files true occs.
Proof.
  remember (start (hd no_occ occs)) as n eqn:Hn. revert occs Hn.
  induction n as [n IH] using lt_wf_ind. intros occs Hn.
  rewrite (extend_backward_step (map strip_file files)),
          (extend_backward_step files).
  rewrite can_extend_backward_strip.
  destruct (can_extend_backward files true occs) eqn:E; [|reflexivity].
  apply (IH (start (hd no_occ (map dec_start occs)))); [|reflexivity].
  destruct occs as [|o0 rest]; [discriminate|].
  apply backward_step_decreases in E.
  inversion E as [|? ? [_ H] _]; subst. exact H.
Qed.

Lemma extend_forward_strip files occs : forall len,
  extend_forward (map strip_file files) false occs len
  = extend_forward files true occs len.
Proof.
  intros len.
  remember (size_at files (hd no_occ occs) - (start (hd no_occ occs) + len))
    as n eqn:Hn.
  revert len Hn. induction n as [n IH] using lt_wf_ind. intros len Hn.
  rewrite (extend_forward_step (map strip_file files)),
          (extend_forward_step files).
  rewrite can_extend_forward_strip.
  destruct (can_extend_forward files true occs len) eqn:E; [|reflexivity].
  apply (IH (size_at files (hd no_occ occs)
             - (start (hd no_occ occs) + (len + 1)))); [|reflexivity].
  apply forward_step_bounded in E. lia.
Qed.

Lemma slice_map (f : string -> string) v i j :
  slice (map f v) i j = map f (slice v i j).
Proof. unfold slice. now rewrite skipn_map, firstn_map. Qed.

Lemma build_maximal_block_strip files occs seed_len :
  build_maximal_block (map strip_file files) occs seed_len false
  = strip_block (build_maximal_block files occs seed_len true).
Proof.
  unfold build_maximal_block, strip_block. cbn [b_lines b_hits].
  rewrite extend_backward_strip, extend_forward_strip.
  rewrite file_at_strip. cbn [strip_file fd_lines]. rewrite slice_map.
  f_equal. apply map_ext. intros oc. unfold hit_of.
  now rewrite file_at_strip.
Qed.

Lemma add_hit_strip a h : add_hit (strip_agg a) h = strip_agg (add_hit a h).
Proof.
  unfold add_hit. cbn [strip_agg agg_hit_keys agg_lines agg_hits].
  destruct (existsb _ _); reflexivity.
Qed.

Lemma fold_add_hit_strip hs : forall a,
  fold_left add_hit hs (strip_agg a) = strip_agg (fold_left add_hit hs a).
Proof.
  induction hs as [|h hs IH]; intros a; [reflexivity|].
  cbn [fold_left]. now rewrite add_hit_strip, IH.
Qed.

Lemma merge_block_strip b a :
  merge_block (strip_block b) (strip_agg a) = strip_agg (merge_block b a).
Proof.
  unfold merge_block. cbn [strip_block strip_agg b_lines b_hits agg_lines
                           agg_hit_keys agg_hits].
  destruct (agg_lines a) as [|l ls]; cbn [map].
  - apply (fold_add_hit_strip (b_hits b)
             (mkAgg (b_lines b) (agg_hit_keys a) (agg_hits a))).
  - rewrite <- fold_add_hit_strip. destruct a as [al ak ah]. cbn in *.
    reflexivity.
Qed.

Lemma umap_update_strip k b m :
  umap_update k empty_agg (merge_block (strip_block b)) (map strip_entry m)
  = map strip_entry (umap_update k empty_agg (merge_block b) m).
Proof.
  induction m as [|[k' v] m IH]; cbn [map umap_update strip_entry fst snd].
  - unfold strip_entry. cbn [fst snd]. f_equal. f_equal.
    apply (merge_block_strip b empty_agg).
  - destruct (String.eqb k k'); cbn [map strip_entry fst snd].
    + now rewrite merge_block_strip.
    + now rewrite IH.
Qed.

Lemma content_key_strip b :
  content_key false (strip_block b) = content_key true b.
Proof.
  unfold content_key. cbn [strip_block b_lines].
  now rewrite length_map, join_lines_norm_strip.
Qed.

Lemma process_group_strip files min_lines m entry :
  process_group (map strip_file files) min_lines false
    (map strip_entry m) entry
  = map strip_entry (process_group files min_lines true m entry).
Proof.
  unfold process_group. destruct (Nat.ltb _ _); [reflexivity|].
  rewrite build_maximal_block_strip.
  pose proof (content_key_strip
                (build_maximal_block files (snd entry) min_lines true)) as K.
  unfold content_key in K. rewrite K. apply umap_update_strip.
Qed.

Lemma by_content_strip files min_lines order :
  by_content_of (map strip_file files) min_lines false order
  = map strip_entry (by_content_of files min_lines true order).
Proof.
  unfold by_content_of.
  change (@nil (string * Agg)) with (map strip_entry []) at 1.
  generalize (@nil (string * Agg)) as m.
  induction order as [|e order IH]; intros m; [reflexivity|].
  cbn [fold_left]. now rewrite process_group_strip, IH.
Qed.

Lemma collect_block_strip e :
  collect_block (strip_entry e) = map strip_block (collect_block e).
Proof.
  unfold collect_block. cbn [strip_entry strip_agg snd agg_hits agg_lines].
  destruct (Nat.leb _ _); reflexivity.
Qed.

(** X28. With [--ignore-indentation] the duplicate finder returns what
    it returns, without the option, for the files with the leading
    spaces and tabs removed from every line: the same blocks with the
    same hits; only the content it stores keeps the indentation of the
    occurrence it was taken from. *)
Theorem ignore_indentation_is_stripping files min_lines out :
  find_repeated_blocks_loaded files min_lines true out ->
  find_repeated_blocks_loaded (map strip_file files) min_lines false
    (map strip_block out).
Proof.
  intros [order1 order2 P1 P2].
  replace (map strip_block (flat_map collect_block order2))
    with (flat_map collect_block (map strip_entry order2)).
  - apply (frb_intro _ _ _ order1 (map strip_entry order2)).
    + now rewrite build_seeds_strip.
    + rewrite by_content_strip. now apply Permutation_map.
  - clear. induction order2 as [|e l IH]; [reflexivity|].
    cbn [map flat_map]. now rewrite map_app, collect_block_strip, IH.
Qed.

Lemma ignore_indentation_is_stripping_witness :
  find_repeated_blocks_loaded (map strip_file scenario_C) 3 false
    (map strip_block (find_repeated_blocks_fn scenario_C 3 true)).
Proof.
  apply (ignore_indentation_is_stripping scenario_C 3).
  apply find_repeated_blocks_fn_run.
Defined.

(** ** A pattern without glob characters *)

Lemma double_star_tokens : glob_tokens "**" = [TStarStar].
Proof. reflexivity. Qed.

Lemma accepts_everything rel :
  glob_accepts dot_char [TStarStar] rel <-> no_line_terminator rel.
Proof.
  unfold no_line_terminator. induction rel as [|c rel IH].
  - split; [intros _ c []|]. intros _. apply ga_wide_end. constructor.
  - split.
    + intros H. apply accepts_wide_inv in H as [H|(c' & s' & E & Hc & H)];
        [inversion H|].
      injection E as <- <-. intros x [<-|Hx].
      * unfold dot_char in Hc. apply negb_true_iff, orb_false_elim in Hc.
        destruct Hc as [H1 H2]. apply Ascii.eqb_neq in H1, H2. now split.
      * now apply (proj1 IH H).
    + intros H. apply ga_wide_more.
      * destruct (H c (or_introl eq_refl)). now apply dot_char_true.
      * apply IH. intros x Hx. apply H. now right.
Qed.

Lemma match_everything rel :
  regex_match rel (to_regex_from_glob_suffix "**") = true
  <-> no_line_terminator rel.
Proof.
  change (regex_match rel (to_regex_from_glob_suffix "**"))
    with (glob_matches "**" rel).
  rewrite glob_matches_accepts, double_star_tokens.
  apply accepts_everything.
Qed.

(** X29. A pattern without glob characters names a file or a
    directory.  For such a pattern that, once stripped, is not empty,
    does not start with a dot and a slash and is its own generic form:
    when it names a regular file it selects that file, and when it names
    a directory it selects every regular file the directory lists,
    provided, in both cases, that the matched name holds no line feed
    and no carriage return. *)
Theorem literal_pattern_selects gen probe pat g :
  has_glob_chars (lstrip_dots_slashes (gen pat)) = false ->
  lstrip_dots_slashes (gen pat) <> EmptyString ->
  starts_with "./" (lstrip_dots_slashes (gen pat)) = false ->
  gen (lstrip_dots_slashes (gen pat)) = lstrip_dots_slashes (gen pat) ->
  (selects gen probe pat g
   <-> match probe (lstrip_dots_slashes (gen pat)) with
       | RegularFile =>
           no_line_terminator
             (gen (path_filename (lstrip_dots_slashes (gen pat))))
           /\ g = lstrip_dots_slashes (gen pat)
       | Directory entries =>
           exists e, In e entries /\ e_regular e = true
                     /\ no_line_terminator (e_rel e) /\ e_path e = g
       | _ => False
       end).
Proof.
  intros Hglob Hne Hp Hgen.
  set (p := lstrip_dots_slashes (gen pat)) in *.
  destruct (split_pattern p (lstrip_no_slash (gen pat)) Hp)
    as (base & suffix & Eb & Fix & Es & _ & _ & _ & R).
  destruct R as [(_ & -> & [->|[E _]])|(Hg & _)];
    [|contradiction|congruence].
  assert (C : compile_pattern gen pat = (p, to_regex_from_glob_suffix "**")).
  { unfold compile_pattern. fold p. rewrite Eb, Hgen, Fix, Es. reflexivity. }
  unfold selects. rewrite C. cbn [fst snd].
  assert (N : String.eqb p EmptyString = false)
    by (destruct p; [congruence|reflexivity]).
  rewrite N.
  destruct (probe p) as [| |entries|]; try reflexivity.
  - rewrite match_everything, Hgen. reflexivity.
  - split; intros (e & Hin & Hr & Hm & He); exists e;
      (split; [exact Hin|]); (split; [exact Hr|]); (split; [|exact He]);
      now apply match_everything.
Qed.

Lemma literal_pattern_selects_witness :
  selects (fun s => s) example_probe "./src" "src/sub/c.h"
  <-> exists e,
        In e [ mkEntry true "b.c" "src/b.c";
               mkEntry false "sub" "src/sub";
               mkEntry true "sub/c.h" "src/sub/c.h";
               mkEntry true "a.c" "src/a.c" ]
        /\ e_regular e = true /\ no_line_terminator (e_rel e)
        /\ e_path e = "src/sub/c.h".
Proof.
  apply (literal_pattern_selects (fun s => s) example_probe "./src"
           "src/sub/c.h"); try reflexivity.
  discriminate.
Defined.

(** ** Files that cannot be read *)

(** X30. A file that cannot be opened is treated as a file without
    lines, and it never shows in the report: every hit names one of the
    given paths, the file at that path could be read, and the hit's
    range lies within its lines. *)
Theorem hits_name_readable_files fs files_paths min_lines ign out b h :
  1 <= min_lines ->
  detect_duplicates (load_files fs files_paths) min_lines ign out ->
  In b out -> In h (b_hits b) ->
  read_lines_normalized None = []
  /\ In (h_path h) files_paths
  /\ exists content,
       fs (h_path h) = Some content
       /\ 1 <= start_line h <= end_line h
       /\ end_line h
          <= List.length (read_lines_normalized (Some content)).
Proof.
  intros Hmin Hrun Hb Hh. split; [reflexivity|].
  set (files := load_files fs files_paths) in *.
  destruct (detect_duplicates_member _ _ _ _ _ Hrun Hb)
    as (order1 & K & agg & P1 & He & _ & _ & Hp & _).
  assert (I1 : incl order1 (build_seeds files min_lines ign)).
  { intros e Hin. eapply Permutation_in; [symmetry; exact P1|exact Hin]. }
  destruct (by_content_recorded files min_lines ign Hmin _ _ _ I1 He)
    as (_ & _ & Hall).
  assert (Hh' : In h (agg_hits agg))
    by (eapply Permutation_in; [symmetry; exact Hp|exact Hh]).
  destruct (Hall h Hh') as ([K0 occs] & (Hin & _ & _) & Hhit).
  destruct (group_shape_exist files min_lines ign K0 occs (I1 _ Hin))
    as (o0 & bk & n & G).
  rewrite (gs_block _ _ _ _ _ _ _ _ G) in Hhit. cbn [b_hits] in Hhit.
  apply in_map_iff in Hhit as (oc' & <- & Hoc').
  apply in_map_iff in Hoc' as (oc & <- & Hoc).
  destruct (gs_fits _ _ _ _ _ _ _ _ oc G Hoc) as [Hidx Hsz].
  pose proof (ext_seed _ _ _ _ _ _ _ (gs_ext _ _ _ _ _ _ _ _ G)) as Hn.
  unfold hit_of, size_at in *.
  cbn [h_path start_line end_line shift_back file_index start] in *.
  unfold files, load_files, file_at in *.
  rewrite length_map in Hidx.
  set (mk := fun p => mkFileData p (read_lines_normalized (fs p))) in *.
  assert (E : nth (file_index oc) (map mk files_paths) no_file
              = mk (nth (file_index oc) files_paths EmptyString)).
  { rewrite (nth_indep _ no_file (mk EmptyString))
      by (rewrite length_map; exact Hidx).
    apply map_nth. }
  rewrite E in *. cbn [mk fd_path fd_lines] in *.
  split; [now apply nth_In|].
  destruct (fs (nth (file_index oc) files_paths EmptyString)) as [content|].
  - exists content. split; [reflexivity|]. split; lia.
  - cbn [read_lines_normalized List.length] in Hsz. lia.
Qed.

Lemma hits_name_readable_files_witness :
  exists content,
    two_files "b.txt" = Some content
    /\ 1 <= 1 <= 2
    /\ 2 <= List.length (read_lines_normalized (Some content)).
Proof.
  apply (hits_name_readable_files two_files ["a.txt"; "b.txt"; "c.txt"]
           2 false
           (detect_duplicates_fn (load_files two_files
                                    ["a.txt"; "b.txt"; "c.txt"]) 2 false)
           (mkBlock ["x"; "y"] [mkHit "a.txt" 1 2; mkHit "b.txt" 1 2])
           (mkHit "b.txt" 1 2)).
  - lia.
  - apply detect_duplicates_fn_run.
  - vm_compute. left. reflexivity.
  - right. left. reflexivity.
Defined.

(** ** One file under two spellings *)

(** C4. In a directory that holds the one file [file1], the patterns
    [*] and [file1] select that file twice, as [./file1] and as
    [file1]: [seen] compares the spellings.  Both are loaded, and every
    run reports the five lines of the file as a block with two hits,
    lines 1 to 5 of [./file1] and lines 1 to 5 of [file1]: one region of
    one file as two occurrences of itself. *)
Theorem C4_same_file_listed_twice :
  expand_globs (fun s => s) one_file_probe ["*"; "file1"]
  = Some ["./file1"; "file1"]
  /\ one_file_fs "./file1" = one_file_fs "file1"
  /\ detect_duplicates_fn (load_files one_file_fs ["./file1"; "file1"])
       3 false
     = [mkBlock ["A"; "B"; "C"; "D"; "E"]
          [mkHit "./file1" 1 5; mkHit "file1" 1 5]]
  /\ main (fun s => s) one_file_probe one_file_fs
       ["--min-lines"; "3"; "*"; "file1"]
       (Printed
          (print_yaml
             [mkBlock ["A"; "B"; "C"; "D"; "E"]
                [mkHit "./file1" 1 5; mkHit "file1" 1 5]]))
  /\ forall r,
       main (fun s => s) one_file_probe one_file_fs
         ["--min-lines"; "3"; "*"; "file1"] r ->
       r = Printed
             (print_yaml
                [mkBlock ["A"; "B"; "C"; "D"; "E"]
                   [mkHit "./file1" 1 5; mkHit "file1" 1 5]]).
Proof.
  assert (E : main_fn (fun s => s) one_file_probe one_file_fs
                ["--min-lines"; "3"; "*"; "file1"]
              = Printed
                  (print_yaml
                     [mkBlock ["A"; "B"; "C"; "D"; "E"]
                        [mkHit "./file1" 1 5; mkHit "file1" 1 5]]))
    by (vm_compute; reflexivity).
  split; [vm_compute; reflexivity|]. split; [reflexivity|].
  split; [vm_compute; reflexivity|]. split.
  - rewrite <- E. apply main_fn_run.
  - intros r Hr. rewrite <- E.
    apply (main_unique (fun s => s) one_file_probe one_file_probe
             one_file_fs ["--min-lines"; "3"; "*"; "file1"]);
      [|exact Hr|apply main_fn_run].
    intros base. destruct (one_file_probe base); cbn;
      try exact I. apply Permutation_refl.
Qed.
